(** * treelite predictor: batched prediction over a loaded computation unit

    A shallow embedding of [src/predictor.cc]: the two row loops
    ([PredLoop] over a CSR batch and over a dense batch), the driver
    [PredictBatch_] with its thread-count rewriting and output re-shaping,
    and the [Predictor] object with [Load], [Free] and [PredictBatch].

    Conventions.
    - [size_t] is the 64-bit unsigned type of an LP64 platform; every
      arithmetic expression the source evaluates in [size_t] is wrapped
      with [size_t] here.
    - [float] values are IEEE values ([spec_float]): only the NaN test and
      the comparison [!=] are used by the source.
    - C arrays are lists; an access outside an array, a division by zero or
      a call through a function pointer of the wrong type is undefined
      behaviour in C++ and is reported here as the error [Undefined].
    - A failed [CHECK] is a fatal error; the memory at that point is kept
      in the outcome, so that one can tell what had been written.
    - The OpenMP loop is run one row at a time; which row comes next and the
      value of [omp_get_thread_num()] during it are given by a [Schedule].
      An iteration works on the scratch slice of its thread and on the
      output slots of its row, so the iterations of different threads do
      not interfere and every interleaving of them is one of these runs. *)

From Stdlib Require Import ZArith Lia SpecFloat.
From stdpp Require Import base tactics option list list_numbers strings.

Local Open Scope Z_scope.

(** ** Machine integers *)

Definition size_t (x : Z) : Z := x mod 2 ^ 64.

Definition INT64_MAX : Z := 2 ^ 63 - 1.

(** [sizeof(size_t)] and [sizeof(int64_t)] on the modelled platform. *)
Definition sizeof_size_t : Z := 8.
Definition sizeof_int64_t : Z := 8.

(** ** Floats *)

Abbreviation float := spec_float.

(** Modelled from the spec: [treelite::common::math::CheckNAN] lives in
    [common/math.h], which is not part of the sources at hand; it tells
    whether its argument is NaN. *)
Definition CheckNAN (value : float) : bool :=
  match value with
  | S754_nan => true
  | _ => false
  end.

(** The C++ comparison [a != b] on floats. *)
Definition float_ne (a b : float) : bool := negb (SFeqb a b).

(** ** Entries *)

(** Modelled from the spec: the type [Predictor::Entry] is declared in
    [treelite/predictor.h], which is not part of the sources at hand.  A
    slot holds either the missing discriminator or a floating-point value:
    the source creates every slot as [{-1}], populates a slot by assigning
    its [fvalue] member and resets it by assigning [-1] to its [missing]
    member.  The constructor records the member assigned last. *)
Inductive Entry : Type :=
  | missing (m : Z)
  | fvalue (v : float).

(** A slot is missing when its discriminator is negative. *)
Definition is_missing (e : Entry) : bool :=
  match e with
  | missing m => m <? 0
  | fvalue _ => false
  end.

Definition is_present (e : Entry) : bool := negb (is_missing e).

(** ** Errors and the memory monad *)

Inductive error : Type :=
  | NotLoaded            (* A shared library needs to be loaded first using Load() *)
  | RowIndexRange        (* num_row does not fit the signed row index *)
  | NaNInMatrix          (* The missing_value argument must be set to NaN ... *)
  | ReshapeGroup         (* CHECK_GT(num_output_group, 1) *)
  | ReshapeDivisible     (* CHECK_EQ(query_result_size % num_row, 0) *)
  | ReshapePositive      (* CHECK_GT(query_size_per_instance, 0) *)
  | ReshapeWidth         (* CHECK_LT(query_size_per_instance, num_output_group) *)
  | LoadLibraryFailed    (* Failed to load dynamic shared library *)
  | NoQueryFunction      (* no valid get_num_output_group() *)
  | ZeroOutputGroup      (* num_output_group cannot be zero *)
  | NoPredictMulticlass  (* no valid predict_multiclass() *)
  | NoPredict            (* no valid predict() *)
  | Undefined.           (* undefined behaviour of the C++ program *)

Inductive result (A : Type) : Type :=
  | Ok (a : A)
  | Fatal (e : error).
Arguments Ok {A} a.
Arguments Fatal {A} e.

Definition is_Ok {A} (r : result A) : bool :=
  match r with Ok _ => true | Fatal _ => false end.

(** The memory a prediction call works on: the scratch vector [inst] of
    [PredLoop] and the caller's output buffer [out_pred]. *)
Record heap : Type := Heap {
  inst : list Entry;
  out_pred : list float
}.

(** A computation over a state [S] that may stop with a fatal error. *)
Definition M (S A : Type) : Type := S → result A * S.

Definition ret {S A} (a : A) : M S A := λ s, (Ok a, s).

Definition fatal {S A} (e : error) : M S A := λ s, (Fatal e, s).

Definition bind {S A B} (m : M S A) (f : A → M S B) : M S B :=
  λ s, match m s with
       | (Ok a, s') => f a s'
       | (Fatal e, s') => (Fatal e, s')
       end.

Declare Scope pred_scope.
Delimit Scope pred_scope with pred.
Notation "'let*' x := m 'in' k" := (bind m (λ x, k))
  (at level 10, x name, m at level 100, k at level 200) : pred_scope.
Notation "m >> k" := (bind m (λ _, k))
  (at level 100, k at level 200, right associativity) : pred_scope.
Local Open Scope pred_scope.

Definition CHECK {S} (cond : bool) (e : error) : M S unit :=
  if cond then ret tt else fatal e.

(** [for (i = lo; i < hi; ++i) body(i)], as [n] iterations from [i]. *)
Fixpoint for_count {S} (n : nat) (i : Z) (body : Z → M S unit) : M S unit :=
  match n with
  | O => ret tt
  | S n' => body i >> for_count n' (i + 1) body
  end.

Definition for_range {S} (lo hi : Z) (body : Z → M S unit) : M S unit :=
  for_count (Z.to_nat (hi - lo)) lo body.

(** ** Arrays *)

Definition index {A} (l : list A) (i : Z) : option A :=
  if i <? 0 then None else l !! Z.to_nat i.

Definition update {A} (l : list A) (i : Z) (x : A) : option (list A) :=
  if (0 <=? i) && (i <? Z.of_nat (length l)) then Some (<[Z.to_nat i := x]> l)
  else None.

(** Read of a constant input array. *)
Definition read {S A} (l : list A) (i : Z) : M S A :=
  match index l i with
  | Some x => ret x
  | None => fatal Undefined
  end.

(** [inst[i].fvalue = v] *)
Definition set_fvalue (i : Z) (v : float) : M heap unit :=
  λ h, match update (inst h) i (fvalue v) with
       | Some l => (Ok tt, Heap l (out_pred h))
       | None => (Fatal Undefined, h)
       end.

(** [inst[i].missing = m] *)
Definition set_missing (i : Z) (m : Z) : M heap unit :=
  λ h, match update (inst h) i (missing m) with
       | Some l => (Ok tt, Heap l (out_pred h))
       | None => (Fatal Undefined, h)
       end.

(** [out_pred[i]] *)
Definition get_out (i : Z) : M heap float :=
  λ h, match index (out_pred h) i with
       | Some x => (Ok x, h)
       | None => (Fatal Undefined, h)
       end.

(** [out_pred[i] = x] *)
Definition set_out (i : Z) (x : float) : M heap unit :=
  λ h, match update (out_pred h) i x with
       | Some l => (Ok tt, Heap (inst h) l)
       | None => (Fatal Undefined, h)
       end.

(** The entries a computation unit sees through the pointer [&inst[off]]:
    the [num_col] slots of the calling thread's slice. *)
Definition slice (off num_col : Z) : M heap (list Entry) :=
  λ h, if (0 <=? off) && (off + num_col <=? Z.of_nat (length (inst h)))
       then (Ok (take (Z.to_nat num_col) (drop (Z.to_nat off) (inst h))), h)
       else (Fatal Undefined, h).

(** [std::vector<Entry> inst(n, {-1})], for a request the constructor
    meets.  The constructor throws for a request it cannot meet: more
    entries than a vector holds, as a negative thread count converted to
    [size_t] asks for, or more than the memory at hand.  There is no
    outcome for that here: a statement that depends on the vector being
    there says for which thread counts it is made. *)
Definition alloc_inst (n : Z) : M heap unit :=
  λ h, (Ok tt, Heap (replicate (Z.to_nat n) (missing (-1))) (out_pred h)).

(** ** Batches *)

Module CSRBatch.
Record t : Type := Build {
  data : list float;
  col_ind : list Z;
  row_ptr : list Z;
  num_row : Z;
  num_col : Z
}.
End CSRBatch.

Module DenseBatch.
Record t : Type := Build {
  data : list float;
  missing_value : float;
  num_row : Z;
  num_col : Z
}.
End DenseBatch.

(** ** Computation units *)

(** [size_t predict_multiclass(Entry* inst, int pred_margin, float* out)]:
    from the entries and the margin flag, the floats stored at [out[0]],
    [out[1]], ... and the count returned. *)
Definition predict_multiclass_t : Type := list Entry → Z → list float * Z.

(** [float predict(Entry* inst, int pred_margin)] *)
Definition predict_t : Type := list Entry → Z → float.

(** What a symbol of a loaded image points to. *)
Inductive FuncPtr : Type :=
  | get_num_output_group_fn (n : Z)
  | predict_multiclass_fn (f : predict_multiclass_t)
  | predict_fn (f : predict_t).

(** A call through the pointer cast to the type of [get_num_output_group]. *)
Definition call_query {S} (p : FuncPtr) : M S Z :=
  match p with
  | get_num_output_group_fn n => ret n
  | _ => fatal Undefined
  end.

(** A call through the pointer cast to the type of [predict_multiclass]. *)
Definition call_multiclass {S} (p : FuncPtr) (e : list Entry) (pred_margin : Z)
  : M S (list float * Z) :=
  match p with
  | predict_multiclass_fn f => ret (f e pred_margin)
  | _ => fatal Undefined
  end.

(** A call through the pointer cast to the type of [predict]. *)
Definition call_predict {S} (p : FuncPtr) (e : list Entry) (pred_margin : Z)
  : M S float :=
  match p with
  | predict_fn f => ret (f e pred_margin)
  | _ => fatal Undefined
  end.

(** The stores a unit makes through its output pointer [&out_pred[i]]. *)
Fixpoint write_floats (i : Z) (ws : list float) : M heap unit :=
  match ws with
  | [] => ret tt
  | w :: ws' => set_out i w >> write_floats (i + 1) ws'
  end.

(** ** The row loops *)

(** The order in which the rows of a parallel loop are run, each with the
    number of the thread that runs it. *)
Definition Schedule : Type := list (Z * Z).

(** The callable handed to [PredLoop]: row index and entries to the count
    of values produced, writing to [out_pred]. *)
Definition PredFunc : Type := Z → list Entry → M heap Z.

(** [#pragma omp parallel for ... reduction(+:total_output_size)] *)
Fixpoint parallel_for (sched : Schedule) (body : Z → Z → M heap Z)
  (total_output_size : Z) : M heap Z :=
  match sched with
  | [] => ret total_output_size
  | (rid, tid) :: rest =>
    let* n := body rid tid in
    parallel_for rest body (size_t (total_output_size + n))
  end.

(** The first inner loop of the CSR row loop:
    [inst[off + col_ind[i]].fvalue = data[i]] for [i] from [ibegin] to
    [iend - 1]. *)
Definition fill_CSR (batch : CSRBatch.t) (off ibegin iend : Z) : M heap unit :=
  for_range ibegin iend (λ i,
    let* c := read (CSRBatch.col_ind batch) i in
    let* v := read (CSRBatch.data batch) i in
    set_fvalue (size_t (off + c)) v).

(** The second inner loop: [inst[off + col_ind[i]].missing = -1]. *)
Definition clear_CSR (batch : CSRBatch.t) (off ibegin iend : Z) : M heap unit :=
  for_range ibegin iend (λ i,
    let* c := read (CSRBatch.col_ind batch) i in
    set_missing (size_t (off + c)) (-1)).

(** The body of the CSR row loop for row [rid] on thread [tid]; its value
    is what is added to [total_output_size]. *)
Definition row_CSR (batch : CSRBatch.t) (func : PredFunc) (rid tid : Z)
  : M heap Z :=
  let num_col := CSRBatch.num_col batch in
  let off := size_t (num_col * tid) in
  let* ibegin := read (CSRBatch.row_ptr batch) rid in
  let* iend := read (CSRBatch.row_ptr batch) (rid + 1) in
  fill_CSR batch off ibegin iend >>
  let* e := slice off num_col in
  let* n := func rid e in
  clear_CSR batch off ibegin iend >>
  ret n.

(** [PredLoop(const CSRBatch*, ...)] *)
Definition PredLoop_CSR (sched : Schedule) (batch : CSRBatch.t)
  (nthread verbose : Z) (func : PredFunc) : M heap Z :=
  alloc_inst (size_t (nthread * CSRBatch.num_col batch)) >>
  CHECK ((sizeof_size_t <? sizeof_int64_t)
         || (CSRBatch.num_row batch <=? INT64_MAX)) RowIndexRange >>
  parallel_for sched (row_CSR batch func) 0.

(** The first inner loop of the dense row loop, over the columns [j] of
    the row that starts at [data[row]]. *)
Definition fill_Dense (batch : DenseBatch.t) (nan_missing : bool)
  (off row : Z) : M heap unit :=
  for_range 0 (DenseBatch.num_col batch) (λ j,
    let* x := read (DenseBatch.data batch) (row + j) in
    if CheckNAN x then CHECK nan_missing NaNInMatrix
    else if nan_missing || float_ne x (DenseBatch.missing_value batch)
    then set_fvalue (size_t (off + j)) x
    else ret tt).

(** The second inner loop: [inst[off + j].missing = -1] for every column. *)
Definition clear_Dense (batch : DenseBatch.t) (off : Z) : M heap unit :=
  for_range 0 (DenseBatch.num_col batch) (λ j,
    set_missing (size_t (off + j)) (-1)).

(** The body of the dense row loop for row [rid] on thread [tid]. *)
Definition row_Dense (batch : DenseBatch.t) (nan_missing : bool)
  (func : PredFunc) (rid tid : Z) : M heap Z :=
  let num_col := DenseBatch.num_col batch in
  let off := size_t (num_col * tid) in
  let row := size_t (rid * num_col) in
  fill_Dense batch nan_missing off row >>
  let* e := slice off num_col in
  let* n := func rid e in
  clear_Dense batch off >>
  ret n.

(** [PredLoop(const DenseBatch*, ...)] *)
Definition PredLoop_Dense (sched : Schedule) (batch : DenseBatch.t)
  (nthread verbose : Z) (func : PredFunc) : M heap Z :=
  let nan_missing := CheckNAN (DenseBatch.missing_value batch) in
  alloc_inst (size_t (nthread * DenseBatch.num_col batch)) >>
  CHECK ((sizeof_size_t <? sizeof_int64_t)
         || (DenseBatch.num_row batch <=? INT64_MAX)) RowIndexRange >>
  parallel_for sched (row_Dense batch nan_missing func) 0.

(** The two overloads of [PredLoop], selected by the batch type. *)
Class BatchType (B : Type) : Type := {
  num_row : B → Z;
  num_col : B → Z;
  PredLoop : Schedule → B → Z → Z → PredFunc → M heap Z
}.

#[global] Instance CSRBatch_type : BatchType CSRBatch.t := {|
  num_row := CSRBatch.num_row;
  num_col := CSRBatch.num_col;
  PredLoop := PredLoop_CSR
|}.

#[global] Instance DenseBatch_type : BatchType DenseBatch.t := {|
  num_row := DenseBatch.num_row;
  num_col := DenseBatch.num_col;
  PredLoop := PredLoop_Dense
|}.

(** ** PredictBatch_ *)

(** [nthread = (nthread == 0) ? max_thread : std::min(nthread, max_thread)] *)
Definition clamp_nthread (nthread max_thread : Z) : Z :=
  if nthread =? 0 then max_thread else Z.min nthread max_thread.

(** The callable of the multi-class branch. *)
Definition multiclass_func (pred_func : FuncPtr) (num_output_group : Z)
  (pred_margin : bool) : PredFunc :=
  λ rid e,
    let* r := call_multiclass pred_func e (Z.b2z pred_margin) in
    write_floats (size_t (rid * num_output_group)) r.1 >>
    ret r.2.

(** The callable of the single-output branch. *)
Definition single_func (pred_func : FuncPtr) (pred_margin : bool) : PredFunc :=
  λ rid e,
    let* v := call_predict pred_func e (Z.b2z pred_margin) in
    set_out rid v >>
    ret 1.

(** The two nested loops that re-shape the output. *)
Definition reshape (num_row num_output_group query_size_per_instance : Z)
  : M heap unit :=
  for_range 0 num_row (λ rid,
    for_range 0 query_size_per_instance (λ k,
      let* v := get_out (size_t (rid * num_output_group + k)) in
      set_out (size_t (rid * query_size_per_instance + k)) v)).

(** The block guarded by [query_result_size < expected_query_result_size];
    the remainder by a [num_row] of zero is undefined. *)
Definition reshape_checked (num_row num_output_group query_result_size : Z)
  : M heap unit :=
  CHECK (1 <? num_output_group) ReshapeGroup >>
  (if num_row =? 0 then fatal Undefined else ret tt) >>
  CHECK (query_result_size mod num_row =? 0) ReshapeDivisible >>
  let query_size_per_instance := query_result_size / num_row in
  CHECK (0 <? query_size_per_instance) ReshapePositive >>
  CHECK (query_size_per_instance <? num_output_group) ReshapeWidth >>
  reshape num_row num_output_group query_size_per_instance.

(** The dispatch on [num_output_group] and the row loop it starts. *)
Definition run_PredLoop `{BatchType B} (sched : Schedule) (batch : B)
  (nthread verbose : Z) (pred_margin : bool) (num_output_group : Z)
  (pred_func : FuncPtr) : M heap Z :=
  if 1 <? num_output_group
  then PredLoop sched batch nthread verbose
         (multiclass_func pred_func num_output_group pred_margin)
  else PredLoop sched batch nthread verbose
         (single_func pred_func pred_margin).

(** [max_thread] is the value of [omp_get_max_threads()]. *)
Definition PredictBatch_ `{BatchType B} (sched : Schedule) (max_thread : Z)
  (batch : B) (nthread verbose : Z) (pred_margin : bool)
  (num_output_group : Z) (pred_func_handle : option FuncPtr)
  (expected_query_result_size : Z) : M heap Z :=
  match pred_func_handle with
  | None => fatal NotLoaded
  | Some pred_func =>
    let nthread := clamp_nthread nthread max_thread in
    let* query_result_size :=
      run_PredLoop sched batch nthread verbose pred_margin num_output_group
        pred_func in
    (if query_result_size <? expected_query_result_size
     then reshape_checked (num_row batch) num_output_group query_result_size
     else ret tt) >>
    ret query_result_size
  end.

(** ** The Predictor object *)

(** An opened image: what [dlsym] finds under each name. *)
Definition Library : Type := string → option FuncPtr.

Record Predictor : Type := Build_Predictor {
  lib_handle_ : option Library;
  query_func_handle_ : option FuncPtr;
  pred_func_handle_ : option FuncPtr;
  num_output_group_ : Z
}.

(** The constructor sets the three handles to [nullptr] and leaves
    [num_output_group_] uninitialised: it holds whatever [garbage] was in
    memory. *)
Definition Predictor_new (garbage : Z) : Predictor :=
  Build_Predictor None None None garbage.

(** [dlopen] is the loader of the platform: the image under each name. *)
Definition OpenLibrary (dlopen : string → option Library) (name : string)
  : option Library := dlopen name.

Definition LoadFunction (lib_handle : Library) (name : string)
  : option FuncPtr := lib_handle name.

Definition set_lib_handle (l : option Library) : M Predictor unit :=
  λ p, (Ok tt, Build_Predictor l (query_func_handle_ p) (pred_func_handle_ p)
                 (num_output_group_ p)).

Definition set_query_func_handle (f : option FuncPtr) : M Predictor unit :=
  λ p, (Ok tt, Build_Predictor (lib_handle_ p) f (pred_func_handle_ p)
                 (num_output_group_ p)).

Definition set_pred_func_handle (f : option FuncPtr) : M Predictor unit :=
  λ p, (Ok tt, Build_Predictor (lib_handle_ p) (query_func_handle_ p) f
                 (num_output_group_ p)).

Definition set_num_output_group (n : Z) : M Predictor unit :=
  λ p, (Ok tt, Build_Predictor (lib_handle_ p) (query_func_handle_ p)
                 (pred_func_handle_ p) n).

(** [CHECK(p != nullptr)], giving the pointer when it is not null. *)
Definition CHECK_notnull {S A} (p : option A) (e : error) : M S A :=
  match p with
  | Some x => ret x
  | None => fatal e
  end.

Definition Load (dlopen : string → option Library) (name : string)
  : M Predictor unit :=
  let lib_handle := OpenLibrary dlopen name in
  set_lib_handle lib_handle >>
  let* lib := CHECK_notnull lib_handle LoadLibraryFailed in
  (* 1. query # of output groups *)
  let query_func_handle := LoadFunction lib "get_num_output_group" in
  set_query_func_handle query_func_handle >>
  let* query_func := CHECK_notnull query_func_handle NoQueryFunction in
  let* n := call_query query_func in
  set_num_output_group (size_t n) >>
  (* 2. load appropriate function for margin prediction *)
  CHECK (0 <? size_t n) ZeroOutputGroup >>
  if 1 <? size_t n
  then
    let pred_func_handle := LoadFunction lib "predict_multiclass" in
    set_pred_func_handle pred_func_handle >>
    let* _ := CHECK_notnull pred_func_handle NoPredictMulticlass in
    ret tt
  else
    let pred_func_handle := LoadFunction lib "predict" in
    set_pred_func_handle pred_func_handle >>
    let* _ := CHECK_notnull pred_func_handle NoPredict in
    ret tt.

(** [dlclose] acts on the images of the process, which are not part of the
    predictor: the object is left as it is.  What the platform does with a
    null handle, and what becomes of the entry points of a closed image,
    is not part of this: only the members of the predictor are followed. *)
Definition CloseLibrary (handle : option Library) : M Predictor unit := ret tt.

(** [Free] closes the image and assigns no member. *)
Definition Free : M Predictor unit :=
  λ p, CloseLibrary (lib_handle_ p) p.

(** Modelled from the spec: [QueryResultSize] is defined in
    [treelite/predictor.h], which is not part of the sources at hand; it
    gives the full capacity [num_row * max(1, num_output_group)]. *)
Definition QueryResultSize `{BatchType B} (p : Predictor) (batch : B) : Z :=
  size_t (num_row batch * Z.max 1 (num_output_group_ p)).

Definition PredictBatch `{BatchType B} (p : Predictor) (sched : Schedule)
  (max_thread : Z) (batch : B) (nthread verbose : Z) (pred_margin : bool)
  : M heap Z :=
  PredictBatch_ sched max_thread batch nthread verbose pred_margin
    (num_output_group_ p) (pred_func_handle_ p) (QueryResultSize p batch).

(** A prediction call from the caller's side: the outcome and the output
    buffer it leaves, from the buffer [out_result] handed in. *)
Definition run {A} (m : M heap A) (out_result : list float)
  : result A * list float :=
  let r := m (Heap [] out_result) in (r.1, out_pred r.2).

(** ** Schedules *)

(** A schedule of the loop [for (rid = 0; rid < num_row; ++rid)] on a team
    of [nthread] threads: every row once, each on a thread of the team. *)
Definition valid_schedule (nthread num_row : Z) (sched : Schedule) : Prop :=
  sched.*1 ≡ₚ seqZ 0 num_row ∧ Forall (λ p, 0 ≤ p.2 < nthread) sched.

(** The schedule of a team of one thread. *)
Definition sequential (num_row : Z) : Schedule :=
  (λ rid, (rid, 0)) <$> seqZ 0 num_row.

(** * Verification *)

(** ** The monad and its loops *)

Section monad.
Context {S : Type}.

Lemma bind_Ok {A B} (m : M S A) (f : A → M S B) s a s' :
  m s = (Ok a, s') → bind m f s = f a s'.
Proof. unfold bind. by intros ->. Qed.

Lemma bind_Fatal {A B} (m : M S A) (f : A → M S B) s e s' :
  m s = (Fatal e, s') → bind m f s = (Fatal e, s').
Proof. unfold bind. by intros ->. Qed.

Lemma read_Some {A} (l : list A) i x (s : S) :
  index l i = Some x → read l i s = (Ok x, s).
Proof. unfold read. by intros ->. Qed.

Lemma for_count_S n i (body : Z → M S unit) s :
  for_count (Datatypes.S n) i body s
  = bind (body i) (λ _, for_count n (i + 1) body) s.
Proof. done. Qed.

(** The loop rule: an invariant [I] indexed by the loop variable, and a
    condition [E] on the error and the state of a failing iteration. *)
Lemma for_count_rule (I : Z → S → Prop) (E : error → S → Prop) n i body :
  (∀ k s, i ≤ k < i + Z.of_nat n → I k s →
     match body k s with
     | (Ok _, s') => I (k + 1) s'
     | (Fatal e, s') => E e s'
     end) →
  ∀ s, I i s →
    match for_count n i body s with
    | (Ok _, s') => I (i + Z.of_nat n) s'
    | (Fatal e, s') => E e s'
    end.
Proof.
  revert i. induction n as [|n IH]; intros i Hbody s Hs.
  - simpl. unfold ret. by rewrite Z.add_0_r.
  - rewrite for_count_S. unfold bind.
    specialize (Hbody i s ltac:(lia) Hs) as Hi.
    destruct (body i s) as [[[]|e] s1]; [|done].
    specialize (IH (i + 1) ltac:(intros; apply Hbody; [lia|done]) s1 Hi).
    destruct (for_count n (i + 1) body s1) as [[[]|e] s2]; [|done].
    by replace (i + Z.of_nat (Datatypes.S n)) with (i + 1 + Z.of_nat n) by lia.
Qed.

Lemma for_range_rule (I : Z → S → Prop) (E : error → S → Prop) lo hi body :
  lo ≤ hi →
  (∀ k s, lo ≤ k < hi → I k s →
     match body k s with
     | (Ok _, s') => I (k + 1) s'
     | (Fatal e, s') => E e s'
     end) →
  ∀ s, I lo s →
    match for_range lo hi body s with
    | (Ok _, s') => I hi s'
    | (Fatal e, s') => E e s'
    end.
Proof.
  intros Hle Hbody s Hs. unfold for_range.
  pose proof (for_count_rule I E (Z.to_nat (hi - lo)) lo body) as H.
  replace (lo + Z.of_nat (Z.to_nat (hi - lo))) with hi in H by lia.
  apply H; [|done]. intros; apply Hbody; [lia|done].
Qed.

Lemma for_range_empty lo hi (body : Z → M S unit) s :
  hi ≤ lo → for_range lo hi body s = (Ok tt, s).
Proof.
  intros. unfold for_range. by replace (Z.to_nat (hi - lo)) with O by lia.
Qed.

End monad.

(** ** Arrays *)

Lemma size_t_small x : 0 ≤ x < 2 ^ 64 → size_t x = x.
Proof. intros. unfold size_t. by apply Z.mod_small. Qed.

Lemma size_t_add_comm t a b :
  size_t (size_t (t + a) + b) = size_t (size_t (t + b) + a).
Proof.
  unfold size_t. rewrite !Zplus_mod_idemp_l. f_equal. lia.
Qed.

Lemma index_nat {A} (l : list A) (i : Z) :
  0 ≤ i → index l i = l !! Z.to_nat i.
Proof. intros. unfold index. case_match; [lia|done]. Qed.

Lemma update_Some {A} (l : list A) i x :
  0 ≤ i < Z.of_nat (length l) → update l i x = Some (<[Z.to_nat i := x]> l).
Proof.
  intros. unfold update.
  destruct (0 <=? i) eqn:?, (i <? Z.of_nat (length l)) eqn:?; simpl; [done|lia..].
Qed.

Lemma update_inv {A} (l l' : list A) i x :
  update l i x = Some l' →
  0 ≤ i < Z.of_nat (length l) ∧ l' = <[Z.to_nat i := x]> l.
Proof.
  unfold update.
  destruct (0 <=? i) eqn:?, (i <? Z.of_nat (length l)) eqn:?; simpl;
    intros; simplify_eq; split; [lia|done].
Qed.

Lemma set_fvalue_Ok i v h :
  0 ≤ i < Z.of_nat (length (inst h)) →
  set_fvalue i v h
  = (Ok tt, Heap (<[Z.to_nat i := fvalue v]> (inst h)) (out_pred h)).
Proof. intros. unfold set_fvalue. by rewrite update_Some. Qed.

Lemma set_missing_Ok i m h :
  0 ≤ i < Z.of_nat (length (inst h)) →
  set_missing i m h
  = (Ok tt, Heap (<[Z.to_nat i := missing m]> (inst h)) (out_pred h)).
Proof. intros. unfold set_missing. by rewrite update_Some. Qed.

Lemma set_out_Ok i x h :
  0 ≤ i < Z.of_nat (length (out_pred h)) →
  set_out i x h = (Ok tt, Heap (inst h) (<[Z.to_nat i := x]> (out_pred h))).
Proof. intros. unfold set_out. by rewrite update_Some. Qed.

Lemma get_out_Ok i x h :
  0 ≤ i → out_pred h !! Z.to_nat i = Some x → get_out i h = (Ok x, h).
Proof. intros ? Hx. unfold get_out. by rewrite index_nat, Hx. Qed.

Lemma slice_Ok off n h :
  0 ≤ off → off + n ≤ Z.of_nat (length (inst h)) →
  slice off n h = (Ok (take (Z.to_nat n) (drop (Z.to_nat off) (inst h))), h).
Proof.
  intros. unfold slice.
  destruct (0 <=? off) eqn:?,
    (off + n <=? Z.of_nat (length (inst h))) eqn:?; simpl; [done|lia..].
Qed.

Lemma write_floats_Ok ws : ∀ i h,
  0 ≤ i → i + Z.of_nat (length ws) ≤ Z.of_nat (length (out_pred h)) →
  write_floats i ws h
  = (Ok tt, Heap (inst h) (list_inserts (Z.to_nat i) ws (out_pred h))).
Proof.
  induction ws as [|w ws IH]; intros i h Hi Hlen; simpl in *.
  - by destruct h.
  - erewrite bind_Ok; [|apply set_out_Ok; lia].
    rewrite IH; simpl; [|lia|rewrite length_insert; lia].
    replace (Z.to_nat (i + 1)) with (Datatypes.S (Z.to_nat i)) by lia.
    by rewrite list_insert_inserts_lt by lia.
Qed.

(** ** Re-shaping the output *)

Section reshape.
Variables (n G k : Z) (out0 : list float) (inst0 : list Entry).
Hypothesis Hn : 0 ≤ n.
Hypothesis Hk : 0 < k < G.
Hypothesis Hlen : n * G ≤ Z.of_nat (length out0).
Hypothesis Hwrap : n * G < 2 ^ 64.

(** What holds when the copy is about to move slot [j] of row [r]. *)
Definition reshape_inv (r j : Z) (h : heap) : Prop :=
  inst h = inst0 ∧ length (out_pred h) = length out0 ∧
  (∀ r' j', 0 ≤ r' → 0 ≤ j' < k → r' < r ∨ (r' = r ∧ j' < j) →
     out_pred h !! Z.to_nat (r' * k + j') = out0 !! Z.to_nat (r' * G + j')) ∧
  (∀ i, r * k + j ≤ i → out_pred h !! Z.to_nat i = out0 !! Z.to_nat i).

Lemma reshape_inv_next_row r h :
  reshape_inv r k h → reshape_inv (r + 1) 0 h.
Proof.
  intros (? & ? & Hdone & Hrest). repeat split; [done..| |].
  - intros r' j' ? ? ?. apply Hdone; lia.
  - intros i ?. apply Hrest. lia.
Qed.

Lemma reshape_copy_rule r j h :
  0 ≤ r < n → 0 ≤ j < k → reshape_inv r j h →
  match (let* v := get_out (size_t (r * G + j)) in
         set_out (size_t (r * k + j)) v) h with
  | (Ok _, h') => reshape_inv r (j + 1) h'
  | (Fatal _, _) => False
  end.
Proof.
  intros Hr Hj (Hinst & Hl & Hdone & Hrest).
  assert (r * k ≤ r * G) by nia.
  assert (r * G + G ≤ n * G) by nia.
  rewrite !size_t_small by lia.
  destruct (lookup_lt_is_Some_2 out0 (Z.to_nat (r * G + j))) as [v Hv]; [lia|].
  erewrite bind_Ok; [|apply (get_out_Ok _ v); [lia|]; rewrite Hrest; [done|lia]].
  rewrite set_out_Ok by lia. repeat split; simpl; [done|by rewrite length_insert| |].
  - intros r' j' ? ? Hlt.
    destruct (decide (r' = r ∧ j' = j)) as [[-> ->]|].
    + rewrite list_lookup_insert_eq by lia. done.
    + assert (r' * k + j' < r * k + j) by nia.
      rewrite list_lookup_insert_ne by lia. apply Hdone; [lia..|].
      destruct Hlt as [|[]]; [by left|right; lia].
  - intros i ?. rewrite list_lookup_insert_ne by lia. apply Hrest. lia.
Qed.

Lemma reshape_row_rule r h :
  0 ≤ r < n → reshape_inv r 0 h →
  match for_range 0 k (λ j,
          let* v := get_out (size_t (r * G + j)) in
          set_out (size_t (r * k + j)) v) h with
  | (Ok _, h') => reshape_inv (r + 1) 0 h'
  | (Fatal _, _) => False
  end.
Proof.
  intros Hr Hh.
  pose proof (for_range_rule (reshape_inv r) (λ _ _, False) 0 k _ ltac:(lia)
    (λ j s Hj, reshape_copy_rule r j s Hr Hj) h Hh) as H.
  destruct (for_range 0 k _ h) as [[[]|e] h']; [|done].
  by apply reshape_inv_next_row.
Qed.

Lemma reshape_rule h :
  inst h = inst0 → out_pred h = out0 →
  ∃ out1, reshape n G k h = (Ok tt, Heap inst0 out1) ∧
    length out1 = length out0 ∧
    (∀ r j, 0 ≤ r < n → 0 ≤ j < k →
       out1 !! Z.to_nat (r * k + j) = out0 !! Z.to_nat (r * G + j)) ∧
    (∀ i, n * k ≤ i → out1 !! Z.to_nat i = out0 !! Z.to_nat i).
Proof.
  intros Hi Ho. unfold reshape.
  assert (reshape_inv 0 0 h) as Hh.
  { repeat split; [done|by rewrite Ho|intros; lia|by rewrite Ho]. }
  pose proof (for_range_rule (λ r, reshape_inv r 0) (λ _ _, False) 0 n _ Hn
    (λ r s Hr, reshape_row_rule r s Hr) h Hh) as H.
  destruct (for_range 0 n _ h) as [[[]|e] [i1 o1]]; [|done].
  destruct H as (? & ? & Hdone & Hrest); simpl in *; subst.
  exists o1. repeat split; [done| |].
  - intros r j ? ?. apply Hdone; lia.
  - intros i ?. apply Hrest. lia.
Qed.

End reshape.

(** ** What a computation leaves alone *)

(** [stable R m]: the state after [m] is related by [R] to the state
    before, whatever the outcome. *)
Definition stable {A} (R : relation heap) (m : M heap A) : Prop :=
  ∀ h, R h (m h).2.

Definition same_inst_length : relation heap :=
  λ h h', length (inst h') = length (inst h).

#[global] Instance same_inst_length_preorder : PreOrder same_inst_length.
Proof. split; unfold same_inst_length; [done|intros ???; congruence]. Qed.

Create HintDb stable discriminated.

Section stable.
Context (R : relation heap) `{!PreOrder R}.

Lemma stable_ret {A} (a : A) : stable R (ret a).
Proof. intros h. simpl. reflexivity. Qed.

Lemma stable_fatal {A} e : stable R (fatal (A:=A) e).
Proof. intros h. simpl. reflexivity. Qed.

Lemma stable_bind {A B} (m : M heap A) (f : A → M heap B) :
  stable R m → (∀ a, stable R (f a)) → stable R (bind m f).
Proof.
  intros Hm Hf h. unfold bind. specialize (Hm h).
  destruct (m h) as [[a|e] h1]; simpl in *; [|done].
  etrans; [done|apply Hf].
Qed.

Lemma stable_CHECK b e : stable R (CHECK b e).
Proof. destruct b; [apply stable_ret|apply stable_fatal]. Qed.

Lemma stable_read {A} (l : list A) i : stable R (read l i).
Proof. unfold read. destruct (index l i); [apply stable_ret|apply stable_fatal]. Qed.

Lemma stable_if {A} (b : bool) (m1 m2 : M heap A) :
  stable R m1 → stable R m2 → stable R (if b then m1 else m2).
Proof. by destruct b. Qed.

Lemma stable_for_count n : ∀ i body,
  (∀ j, stable R (body j)) → stable R (for_count n i body).
Proof.
  induction n as [|n IH]; intros i body Hb; simpl.
  - apply stable_ret.
  - apply stable_bind; [done|]. intros _. by apply IH.
Qed.

Lemma stable_for_range lo hi body :
  (∀ j, stable R (body j)) → stable R (for_range lo hi body).
Proof. apply stable_for_count. Qed.

Lemma stable_get_out i : stable R (get_out i).
Proof. intros h. unfold get_out. destruct (index _ _); simpl; reflexivity. Qed.

Lemma stable_slice off n : stable R (slice off n).
Proof. intros h. unfold slice. case_match; simpl; reflexivity. Qed.

Lemma stable_call_multiclass p e m : stable R (call_multiclass p e m).
Proof. destruct p; simpl; first [apply stable_ret|apply stable_fatal]. Qed.

Lemma stable_call_predict p e m : stable R (call_predict p e m).
Proof. destruct p; simpl; first [apply stable_ret|apply stable_fatal]. Qed.

Lemma stable_parallel_for sched : ∀ body total,
  (∀ rid tid, stable R (body rid tid)) → stable R (parallel_for sched body total).
Proof.
  induction sched as [|[rid tid] sched IH]; intros body total Hb; simpl.
  - apply stable_ret.
  - apply stable_bind; [done|]. intros n. by apply IH.
Qed.

End stable.

#[global] Hint Resolve stable_ret stable_fatal stable_bind stable_CHECK
  stable_read stable_if stable_for_range stable_get_out stable_slice
  stable_call_multiclass stable_call_predict stable_parallel_for : stable.

Lemma stable_set_fvalue_length i v : stable same_inst_length (set_fvalue i v).
Proof.
  intros h. unfold set_fvalue, same_inst_length.
  destruct (update _ _ _) eqn:E; simpl; [|done].
  apply update_inv in E as [_ ->]. by rewrite length_insert.
Qed.

Lemma stable_set_missing_length i m : stable same_inst_length (set_missing i m).
Proof.
  intros h. unfold set_missing, same_inst_length.
  destruct (update _ _ _) eqn:E; simpl; [|done].
  apply update_inv in E as [_ ->]. by rewrite length_insert.
Qed.

Lemma stable_set_out_length i x : stable same_inst_length (set_out i x).
Proof. intros h. unfold set_out, same_inst_length. by destruct (update _ _ _). Qed.

#[global] Hint Resolve stable_set_fvalue_length stable_set_missing_length
  stable_set_out_length : stable.

Lemma stable_write_floats (R : relation heap) `{!PreOrder R} ws :
  (∀ i x, stable R (set_out i x)) → ∀ i, stable R (write_floats i ws).
Proof.
  intros Hs. induction ws as [|w ws IH]; intros i; simpl; auto with stable.
Qed.

Lemma stable_multiclass_func (R : relation heap) `{!PreOrder R} p G m rid e :
  (∀ i x, stable R (set_out i x)) → stable R (multiclass_func p G m rid e).
Proof.
  intros Hs. unfold multiclass_func.
  apply stable_bind; auto with stable. intros r.
  apply stable_bind; auto using stable_write_floats with stable.
Qed.

Lemma stable_single_func (R : relation heap) `{!PreOrder R} p m rid e :
  (∀ i x, stable R (set_out i x)) → stable R (single_func p m rid e).
Proof. intros Hs. unfold single_func. auto 10 with stable. Qed.

Lemma stable_reshape (R : relation heap) `{!PreOrder R} n G k :
  (∀ i x, stable R (set_out i x)) → stable R (reshape n G k).
Proof. intros Hs. unfold reshape. auto 10 with stable. Qed.

Lemma stable_reshape_checked (R : relation heap) `{!PreOrder R} n G q :
  (∀ i x, stable R (set_out i x)) → stable R (reshape_checked n G q).
Proof.
  intros Hs. unfold reshape_checked.
  repeat (apply (stable_bind R); [auto with stable|intros _]).
  by apply stable_reshape.
Qed.

(** ** Rows of a dense batch *)

(** A dense batch whose [data] holds [num_row * num_col] floats. *)
Definition wf_Dense (b : DenseBatch.t) : bool :=
  (0 <=? DenseBatch.num_row b) && (0 <=? DenseBatch.num_col b)
  && (DenseBatch.num_row b * DenseBatch.num_col b
      <=? Z.of_nat (length (DenseBatch.data b)))
  && (DenseBatch.num_row b * DenseBatch.num_col b <? 2 ^ 64).

(** The floats of row [rid]. *)
Definition dense_row (b : DenseBatch.t) (rid : Z) : list float :=
  take (Z.to_nat (DenseBatch.num_col b))
    (drop (Z.to_nat (rid * DenseBatch.num_col b)) (DenseBatch.data b)).

(** The missing-value policy on one element, in the words of the
    specification: NaN and the sentinel are missing, the rest is present. *)
Definition dense_entry (missing_value x : float) : Entry :=
  if CheckNAN x then missing (-1)
  else if CheckNAN missing_value then fvalue x
  else if SFeqb x missing_value then missing (-1)
  else fvalue x.

(** The entries of row [rid], or [None] when the row is rejected: it holds
    a NaN and the sentinel is not NaN. *)
Definition dense_entries (b : DenseBatch.t) (rid : Z) : option (list Entry) :=
  if negb (CheckNAN (DenseBatch.missing_value b))
     && existsb CheckNAN (dense_row b rid)
  then None
  else Some (dense_entry (DenseBatch.missing_value b) <$> dense_row b rid).

Lemma dense_entries_None d rid :
  CheckNAN (DenseBatch.missing_value d) = false →
  existsb CheckNAN (dense_row d rid) = true →
  dense_entries d rid = None.
Proof. intros Hmv Hex. unfold dense_entries. by rewrite Hmv, Hex. Qed.

Lemma dense_entries_Some d rid :
  CheckNAN (DenseBatch.missing_value d) = true
  ∨ existsb CheckNAN (dense_row d rid) = false →
  dense_entries d rid
  = Some (dense_entry (DenseBatch.missing_value d) <$> dense_row d rid).
Proof.
  intros [Hmv|Hex]; unfold dense_entries; [by rewrite Hmv|].
  by rewrite Hex, andb_false_r.
Qed.

Lemma wf_Dense_inv b :
  wf_Dense b = true →
  0 ≤ DenseBatch.num_row b ∧ 0 ≤ DenseBatch.num_col b ∧
  DenseBatch.num_row b * DenseBatch.num_col b
    ≤ Z.of_nat (length (DenseBatch.data b)) ∧
  DenseBatch.num_row b * DenseBatch.num_col b < 2 ^ 64.
Proof. unfold wf_Dense. rewrite !andb_true_iff. lia. Qed.

Lemma dense_row_lookup b rid (j : nat) :
  wf_Dense b = true → 0 ≤ rid < DenseBatch.num_row b →
  Z.of_nat j < DenseBatch.num_col b →
  dense_row b rid !! j
  = DenseBatch.data b !! Z.to_nat (rid * DenseBatch.num_col b + Z.of_nat j)
  ∧ is_Some (dense_row b rid !! j).
Proof.
  intros (? & ? & ? & ?)%wf_Dense_inv ? ?. unfold dense_row.
  rewrite lookup_take_lt, lookup_drop by lia.
  replace (Z.to_nat (rid * DenseBatch.num_col b) + j)%nat
    with (Z.to_nat (rid * DenseBatch.num_col b + Z.of_nat j)) by lia.
  split; [done|]. apply lookup_lt_is_Some_2. nia.
Qed.

Lemma dense_row_length b rid :
  wf_Dense b = true → 0 ≤ rid < DenseBatch.num_row b →
  length (dense_row b rid) = Z.to_nat (DenseBatch.num_col b).
Proof.
  intros (? & ? & ? & ?)%wf_Dense_inv ?. unfold dense_row.
  rewrite length_take, length_drop. nia.
Qed.

Section fill_Dense.
Variables (b : DenseBatch.t) (rid off : Z) (h0 : heap).
Local Abbreviation mv := (DenseBatch.missing_value b).
Local Abbreviation nc := (DenseBatch.num_col b).
Hypothesis Hwf : wf_Dense b = true.
Hypothesis Hrid : 0 ≤ rid < DenseBatch.num_row b.
Hypothesis Hoff : 0 ≤ off.
Hypothesis Hlen : off + nc ≤ Z.of_nat (length (inst h0)).
Hypothesis Hwrap : off + nc ≤ 2 ^ 64.
Hypothesis Hclean : ∀ p : nat,
  off ≤ Z.of_nat p < off + nc → inst h0 !! p = Some (missing (-1)).

Definition fill_Dense_inv (j : Z) (h : heap) : Prop :=
  out_pred h = out_pred h0 ∧ length (inst h) = length (inst h0) ∧
  (CheckNAN mv = false → ∀ (j' : nat) x, Z.of_nat j' < j →
     dense_row b rid !! j' = Some x → CheckNAN x = false) ∧
  (∀ p : nat, inst h !! p =
     if decide (off ≤ Z.of_nat p < off + j)
     then dense_entry mv <$> dense_row b rid !! (p - Z.to_nat off)%nat
     else inst h0 !! p).

Definition fill_Dense_err (e : error) (h : heap) : Prop :=
  e = NaNInMatrix ∧ CheckNAN mv = false ∧ out_pred h = out_pred h0 ∧
  ∃ (j : nat) x, dense_row b rid !! j = Some x ∧ CheckNAN x = true.

Lemma fill_Dense_inv_skip j x h :
  0 ≤ j < nc → dense_row b rid !! Z.to_nat j = Some x →
  dense_entry mv x = missing (-1) →
  (CheckNAN mv = false → CheckNAN x = false) →
  fill_Dense_inv j h → fill_Dense_inv (j + 1) h.
Proof.
  intros Hj Hx Hm Hnan (Ho & Hl & Hno & Hp). repeat split; [done..| |].
  - intros Hmv j' x' Hj' Hx'. destruct (decide (j' = Z.to_nat j)) as [->|].
    + rewrite Hx in Hx'. injection Hx' as <-. auto.
    + eapply Hno; [done| |done]. lia.
  - intros p. rewrite Hp. destruct (decide (Z.of_nat p = off + j)) as [Hpj|].
    + rewrite decide_False, decide_True by lia.
      replace (p - Z.to_nat off)%nat with (Z.to_nat j) by lia.
      rewrite Hx. simpl. rewrite Hm. apply Hclean. lia.
    + repeat case_decide; try done; lia.
Qed.

Lemma fill_Dense_inv_store j x h :
  0 ≤ j < nc → dense_row b rid !! Z.to_nat j = Some x →
  dense_entry mv x = fvalue x → CheckNAN x = false →
  fill_Dense_inv j h →
  fill_Dense_inv (j + 1)
    (Heap (<[Z.to_nat (off + j) := fvalue x]> (inst h)) (out_pred h)).
Proof.
  intros Hj Hx Hm Hnan (Ho & Hl & Hno & Hp). repeat split; simpl; [done| | |].
  - by rewrite length_insert.
  - intros Hmv j' x' Hj' Hx'. destruct (decide (j' = Z.to_nat j)) as [->|].
    + rewrite Hx in Hx'. injection Hx' as <-. auto.
    + eapply Hno; [done| |done]. lia.
  - intros p. destruct (decide (Z.of_nat p = off + j)) as [Hpj|].
    + replace (Z.to_nat (off + j)) with p by lia.
      rewrite list_lookup_insert_eq by lia. rewrite decide_True by lia.
      replace (p - Z.to_nat off)%nat with (Z.to_nat j) by lia.
      rewrite Hx. simpl. by rewrite Hm.
    + rewrite list_lookup_insert_ne by lia. rewrite Hp.
      repeat case_decide; try done; lia.
Qed.

Lemma fill_Dense_rule :
  match fill_Dense b (CheckNAN mv) off (rid * nc) h0 with
  | (Ok _, h) => fill_Dense_inv nc h
  | (Fatal e, h) => fill_Dense_err e h
  end.
Proof.
  destruct (wf_Dense_inv b Hwf) as (? & ? & ? & ?).
  apply (for_range_rule fill_Dense_inv fill_Dense_err); [done| |].
  - intros j h Hj Hinv.
    destruct (dense_row_lookup b rid (Z.to_nat j) Hwf Hrid ltac:(lia))
      as [Hlook [x Hx]].
    rewrite Z2Nat.id in Hlook by lia.
    erewrite bind_Ok;
      [|apply read_Some; rewrite index_nat by nia; by rewrite <-Hlook].
    destruct (CheckNAN x) eqn:Hnan.
    + destruct (CheckNAN mv) eqn:Hmv; simpl.
      * eapply fill_Dense_inv_skip; [done..| |congruence|done].
        unfold dense_entry. by rewrite Hnan.
      * destruct Hinv as (? & ? & ? & ?). repeat split; [done..|eauto].
    + destruct (CheckNAN mv || float_ne x mv) eqn:Hc.
      * destruct Hinv as (Ho & Hl & Hno & Hp).
        rewrite size_t_small by lia. rewrite set_fvalue_Ok by lia.
        apply fill_Dense_inv_store; [done..| |done|by repeat split].
        unfold dense_entry, float_ne in *. rewrite Hnan.
        destruct (CheckNAN mv); [done|]. simpl in Hc.
        by destruct (SFeqb x mv).
      * eapply fill_Dense_inv_skip; [done..| |done|done].
        unfold dense_entry, float_ne in *. rewrite Hnan.
        destruct (CheckNAN mv); [done|]. simpl in Hc.
        by destruct (SFeqb x mv).
  - repeat split; [intros; lia|].
    intros p. case_decide; [lia|done].
Qed.

End fill_Dense.

(** ** The scratch slice of a thread *)

(** The slice at [off] of [l] holds [es], and [l] is [l0] elsewhere. *)
Definition slice_is (off : Z) (es : list Entry) (l0 l : list Entry) : Prop :=
  length l = length l0 ∧
  ∀ p : nat, l !! p =
    if decide (off ≤ Z.of_nat p < off + Z.of_nat (length es))
    then es !! (p - Z.to_nat off)%nat
    else l0 !! p.

Lemma slice_is_take_drop off es l0 l :
  0 ≤ off → slice_is off es l0 l →
  take (length es) (drop (Z.to_nat off) l) = es.
Proof.
  intros Hoff [Hl Hp]. apply list_eq. intros i.
  destruct (decide (i < length es)%nat).
  - rewrite lookup_take_lt, lookup_drop, Hp by done.
    rewrite decide_True by lia. f_equal. lia.
  - rewrite lookup_take_ge by lia. symmetry. apply lookup_ge_None. lia.
Qed.

Lemma slice_is_replicate off n N l0 l :
  0 ≤ off → off + Z.of_nat n ≤ Z.of_nat N →
  l0 = replicate N (missing (-1)) →
  slice_is off (replicate n (missing (-1))) l0 l → l = l0.
Proof.
  intros Hoff Hn -> [Hl Hp]. rewrite length_replicate in *.
  apply list_eq. intros p. rewrite Hp. case_decide; [|done].
  rewrite !lookup_replicate_2 by lia. done.
Qed.

Lemma slice_is_refl off n l0 :
  (∀ p : nat, off ≤ Z.of_nat p < off + Z.of_nat n →
     l0 !! p = Some (missing (-1))) →
  0 ≤ off → slice_is off (replicate n (missing (-1))) l0 l0.
Proof.
  intros Hc Hoff. split; [done|]. intros p. rewrite length_replicate.
  case_decide; [|done]. rewrite lookup_replicate_2 by lia. by apply Hc.
Qed.

Lemma slice_is_insert off es l0 l (c : nat) e :
  0 ≤ off → (c < length es)%nat → slice_is off es l0 l →
  slice_is off (<[c := e]> es) l0 (<[(Z.to_nat off + c)%nat := e]> l).
Proof.
  intros Hoff Hc [Hl Hp]. split; [by rewrite length_insert|].
  intros p. rewrite length_insert.
  assert (off + Z.of_nat (length es) ≤ Z.of_nat (length l)).
  { destruct (decide (length es = 0)%nat); [lia|].
    pose proof (Hp (Z.to_nat off + length es - 1)%nat) as Hq.
    rewrite decide_True in Hq by lia.
    assert (is_Some (l !! (Z.to_nat off + length es - 1)%nat)) as Hs.
    { rewrite Hq. apply lookup_lt_is_Some_2. lia. }
    apply lookup_lt_is_Some_1 in Hs. lia. }
  destruct (decide (p = Z.to_nat off + c)%nat) as [->|].
  - rewrite list_lookup_insert_eq by lia. rewrite decide_True by lia.
    replace (Z.to_nat off + c - Z.to_nat off)%nat with c by lia.
    by rewrite list_lookup_insert_eq.
  - rewrite list_lookup_insert_ne by done. rewrite Hp.
    case_decide; [|done]. rewrite list_lookup_insert_ne by lia. done.
Qed.

Lemma slice_is_overwrite off es es' l0 l1 l2 :
  length es = length es' →
  slice_is off es l0 l1 → slice_is off es' l1 l2 → slice_is off es' l0 l2.
Proof.
  intros Hlen [Hl1 Hp1] [Hl2 Hp2]. split; [congruence|].
  intros p. rewrite Hp2. case_decide; [done|].
  rewrite Hp1. rewrite Hlen. by rewrite decide_False.
Qed.

Lemma slice_Ok_is off n es l0 h :
  0 ≤ off → n = Z.of_nat (length es) → slice_is off es l0 (inst h) →
  off + n ≤ Z.of_nat (length l0) →
  slice off n h = (Ok es, h).
Proof.
  intros Hoff -> His Hlen. rewrite slice_Ok; [|done|destruct His; lia].
  rewrite Nat2Z.id. by erewrite slice_is_take_drop.
Qed.

(** The callable that stores the floats [(g e).1] from [base rid] on and
    returns [(g e).2]: the shape of both callables of [PredictBatch_]. *)
Definition block_func (base : Z → Z) (g : list Entry → list float * Z)
  : PredFunc :=
  λ rid e, write_floats (base rid) (g e).1 >> ret (g e).2.

Lemma block_func_Ok base g rid e h :
  0 ≤ base rid →
  base rid + Z.of_nat (length (g e).1) ≤ Z.of_nat (length (out_pred h)) →
  block_func base g rid e h
  = (Ok (g e).2,
     Heap (inst h) (list_inserts (Z.to_nat (base rid)) (g e).1 (out_pred h))).
Proof.
  intros. unfold block_func. erewrite bind_Ok; [|by apply write_floats_Ok].
  done.
Qed.

Lemma clear_Dense_rule b off h :
  0 ≤ off → 0 ≤ DenseBatch.num_col b →
  off + DenseBatch.num_col b ≤ Z.of_nat (length (inst h)) →
  off + DenseBatch.num_col b ≤ 2 ^ 64 →
  ∃ l, clear_Dense b off h = (Ok tt, Heap l (out_pred h)) ∧
    slice_is off (replicate (Z.to_nat (DenseBatch.num_col b)) (missing (-1)))
      (inst h) l.
Proof.
  intros Hoff Hnc Hlen Hwrap. unfold clear_Dense.
  set (I := λ (j : Z) (s : heap), out_pred s = out_pred h ∧
    slice_is off (replicate (Z.to_nat j) (missing (-1))) (inst h) (inst s)).
  assert (∀ j s, 0 ≤ j < DenseBatch.num_col b → I j s →
    match set_missing (size_t (off + j)) (-1) s with
    | (Ok _, s') => I (j + 1) s'
    | (Fatal _, _) => False
    end) as Hstep.
  { intros j s Hj [Ho [Hl Hp]].
    rewrite size_t_small by lia. rewrite set_missing_Ok by lia.
    split; [done|]. split; simpl; [by rewrite length_insert|].
    intros p. rewrite length_replicate in *.
    destruct (decide (p = Z.to_nat (off + j))) as [->|].
    - rewrite list_lookup_insert_eq by lia. rewrite decide_True by lia.
      by rewrite lookup_replicate_2 by lia.
    - rewrite list_lookup_insert_ne by done. rewrite Hp.
      repeat case_decide; try lia; [|done].
      by rewrite !lookup_replicate_2 by lia. }
  assert (I 0 h) as H0.
  { split; [done|]. split; [done|]. intros p. simpl. case_decide; [lia|done]. }
  pose proof (for_range_rule I (λ _ _, False) 0 (DenseBatch.num_col b)
    _ Hnc Hstep h H0) as H.
  destruct (for_range _ _ _ h) as [[[]|e] [l o]]; [|done].
  destruct H as [Ho Hs]; simpl in *; subst. eauto.
Qed.

(** ** One iteration of a row loop *)

Section row_rule.
Variables (entries : Z → option (list Entry)).
Variables (base : Z → Z) (g : list Entry → list float * Z).
Variables (N : nat) (num_row nthread : Z).

(** The stores of row [rid] fit in the output buffer [out]. *)
Definition fits (rid : Z) (out : list float) : Prop :=
  ∀ es, entries rid = Some es →
    0 ≤ base rid ∧
    base rid + Z.of_nat (length (g es).1) ≤ Z.of_nat (length out).

(** What one iteration does on a clean scratch vector: it is rejected with
    the output untouched, or it makes the stores of the unit and leaves the
    scratch vector clean. *)
Definition row_rule (body : Z → Z → M heap Z) : Prop :=
  ∀ rid tid h,
    0 ≤ rid < num_row → 0 ≤ tid < nthread →
    inst h = replicate N (missing (-1)) → fits rid (out_pred h) →
    match entries rid with
    | None => ∃ h', body rid tid h = (Fatal NaNInMatrix, h') ∧
                    out_pred h' = out_pred h
    | Some es =>
      body rid tid h
      = (Ok (g es).2,
         Heap (inst h)
           (list_inserts (Z.to_nat (base rid)) (g es).1 (out_pred h)))
    end.

(** The row loop without scratch memory and without threads. *)
Fixpoint loop_spec (rows : list Z) (total : Z) (out : list float)
  : result Z * list float :=
  match rows with
  | [] => (Ok total, out)
  | rid :: rest =>
    match entries rid with
    | None => (Fatal NaNInMatrix, out)
    | Some es =>
      loop_spec rest (size_t (total + (g es).2))
        (list_inserts (Z.to_nat (base rid)) (g es).1 out)
    end
  end.

Lemma parallel_for_loop_spec body sched :
  row_rule body →
  Forall (λ p, 0 ≤ p.1 < num_row ∧ 0 ≤ p.2 < nthread) sched →
  ∀ total h,
    inst h = replicate N (missing (-1)) →
    (∀ rid, 0 ≤ rid < num_row → fits rid (out_pred h)) →
    let r := parallel_for sched body total h in
    r.1 = (loop_spec sched.*1 total (out_pred h)).1 ∧
    out_pred r.2 = (loop_spec sched.*1 total (out_pred h)).2 ∧
    (is_Ok r.1 = true → inst r.2 = inst h).
Proof.
  intros Hbody. induction 1 as [|[rid tid] sched [Hrid Htid] _ IH];
    intros total h Hinst Hfits; simpl in *; [done|].
  specialize (Hbody rid tid h Hrid Htid Hinst (Hfits rid Hrid)).
  destruct (entries rid) as [es|].
  - erewrite bind_Ok by done.
    destruct (IH (size_t (total + (g es).2))
      (Heap (inst h)
         (list_inserts (Z.to_nat (base rid)) (g es).1 (out_pred h))))
      as (H1 & H2 & H3); simpl; [done| |by auto].
    intros rid' Hrid' es' Hes'. rewrite length_inserts. by apply Hfits.
  - destruct Hbody as (h' & Hb & Ho). erewrite bind_Fatal by done. done.
Qed.

End row_rule.

Section row_Dense.
Variables (b : DenseBatch.t) (func : PredFunc).
Variables (base : Z → Z) (g : list Entry → list float * Z) (nthread : Z).
Hypothesis Hwf : wf_Dense b = true.
Hypothesis Hwrap : nthread * DenseBatch.num_col b < 2 ^ 64.
Hypothesis Hfunc : ∀ rid e h, func rid e h = block_func base g rid e h.

Lemma row_Dense_rule :
  row_rule (dense_entries b) base g
    (Z.to_nat (nthread * DenseBatch.num_col b)) (DenseBatch.num_row b) nthread
    (row_Dense b (CheckNAN (DenseBatch.missing_value b)) func).
Proof.
  destruct (wf_Dense_inv b Hwf) as (Hnr & Hnc & Hdata & Hw).
  intros rid tid h Hrid Htid Hinst Hfits. unfold row_Dense.
  set (nc := DenseBatch.num_col b) in *.
  assert (0 ≤ nc * tid) by (apply Z.mul_nonneg_nonneg; lia).
  assert (nc * tid + nc ≤ nthread * nc).
  { pose proof (Z.mul_le_mono_nonneg_l (tid + 1) nthread nc); lia. }
  assert (0 ≤ rid * nc) by (apply Z.mul_nonneg_nonneg; lia).
  assert (rid * nc + nc ≤ DenseBatch.num_row b * nc).
  { pose proof (Z.mul_le_mono_nonneg_r (rid + 1) (DenseBatch.num_row b) nc);
      lia. }
  assert (length (inst h) = Z.to_nat (nthread * nc)) as Hlen
    by (by rewrite Hinst, length_replicate).
  rewrite !size_t_small by lia.
  pose proof (fill_Dense_rule b rid (nc * tid) h Hwf Hrid ltac:(lia)
    ltac:(fold nc; lia) ltac:(fold nc; lia)) as Hfill.
  specialize (Hfill ltac:(intros p Hp; rewrite Hinst;
    apply lookup_replicate_2; fold nc in Hp; lia)).
  fold nc in Hfill.
  destruct (fill_Dense b _ (nc * tid) (rid * nc) h) as [[[]|e] h1] eqn:Hrun.
  - destruct Hfill as (Ho & Hl & Hno & Hp).
    assert (dense_entries b rid
            = Some (dense_entry (DenseBatch.missing_value b)
                      <$> dense_row b rid)) as Hes.
    { unfold dense_entries.
      destruct (CheckNAN (DenseBatch.missing_value b)) eqn:Hmv; [done|].
      simpl. destruct (existsb CheckNAN (dense_row b rid)) eqn:Hex; [|done].
      apply existsb_exists in Hex as (x & [j Hj]%list_elem_of_In%list_elem_of_lookup & Hx).
      rewrite (Hno eq_refl j x) in Hx; [done| |done].
      apply lookup_lt_Some in Hj. rewrite dense_row_length in Hj by done.
      fold nc in Hj. lia. }
    rewrite Hes. specialize (Hfits _ Hes) as [Hb1 Hb2].
    set (es := dense_entry _ <$> dense_row b rid) in *.
    assert (length es = Z.to_nat nc) as Hles
      by (unfold es; by rewrite length_fmap, dense_row_length).
    assert (slice_is (nc * tid) es (inst h) (inst h1)) as His.
    { split; [done|]. intros p. rewrite Hp, Hles.
      rewrite Z2Nat.id by done. unfold es.
      by rewrite list_lookup_fmap. }
    erewrite bind_Ok by done.
    erewrite bind_Ok; [|apply (slice_Ok_is _ _ es (inst h)); [lia|lia|done|lia]].
    erewrite bind_Ok;
      [|rewrite Hfunc; apply block_func_Ok; [done|]; by rewrite Ho].
    destruct (clear_Dense_rule b (nc * tid)
      (Heap (inst h1)
         (list_inserts (Z.to_nat (base rid)) (g es).1 (out_pred h1))))
      as (l & Hclear & Hsl); simpl; [lia|done|fold nc; lia..|].
    erewrite bind_Ok by done. simpl in *. unfold ret. rewrite Ho.
    do 2 f_equal. fold nc in Hsl.
    apply (slice_is_replicate (nc * tid) (Z.to_nat nc) (Z.to_nat (nthread * nc)));
      [lia|lia|done|].
    eapply slice_is_overwrite; [|done..]. by rewrite length_replicate.
  - destruct Hfill as (-> & Hmv & Ho & j & x & Hj & Hx).
    assert (dense_entries b rid = None) as ->.
    { unfold dense_entries. rewrite Hmv. simpl.
      assert (existsb CheckNAN (dense_row b rid) = true) as ->; [|done].
      apply existsb_exists. exists x. split; [|done].
      apply list_elem_of_In, list_elem_of_lookup. eauto. }
    erewrite bind_Fatal by done. eauto.
Qed.

End row_Dense.

(** ** Rows of a CSR batch *)

(** Row [rid] of a CSR batch can be read: its two offsets are in
    [row_ptr], and every position between them is in [col_ind] and [data]
    with a column index below [num_col]. *)
Definition csr_row_ok (b : CSRBatch.t) (rid : Z) : bool :=
  match index (CSRBatch.row_ptr b) rid, index (CSRBatch.row_ptr b) (rid + 1) with
  | Some ibegin, Some iend =>
    (0 <=? ibegin)
    && forallb (λ i,
         match index (CSRBatch.col_ind b) i, index (CSRBatch.data b) i with
         | Some c, Some _ => (0 <=? c) && (c <? CSRBatch.num_col b)
         | _, _ => false
         end) (seqZ ibegin (iend - ibegin))
  | _, _ => false
  end.

Definition wf_CSR (b : CSRBatch.t) : bool :=
  (0 <=? CSRBatch.num_row b) && (0 <=? CSRBatch.num_col b)
  && forallb (csr_row_ok b) (seqZ 0 (CSRBatch.num_row b)).

(** The (column, value) pairs listed for row [rid], in the order listed. *)
Definition csr_pairs (b : CSRBatch.t) (rid : Z) : list (Z * float) :=
  match index (CSRBatch.row_ptr b) rid, index (CSRBatch.row_ptr b) (rid + 1) with
  | Some ibegin, Some iend =>
    take (Z.to_nat (iend - ibegin))
      (drop (Z.to_nat ibegin) (zip (CSRBatch.col_ind b) (CSRBatch.data b)))
  | _, _ => []
  end.

(** [n] missing slots with the listed pairs stored in order. *)
Definition csr_fill (n : Z) (pairs : list (Z * float)) : list Entry :=
  foldl (λ es cv, <[Z.to_nat cv.1 := fvalue cv.2]> es)
    (replicate (Z.to_nat n) (missing (-1))) pairs.

(** The slots of the listed columns reset. *)
Definition csr_clear (pairs : list (Z * float)) (es : list Entry)
  : list Entry :=
  foldl (λ es cv, <[Z.to_nat cv.1 := missing (-1)]> es) es pairs.

Definition csr_entries (b : CSRBatch.t) (rid : Z) : option (list Entry) :=
  Some (csr_fill (CSRBatch.num_col b) (csr_pairs b rid)).

Lemma wf_CSR_inv b :
  wf_CSR b = true →
  0 ≤ CSRBatch.num_row b ∧ 0 ≤ CSRBatch.num_col b ∧
  ∀ rid, 0 ≤ rid < CSRBatch.num_row b → csr_row_ok b rid = true.
Proof.
  unfold wf_CSR. rewrite !andb_true_iff, forallb_forall.
  intros [[? ?] Hrows]. repeat split; [lia..|].
  intros rid ?. apply Hrows, list_elem_of_In, elem_of_seqZ. lia.
Qed.

Lemma csr_row_ok_inv b rid :
  csr_row_ok b rid = true →
  ∃ ibegin iend,
    index (CSRBatch.row_ptr b) rid = Some ibegin ∧
    index (CSRBatch.row_ptr b) (rid + 1) = Some iend ∧ 0 ≤ ibegin ∧
    ∀ i, ibegin ≤ i < iend → ∃ c v,
      index (CSRBatch.col_ind b) i = Some c ∧
      index (CSRBatch.data b) i = Some v ∧ 0 ≤ c < CSRBatch.num_col b.
Proof.
  unfold csr_row_ok.
  destruct (index (CSRBatch.row_ptr b) rid) as [ib|]; [|done].
  destruct (index (CSRBatch.row_ptr b) (rid + 1)) as [ie|]; [|done].
  rewrite andb_true_iff, forallb_forall. intros [? Hall].
  exists ib, ie. repeat split; [lia|]. intros i Hi.
  specialize (Hall i). rewrite <-list_elem_of_In, elem_of_seqZ in Hall.
  specialize (Hall ltac:(lia)).
  destruct (index (CSRBatch.col_ind b) i) as [c|]; [|done].
  destruct (index (CSRBatch.data b) i) as [v|]; [|done].
  exists c, v. rewrite andb_true_iff in Hall. repeat split; lia.
Qed.

Section foldl_insert.
Context {A B : Type} (f : B → nat) (v : B → A).

Lemma length_foldl_insert l : ∀ es : list A,
  length (foldl (λ es x, <[f x := v x]> es) es l) = length es.
Proof.
  induction l as [|x l IH]; intros es; simpl; [done|].
  by rewrite IH, length_insert.
Qed.

Lemma lookup_foldl_insert_notin l p : ∀ es : list A,
  p ∉ f <$> l → foldl (λ es x, <[f x := v x]> es) es l !! p = es !! p.
Proof.
  induction l as [|x l IH]; intros es Hp; simpl; [done|].
  rewrite fmap_cons, not_elem_of_cons in Hp. destruct Hp.
  rewrite IH by done. by rewrite list_lookup_insert_ne.
Qed.

Lemma lookup_foldl_insert_in l p a : ∀ es : list A,
  p ∈ f <$> l → (p < length es)%nat → (∀ x, x ∈ l → v x = a) →
  foldl (λ es x, <[f x := v x]> es) es l !! p = Some a.
Proof.
  induction l as [|x l IH]; intros es Hp Hlen Hv; simpl.
  - by apply elem_of_nil in Hp.
  - destruct (decide (p ∈ f <$> l)).
    + apply IH; [done|by rewrite length_insert|].
      intros y ?. apply Hv. by right.
    + rewrite lookup_foldl_insert_notin by done.
      rewrite fmap_cons, elem_of_cons in Hp. destruct Hp as [->|]; [|done].
      rewrite list_lookup_insert_eq by done. f_equal. apply Hv. by left.
Qed.

End foldl_insert.

Lemma length_csr_fill n pairs : length (csr_fill n pairs) = Z.to_nat n.
Proof. unfold csr_fill. by rewrite length_foldl_insert, length_replicate. Qed.

(** Resetting the listed slots of a filled row gives the clean slice. *)
Lemma csr_clear_fill n pairs :
  csr_clear pairs (csr_fill n pairs) = replicate (Z.to_nat n) (missing (-1)).
Proof.
  apply list_eq. intros p. unfold csr_clear.
  destruct (decide (p < Z.to_nat n)%nat) as [Hp|Hp].
  - rewrite lookup_replicate_2 by done.
    destruct (decide (p ∈ (λ cv : Z * float, Z.to_nat cv.1) <$> pairs)).
    + apply lookup_foldl_insert_in; [done|by rewrite length_csr_fill|done].
    + rewrite lookup_foldl_insert_notin by done. unfold csr_fill.
      rewrite lookup_foldl_insert_notin by done.
      by rewrite lookup_replicate_2.
  - rewrite (proj1 (lookup_replicate_None _ _ _)) by lia.
    apply lookup_ge_None. rewrite length_foldl_insert, length_csr_fill. lia.
Qed.

(** A loop over the positions [ibegin .. iend-1] of a row that stores
    [mk (c, v)] in slot [c] of the slice at [off], for the pair [(c, v)] at
    each position. *)
Lemma scatter_rule (mk : Z * float → Entry) body (P : list (Z * float))
    off ibegin iend nc l0 es0 h :
  0 ≤ off → 0 ≤ nc → length es0 = Z.to_nat nc →
  off + nc ≤ Z.of_nat (length l0) →
  (∀ i, ibegin ≤ i < iend → ∃ c v,
     P !! Z.to_nat (i - ibegin) = Some (c, v) ∧ 0 ≤ c < nc ∧
     ∀ s, length (inst s) = length l0 →
       body i s
       = (Ok tt, Heap (<[Z.to_nat (off + c) := mk (c, v)]> (inst s))
                   (out_pred s))) →
  slice_is off es0 l0 (inst h) →
  ∃ l, for_range ibegin iend body h = (Ok tt, Heap l (out_pred h)) ∧
    slice_is off
      (foldl (λ es cv, <[Z.to_nat cv.1 := mk cv]> es) es0
         (take (Z.to_nat (iend - ibegin)) P)) l0 l.
Proof.
  intros Hoff Hnc Hes0 Hlen Hbody His.
  destruct (decide (iend ≤ ibegin)) as [Hle|Hlt].
  { rewrite for_range_empty by done.
    replace (Z.to_nat (iend - ibegin)) with O by lia.
    rewrite take_0. simpl. exists (inst h). by destruct h. }
  set (F := foldl (λ es cv, <[Z.to_nat cv.1 := mk cv]> es) es0).
  set (I := λ (k : Z) (s : heap), out_pred s = out_pred h ∧
    slice_is off (F (take (Z.to_nat (k - ibegin)) P)) l0 (inst s)).
  assert (∀ k s, ibegin ≤ k < iend → I k s →
    match body k s with
    | (Ok _, s') => I (k + 1) s'
    | (Fatal _, _) => False
    end) as Hstep.
  { intros k s Hk [Ho Hs].
    destruct (Hbody k Hk) as (c & v & HP & Hc & Hrun).
    rewrite Hrun by apply Hs. split; [done|]. simpl.
    replace (Z.to_nat (k + 1 - ibegin))
      with (Datatypes.S (Z.to_nat (k - ibegin))) by lia.
    rewrite (take_S_r _ _ _ HP). unfold F. rewrite foldl_snoc. simpl.
    replace (Z.to_nat (off + c)) with (Z.to_nat off + Z.to_nat c)%nat by lia.
    apply slice_is_insert; [done| |done].
    rewrite length_foldl_insert. lia. }
  assert (I ibegin h) as H0.
  { split; [done|]. by rewrite Z.sub_diag. }
  pose proof (for_range_rule I (λ _ _, False) ibegin iend body
    ltac:(lia) Hstep h H0) as H.
  destruct (for_range ibegin iend body h) as [[[]|e] [l o]]; [|done].
  destruct H as [Ho Hs]; simpl in *; subst. eauto.
Qed.

Section row_CSR.
Variables (b : CSRBatch.t) (func : PredFunc).
Variables (base : Z → Z) (g : list Entry → list float * Z) (nthread : Z).
Hypothesis Hwf : wf_CSR b = true.
Hypothesis Hwrap : nthread * CSRBatch.num_col b < 2 ^ 64.
Hypothesis Hfunc : ∀ rid e h, func rid e h = block_func base g rid e h.

Local Abbreviation nc := (CSRBatch.num_col b).
Local Abbreviation P ibegin :=
  (drop (Z.to_nat ibegin) (zip (CSRBatch.col_ind b) (CSRBatch.data b))).

Lemma csr_pair_lookup ibegin i c v :
  0 ≤ ibegin ≤ i →
  index (CSRBatch.col_ind b) i = Some c → index (CSRBatch.data b) i = Some v →
  P ibegin !! Z.to_nat (i - ibegin) = Some (c, v).
Proof.
  intros Hi Hc Hv. rewrite index_nat in Hc by lia.
  rewrite index_nat in Hv by lia.
  rewrite lookup_drop.
  replace (Z.to_nat ibegin + Z.to_nat (i - ibegin))%nat with (Z.to_nat i)
    by lia.
  by apply lookup_zip_Some.
Qed.

Lemma fill_CSR_rule rid ibegin iend off l0 h :
  index (CSRBatch.row_ptr b) rid = Some ibegin →
  index (CSRBatch.row_ptr b) (rid + 1) = Some iend →
  csr_row_ok b rid = true →
  0 ≤ off → 0 ≤ nc → off + nc ≤ Z.of_nat (length l0) → off + nc ≤ 2 ^ 64 →
  slice_is off (replicate (Z.to_nat nc) (missing (-1))) l0 (inst h) →
  ∃ l, fill_CSR b off ibegin iend h = (Ok tt, Heap l (out_pred h)) ∧
    slice_is off (csr_fill nc (csr_pairs b rid)) l0 l.
Proof.
  intros Hib Hie (ib & ie & Hib' & Hie' & ? & Hrow)%csr_row_ok_inv ? ? ? ? His.
  simplify_eq. unfold csr_fill, csr_pairs. rewrite Hib, Hie.
  apply (scatter_rule (λ cv, fvalue cv.2)) with (nc := nc);
    [done|done| |done| |done].
  { by rewrite length_replicate. }
  intros i Hi. destruct (Hrow i Hi) as (c & v & Hc & Hv & ?).
  exists c, v. split; [by apply csr_pair_lookup; [lia|..]|]. split; [done|].
  intros s Hs. erewrite bind_Ok by by apply read_Some.
  erewrite bind_Ok by by apply read_Some.
  rewrite size_t_small by lia. rewrite set_fvalue_Ok by lia. done.
Qed.

Lemma clear_CSR_rule rid ibegin iend off l0 es h :
  index (CSRBatch.row_ptr b) rid = Some ibegin →
  index (CSRBatch.row_ptr b) (rid + 1) = Some iend →
  csr_row_ok b rid = true →
  0 ≤ off → 0 ≤ nc → off + nc ≤ Z.of_nat (length l0) → off + nc ≤ 2 ^ 64 →
  length es = Z.to_nat nc →
  slice_is off es l0 (inst h) →
  ∃ l, clear_CSR b off ibegin iend h = (Ok tt, Heap l (out_pred h)) ∧
    slice_is off (csr_clear (csr_pairs b rid) es) l0 l.
Proof.
  intros Hib Hie (ib & ie & Hib' & Hie' & ? & Hrow)%csr_row_ok_inv
    ? ? ? ? Hes His.
  simplify_eq. unfold csr_clear, csr_pairs. rewrite Hib, Hie.
  apply (scatter_rule (λ _, missing (-1))) with (nc := nc); [done..| |done].
  intros i Hi. destruct (Hrow i Hi) as (c & v & Hc & Hv & ?).
  exists c, v. split; [by apply csr_pair_lookup; [lia|..]|]. split; [done|].
  intros s Hs. erewrite bind_Ok by by apply read_Some.
  rewrite size_t_small by lia. rewrite set_missing_Ok by lia. done.
Qed.

Lemma row_CSR_rule :
  row_rule (csr_entries b) base g
    (Z.to_nat (nthread * nc)) (CSRBatch.num_row b) nthread
    (row_CSR b func).
Proof.
  destruct (wf_CSR_inv b Hwf) as (Hnr & Hnc & Hrows).
  intros rid tid h Hrid Htid Hinst Hfits. unfold row_CSR, csr_entries in *.
  specialize (Hfits _ eq_refl) as [Hb1 Hb2].
  specialize (Hrows rid Hrid) as Hrow.
  destruct (csr_row_ok_inv b rid Hrow) as (ib & ie & Hib & Hie & ? & _).
  assert (0 ≤ nc * tid) by (apply Z.mul_nonneg_nonneg; lia).
  assert (nc * tid + nc ≤ nthread * nc).
  { pose proof (Z.mul_le_mono_nonneg_l (tid + 1) nthread nc); lia. }
  assert (length (inst h) = Z.to_nat (nthread * nc)) as Hlen
    by (by rewrite Hinst, length_replicate).
  rewrite !size_t_small by lia.
  erewrite bind_Ok by by apply read_Some.
  erewrite bind_Ok by by apply read_Some.
  destruct (fill_CSR_rule rid ib ie (nc * tid) (inst h) h)
    as (l1 & Hfill & His1); [done..|lia|lia| |].
  { apply slice_is_refl; [|done]. intros p Hp. rewrite Hinst.
    apply lookup_replicate_2. lia. }
  erewrite bind_Ok by done.
  set (es := csr_fill nc (csr_pairs b rid)) in *.
  assert (length es = Z.to_nat nc) as Hles by apply length_csr_fill.
  erewrite bind_Ok;
    [|apply (slice_Ok_is _ _ es (inst h)); [lia|lia|done|lia]].
  erewrite bind_Ok; [|rewrite Hfunc; by apply block_func_Ok].
  destruct (clear_CSR_rule rid ib ie (nc * tid) (inst h) es
    (Heap l1 (list_inserts (Z.to_nat (base rid)) (g es).1 (out_pred h))))
    as (l2 & Hclear & His2); [done..|lia|lia|done|done|].
  erewrite bind_Ok by done. simpl. unfold ret. do 2 f_equal.
  unfold es in His2. rewrite csr_clear_fill in His2.
  by apply (slice_is_replicate (nc * tid) (Z.to_nat nc)
    (Z.to_nat (nthread * nc))); [lia|lia|..].
Qed.

End row_CSR.

(** ** What the unit is handed *)

(** The part of an iteration of the dense row loop before the unit is
    called: the row is materialised, and the slice is passed on. *)
Definition seen_Dense (d : DenseBatch.t) (rid tid : Z) : M heap (list Entry) :=
  let num_col := DenseBatch.num_col d in
  let off := size_t (num_col * tid) in
  fill_Dense d (CheckNAN (DenseBatch.missing_value d)) off
    (size_t (rid * num_col)) >>
  slice off num_col.

(** The same part of an iteration of the CSR row loop. *)
Definition seen_CSR (c : CSRBatch.t) (rid tid : Z) : M heap (list Entry) :=
  let num_col := CSRBatch.num_col c in
  let off := size_t (num_col * tid) in
  let* ibegin := read (CSRBatch.row_ptr c) rid in
  let* iend := read (CSRBatch.row_ptr c) (rid + 1) in
  fill_CSR c off ibegin iend >>
  slice off num_col.

Lemma bind_assoc {S A B C} (m : M S A) (f : A → M S B) (g : B → M S C) s :
  bind (bind m f) g s = bind m (λ a, bind (f a) g) s.
Proof. unfold bind. by destruct (m s) as [[a|e] s1]. Qed.

Lemma row_Dense_seen d func rid tid h :
  row_Dense d (CheckNAN (DenseBatch.missing_value d)) func rid tid h
  = (let* e := seen_Dense d rid tid in
     let* n := func rid e in
     clear_Dense d (size_t (DenseBatch.num_col d * tid)) >> ret n) h.
Proof. unfold row_Dense, seen_Dense. by rewrite bind_assoc. Qed.

Lemma row_CSR_seen c func rid tid h :
  row_CSR c func rid tid h
  = (let* ibegin := read (CSRBatch.row_ptr c) rid in
     let* iend := read (CSRBatch.row_ptr c) (rid + 1) in
     let* e := seen_CSR c rid tid in
     let* n := func rid e in
     clear_CSR c (size_t (CSRBatch.num_col c * tid)) ibegin iend >> ret n) h.
Proof.
  unfold row_CSR, seen_CSR, bind, read.
  destruct (index (CSRBatch.row_ptr c) rid) as [ib|]; [|done].
  destruct (index (CSRBatch.row_ptr c) (rid + 1)) as [ie|]; [|done].
  simpl. by destruct (fill_CSR c _ ib ie h) as [[[]|?] ?].
Qed.

Lemma seen_Dense_rule d nthread rid tid h :
  wf_Dense d = true → nthread * DenseBatch.num_col d < 2 ^ 64 →
  0 ≤ rid < DenseBatch.num_row d → 0 ≤ tid < nthread →
  inst h = replicate (Z.to_nat (nthread * DenseBatch.num_col d)) (missing (-1)) →
  (seen_Dense d rid tid h).1
  = match dense_entries d rid with
    | Some es => Ok es
    | None => Fatal NaNInMatrix
    end.
Proof.
  intros Hwf Hwrap Hrid Htid Hinst.
  destruct (wf_Dense_inv d Hwf) as (Hnr & Hnc & Hdata & Hw).
  unfold seen_Dense. set (nc := DenseBatch.num_col d) in *.
  assert (0 ≤ nc * tid) by (apply Z.mul_nonneg_nonneg; lia).
  assert (nc * tid + nc ≤ nthread * nc).
  { pose proof (Z.mul_le_mono_nonneg_l (tid + 1) nthread nc); lia. }
  assert (0 ≤ rid * nc) by (apply Z.mul_nonneg_nonneg; lia).
  assert (rid * nc + nc ≤ DenseBatch.num_row d * nc).
  { pose proof (Z.mul_le_mono_nonneg_r (rid + 1) (DenseBatch.num_row d) nc);
      lia. }
  assert (length (inst h) = Z.to_nat (nthread * nc)) as Hlen
    by (by rewrite Hinst, length_replicate).
  rewrite !size_t_small by lia.
  pose proof (fill_Dense_rule d rid (nc * tid) h Hwf Hrid ltac:(lia)
    ltac:(fold nc; lia) ltac:(fold nc; lia)) as Hfill.
  specialize (Hfill ltac:(intros p Hp; rewrite Hinst;
    apply lookup_replicate_2; fold nc in Hp; lia)).
  fold nc in Hfill.
  destruct (fill_Dense d _ (nc * tid) (rid * nc) h) as [[[]|e] h1] eqn:Hrun.
  - destruct Hfill as (Ho & Hl & Hno & Hp).
    rewrite dense_entries_Some.
    + set (es := dense_entry _ <$> dense_row d rid) in *.
      assert (length es = Z.to_nat nc) as Hles
        by (unfold es; by rewrite length_fmap, dense_row_length).
      assert (slice_is (nc * tid) es (inst h) (inst h1)) as His.
      { split; [done|]. intros p. rewrite Hp, Hles.
        rewrite Z2Nat.id by done. unfold es. by rewrite list_lookup_fmap. }
      erewrite bind_Ok by done.
      by rewrite (slice_Ok_is _ _ es (inst h)) by (done || lia).
    + destruct (CheckNAN (DenseBatch.missing_value d)) eqn:Hmv; [by left|right].
      destruct (existsb CheckNAN (dense_row d rid)) eqn:Hex; [|done].
      apply existsb_exists in Hex
        as (x & [j Hj]%list_elem_of_In%list_elem_of_lookup & Hx).
      rewrite (Hno eq_refl j x) in Hx; [done| |done].
      apply lookup_lt_Some in Hj. rewrite dense_row_length in Hj by done.
      fold nc in Hj. lia.
  - destruct Hfill as (-> & Hmv & Ho & j & x & Hj & Hx).
    rewrite dense_entries_None; [by erewrite bind_Fatal by done|done|].
    apply existsb_exists. exists x. split; [|done].
    apply list_elem_of_In, list_elem_of_lookup. eauto.
Qed.

Lemma seen_CSR_rule c nthread rid tid h :
  wf_CSR c = true → nthread * CSRBatch.num_col c < 2 ^ 64 →
  0 ≤ rid < CSRBatch.num_row c → 0 ≤ tid < nthread →
  inst h = replicate (Z.to_nat (nthread * CSRBatch.num_col c)) (missing (-1)) →
  (seen_CSR c rid tid h).1
  = Ok (csr_fill (CSRBatch.num_col c) (csr_pairs c rid)).
Proof.
  intros Hwf Hwrap Hrid Htid Hinst.
  destruct (wf_CSR_inv c Hwf) as (Hnr & Hnc & Hrows).
  specialize (Hrows rid Hrid) as Hrow.
  destruct (csr_row_ok_inv c rid Hrow) as (ib & ie & Hib & Hie & ? & _).
  unfold seen_CSR. set (nc := CSRBatch.num_col c) in *.
  assert (0 ≤ nc * tid) by (apply Z.mul_nonneg_nonneg; lia).
  assert (nc * tid + nc ≤ nthread * nc).
  { pose proof (Z.mul_le_mono_nonneg_l (tid + 1) nthread nc); lia. }
  assert (length (inst h) = Z.to_nat (nthread * nc)) as Hlen
    by (by rewrite Hinst, length_replicate).
  rewrite !size_t_small by lia.
  erewrite bind_Ok by by apply read_Some.
  erewrite bind_Ok by by apply read_Some.
  destruct (fill_CSR_rule c rid ib ie (nc * tid) (inst h) h)
    as (l1 & Hfill & His1); [done..|fold nc; lia|fold nc; lia| |].
  { apply slice_is_refl; [|done]. intros p Hp. rewrite Hinst.
    apply lookup_replicate_2. fold nc in Hp. lia. }
  erewrite bind_Ok by done. fold nc in His1.
  rewrite (slice_Ok_is _ _ (csr_fill nc (csr_pairs c rid)) (inst h));
    [done|lia|by rewrite length_csr_fill; lia|done|lia].
Qed.

(** ** The callables of PredictBatch_ *)

(** Where the stores of row [rid] start. *)
Definition unit_base (num_output_group : Z) : Z → Z :=
  if 1 <? num_output_group then λ rid, size_t (rid * num_output_group)
  else λ rid, rid.

(** The floats stored and the count returned for the entries of a row. *)
Definition unit_result (pred_func : FuncPtr) (pred_margin : bool)
  : list Entry → list float * Z :=
  match pred_func with
  | predict_multiclass_fn f => λ e, f e (Z.b2z pred_margin)
  | predict_fn f => λ e, ([f e (Z.b2z pred_margin)], 1)
  | get_num_output_group_fn _ => λ _, ([], 0)
  end.

(** The unit is of the type [PredictBatch_] calls it with. *)
Definition unit_matches (num_output_group : Z) (pred_func : FuncPtr) : bool :=
  match pred_func with
  | predict_multiclass_fn _ => 1 <? num_output_group
  | predict_fn _ => negb (1 <? num_output_group)
  | get_num_output_group_fn _ => false
  end.

(** The callable [PredictBatch_] hands to [PredLoop]. *)
Definition the_func (pred_func : FuncPtr) (num_output_group : Z)
  (pred_margin : bool) : PredFunc :=
  if 1 <? num_output_group
  then multiclass_func pred_func num_output_group pred_margin
  else single_func pred_func pred_margin.

Lemma the_func_block pf G margin rid e h :
  unit_matches G pf = true →
  the_func pf G margin rid e h
  = block_func (unit_base G) (unit_result pf margin) rid e h.
Proof.
  unfold the_func, unit_matches, unit_base.
  destruct pf as [n|f|f], (1 <? G); try done; intros _.
  unfold single_func, block_func, bind; simpl. unfold bind.
  by destruct (set_out rid _ h) as [[[]|?] ?].
Qed.

Lemma run_PredLoop_the_func `{BatchType B} sched (batch : B) nthread verbose
    margin G pf :
  run_PredLoop sched batch nthread verbose margin G pf
  = PredLoop sched batch nthread verbose (the_func pf G margin).
Proof. unfold run_PredLoop, the_func. by destruct (1 <? G). Qed.

(** ** The row loops as [loop_spec] *)

Definition valid_rows (nthread num_row : Z) (sched : Schedule) : Prop :=
  Forall (λ p, 0 ≤ p.1 < num_row ∧ 0 ≤ p.2 < nthread) sched.

Lemma valid_schedule_rows nthread num_row sched :
  valid_schedule nthread num_row sched → valid_rows nthread num_row sched.
Proof.
  intros [Hperm Htid]. unfold valid_rows. rewrite Forall_forall in *.
  intros [rid tid] Hin. split; [|by apply (Htid (rid, tid))].
  assert (rid ∈ seqZ 0 num_row) as Hr.
  { rewrite <-Hperm. by apply (list_elem_of_fmap_2 fst _ (rid, tid)). }
  apply elem_of_seqZ in Hr. simpl. lia.
Qed.

Lemma PredLoop_Dense_spec sched b nthread verbose func base g h :
  wf_Dense b = true → 0 ≤ nthread →
  nthread * DenseBatch.num_col b < 2 ^ 64 →
  DenseBatch.num_row b ≤ INT64_MAX →
  (∀ rid e h, func rid e h = block_func base g rid e h) →
  valid_rows nthread (DenseBatch.num_row b) sched →
  (∀ rid, 0 ≤ rid < DenseBatch.num_row b →
     fits (dense_entries b) base g rid (out_pred h)) →
  let r := PredLoop_Dense sched b nthread verbose func h in
  let s := loop_spec (dense_entries b) base g sched.*1 0 (out_pred h) in
  r.1 = s.1 ∧ out_pred r.2 = s.2.
Proof.
  intros Hwf Hnt Hwrap Hrows Hfunc Hsched Hfits. unfold PredLoop_Dense.
  destruct (wf_Dense_inv b Hwf) as (? & ? & ? & ?).
  rewrite size_t_small by (split; [apply Z.mul_nonneg_nonneg|]; lia).
  unfold bind at 1. simpl. unfold bind at 1.
  replace (sizeof_size_t <? sizeof_int64_t) with false by done.
  replace (DenseBatch.num_row b <=? INT64_MAX) with true by lia. simpl.
  pose proof (row_Dense_rule b func base g nthread Hwf Hwrap Hfunc) as Hrule.
  destruct (parallel_for_loop_spec _ _ _ _ _ _ _ sched Hrule Hsched 0
    (Heap (replicate (Z.to_nat (nthread * DenseBatch.num_col b)) (missing (-1)))
       (out_pred h)) eq_refl Hfits) as (Hr1 & Hr2 & _).
  done.
Qed.

Lemma PredLoop_CSR_spec sched b nthread verbose func base g h :
  wf_CSR b = true → 0 ≤ nthread →
  nthread * CSRBatch.num_col b < 2 ^ 64 →
  CSRBatch.num_row b ≤ INT64_MAX →
  (∀ rid e h, func rid e h = block_func base g rid e h) →
  valid_rows nthread (CSRBatch.num_row b) sched →
  (∀ rid, 0 ≤ rid < CSRBatch.num_row b →
     fits (csr_entries b) base g rid (out_pred h)) →
  let r := PredLoop_CSR sched b nthread verbose func h in
  let s := loop_spec (csr_entries b) base g sched.*1 0 (out_pred h) in
  r.1 = s.1 ∧ out_pred r.2 = s.2.
Proof.
  intros Hwf Hnt Hwrap Hrows Hfunc Hsched Hfits. unfold PredLoop_CSR.
  destruct (wf_CSR_inv b Hwf) as (? & ? & ?).
  rewrite size_t_small by (split; [apply Z.mul_nonneg_nonneg|]; lia).
  unfold bind at 1. simpl. unfold bind at 1.
  replace (sizeof_size_t <? sizeof_int64_t) with false by done.
  replace (CSRBatch.num_row b <=? INT64_MAX) with true by lia. simpl.
  pose proof (row_CSR_rule b func base g nthread Hwf Hwrap Hfunc) as Hrule.
  destruct (parallel_for_loop_spec _ _ _ _ _ _ _ sched Hrule Hsched 0
    (Heap (replicate (Z.to_nat (nthread * CSRBatch.num_col b)) (missing (-1)))
       (out_pred h)) eq_refl Hfits) as (Hr1 & Hr2 & _).
  done.
Qed.

(** ** Computations on the output buffer alone *)

(** The outcome of [m] and the output buffer it leaves depend on the output
    buffer only. *)
Definition out_only {A} (m : M heap A) : Prop :=
  ∀ h h', out_pred h = out_pred h' →
    (m h).1 = (m h').1 ∧ out_pred (m h).2 = out_pred (m h').2.

Lemma out_only_ret {A} (a : A) : out_only (ret a).
Proof. by intros h h' ?. Qed.

Lemma out_only_fatal {A} e : out_only (fatal (A:=A) e).
Proof. by intros h h' ?. Qed.

Lemma out_only_bind {A B} (m : M heap A) (f : A → M heap B) :
  out_only m → (∀ a, out_only (f a)) → out_only (bind m f).
Proof.
  intros Hm Hf h h' Heq. unfold bind. destruct (Hm h h' Heq) as [H1 H2].
  destruct (m h) as [[a|e] h1], (m h') as [[a'|e'] h1']; simplify_eq/=;
    [by apply Hf|done].
Qed.

Lemma out_only_CHECK b e : out_only (CHECK b e).
Proof. destruct b; [apply out_only_ret|apply out_only_fatal]. Qed.

Lemma out_only_for_count n : ∀ i body,
  (∀ j, out_only (body j)) → out_only (for_count n i body).
Proof.
  induction n as [|n IH]; intros i body Hb; simpl.
  - apply out_only_ret.
  - apply out_only_bind; [done|]. intros _. by apply IH.
Qed.

Lemma out_only_get_out i : out_only (get_out i).
Proof.
  intros h h' Heq. unfold get_out. rewrite Heq.
  by destruct (index (out_pred h') i).
Qed.

Lemma out_only_set_out i x : out_only (set_out i x).
Proof.
  intros h h' Heq. unfold set_out. rewrite Heq.
  by destruct (update (out_pred h') i x).
Qed.

Lemma out_only_reshape_checked n G q : out_only (reshape_checked n G q).
Proof.
  unfold reshape_checked, reshape, for_range.
  repeat first
    [ apply out_only_bind; [|intros ?]
    | apply out_only_CHECK
    | apply out_only_for_count; intros ?
    | apply out_only_get_out
    | apply out_only_set_out
    | apply out_only_fatal
    | apply out_only_ret
    | case_match ].
Qed.

(** What [PredictBatch_] does once the row loop has returned
    [query_result_size]. *)
Definition finish (num_row num_output_group expected_query_result_size
    query_result_size : Z) : M heap Z :=
  (if query_result_size <? expected_query_result_size
   then reshape_checked num_row num_output_group query_result_size
   else ret tt) >>
  ret query_result_size.

Lemma out_only_finish n G expected q : out_only (finish n G expected q).
Proof.
  unfold finish. apply out_only_bind; [|intros; apply out_only_ret].
  case_match; [apply out_only_reshape_checked|apply out_only_ret].
Qed.

Lemma PredictBatch__unfold `{BatchType B} sched max_thread (batch : B) nthread
    verbose margin G pf expected :
  PredictBatch_ sched max_thread batch nthread verbose margin G (Some pf)
    expected
  = (let* q := run_PredLoop sched batch (clamp_nthread nthread max_thread)
                 verbose margin G pf in
     finish (num_row batch) G expected q).
Proof. done. Qed.

(** ** Where an error can come from *)

(** [never e m]: the computation [m] does not stop with the error [e]. *)
Definition never {S A} (e : error) (m : M S A) : Prop :=
  ∀ s, (m s).1 ≠ Fatal e.

Section never.
Context {S : Type} (e : error).

Lemma never_ret {A} (a : A) : never (S:=S) e (ret a).
Proof. by intros s. Qed.

Lemma never_fatal {A} e' : e' ≠ e → never (S:=S) (A:=A) e (fatal e').
Proof. intros ? s. simpl. congruence. Qed.

Lemma never_bind {A B} (m : M S A) (f : A → M S B) :
  never e m → (∀ a, never e (f a)) → never e (bind m f).
Proof.
  intros Hm Hf s. unfold bind. specialize (Hm s).
  destruct (m s) as [[a|e'] s1]; simpl in *; [apply Hf|congruence].
Qed.

Lemma never_CHECK b e' : e' ≠ e → never (S:=S) e (CHECK b e').
Proof. intros. destruct b; [apply never_ret|by apply never_fatal]. Qed.

Lemma never_CHECK_true e' : never (S:=S) e (CHECK true e').
Proof. apply never_ret. Qed.

Lemma never_read {A} (l : list A) i : Undefined ≠ e → never (S:=S) e (read l i).
Proof.
  intros. unfold read. destruct (index l i);
    [apply never_ret|by apply never_fatal].
Qed.

Lemma never_for_count n : ∀ i (body : Z → M S unit),
  (∀ j, never e (body j)) → never e (for_count n i body).
Proof.
  induction n as [|n IH]; intros i body Hb; simpl.
  - apply never_ret.
  - apply never_bind; [done|]. intros _. by apply IH.
Qed.

Lemma never_for_range lo hi (body : Z → M S unit) :
  (∀ j, never e (body j)) → never e (for_range lo hi body).
Proof. apply never_for_count. Qed.

Lemma never_call_multiclass p en m :
  Undefined ≠ e → never (S:=S) e (call_multiclass p en m).
Proof. intros. destruct p; simpl; first [apply never_ret|by apply never_fatal]. Qed.

Lemma never_call_predict p en m :
  Undefined ≠ e → never (S:=S) e (call_predict p en m).
Proof. intros. destruct p; simpl; first [apply never_ret|by apply never_fatal]. Qed.

End never.

Section never_heap.
Variable e : error.
Hypothesis He : Undefined ≠ e.

Lemma never_set_fvalue i v : never e (set_fvalue i v).
Proof. intros h. unfold set_fvalue. destruct (update _ _ _); simpl; congruence. Qed.

Lemma never_set_missing i m : never e (set_missing i m).
Proof. intros h. unfold set_missing. destruct (update _ _ _); simpl; congruence. Qed.

Lemma never_get_out i : never e (get_out i).
Proof. intros h. unfold get_out. destruct (index _ _); simpl; congruence. Qed.

Lemma never_set_out i x : never e (set_out i x).
Proof. intros h. unfold set_out. destruct (update _ _ _); simpl; congruence. Qed.

Lemma never_slice off n : never e (slice off n).
Proof. intros h. unfold slice. case_match; simpl; congruence. Qed.

Lemma never_alloc_inst n : never e (alloc_inst n).
Proof. by intros h. Qed.

Lemma never_write_floats ws : ∀ i, never e (write_floats i ws).
Proof.
  induction ws as [|w ws IH]; intros i; simpl; [apply never_ret|].
  apply never_bind; [apply never_set_out|]. intros _. apply IH.
Qed.

Lemma never_the_func pf G margin rid en : never e (the_func pf G margin rid en).
Proof.
  unfold the_func, multiclass_func, single_func. case_match.
  - apply never_bind; [by apply never_call_multiclass|]. intros r.
    apply never_bind; [apply never_write_floats|]. intros _. apply never_ret.
  - apply never_bind; [by apply never_call_predict|]. intros r.
    apply never_bind; [apply never_set_out|]. intros _. apply never_ret.
Qed.

Lemma never_parallel_for sched : ∀ body total,
  (∀ rid tid, never e (body rid tid)) → never e (parallel_for sched body total).
Proof.
  induction sched as [|[rid tid] sched IH]; intros body total Hb; simpl.
  - apply never_ret.
  - apply never_bind; [done|]. intros n. by apply IH.
Qed.

Lemma never_row_CSR b func rid tid :
  (∀ rid en, never e (func rid en)) → never e (row_CSR b func rid tid).
Proof.
  intros Hf. unfold row_CSR, fill_CSR, clear_CSR.
  repeat first
    [ apply never_bind; [|intros ?]
    | apply never_for_range; intros ?
    | by apply never_read
    | apply never_set_fvalue
    | apply never_set_missing
    | apply never_slice
    | apply Hf
    | apply never_ret ].
Qed.

Lemma never_row_Dense b nan_missing func rid tid :
  NaNInMatrix ≠ e ∨ nan_missing = true →
  (∀ rid en, never e (func rid en)) →
  never e (row_Dense b nan_missing func rid tid).
Proof.
  intros Hn Hf. unfold row_Dense, fill_Dense, clear_Dense.
  repeat first
    [ apply never_bind; [|intros ?]
    | apply never_for_range; intros ?
    | by apply never_read
    | apply never_set_fvalue
    | apply never_set_missing
    | apply never_slice
    | apply Hf
    | apply never_ret
    | case_match ].
  destruct Hn as [?| ->]; [by apply never_CHECK|apply never_CHECK_true].
Qed.

Lemma never_reshape_checked n G q :
  ReshapeGroup ≠ e → ReshapeDivisible ≠ e → ReshapePositive ≠ e →
  ReshapeWidth ≠ e → never e (reshape_checked n G q).
Proof.
  intros. unfold reshape_checked, reshape.
  repeat first
    [ apply never_bind; [|intros ?]
    | apply never_for_range; intros ?
    | by apply never_CHECK
    | by apply never_fatal
    | apply never_get_out
    | apply never_set_out
    | apply never_ret
    | case_match ].
Qed.

Lemma never_finish n G expected q :
  ReshapeGroup ≠ e → ReshapeDivisible ≠ e → ReshapePositive ≠ e →
  ReshapeWidth ≠ e → never e (finish n G expected q).
Proof.
  intros. unfold finish. apply never_bind; [|intros; apply never_ret].
  case_match; [by apply never_reshape_checked|apply never_ret].
Qed.

End never_heap.

(** ** Both kinds of batch at once *)

(** A kind of batch with a well-formedness test, the entries of each row,
    and the proof that its row loop is [loop_spec] on them. *)
Class BatchRows (B : Type) `{BatchType B} : Type := {
  wf_batch : B → bool;
  entries : B → Z → option (list Entry);
  wf_batch_nonneg b : wf_batch b = true → 0 ≤ num_row b ∧ 0 ≤ num_col b;
  PredLoop_spec sched b nthread verbose func base g h :
    wf_batch b = true → 0 ≤ nthread → nthread * num_col b < 2 ^ 64 →
    num_row b ≤ INT64_MAX →
    (∀ rid e h, func rid e h = block_func base g rid e h) →
    valid_rows nthread (num_row b) sched →
    (∀ rid, 0 ≤ rid < num_row b → fits (entries b) base g rid (out_pred h)) →
    let r := PredLoop sched b nthread verbose func h in
    let s := loop_spec (entries b) base g sched.*1 0 (out_pred h) in
    r.1 = s.1 ∧ out_pred r.2 = s.2;
  (** no row of the batch can be rejected for a NaN *)
  accepts_nan : B → bool;
  PredLoop_range sched b nthread verbose func h :
    INT64_MAX < num_row b →
    PredLoop sched b nthread verbose func h
    = (Fatal RowIndexRange,
       Heap (replicate (Z.to_nat (size_t (nthread * num_col b))) (missing (-1)))
         (out_pred h));
  PredLoop_never e sched b nthread verbose func :
    Undefined ≠ e →
    RowIndexRange ≠ e ∨ num_row b ≤ INT64_MAX →
    NaNInMatrix ≠ e ∨ accepts_nan b = true →
    (∀ rid en, never e (func rid en)) →
    never e (PredLoop sched b nthread verbose func);
  PredLoop_scratch sched b nthread verbose func h :
    (∀ rid en, stable same_inst_length (func rid en)) →
    length (inst (PredLoop sched b nthread verbose func h).2)
    = Z.to_nat (size_t (nthread * num_col b));
  (** one iteration of the row loop, and its part before the unit is
      called *)
  row : B → PredFunc → Z → Z → M heap Z;
  seen : B → Z → Z → M heap (list Entry);
  PredLoop_rows sched b nthread verbose func h :
    num_row b ≤ INT64_MAX →
    PredLoop sched b nthread verbose func h
    = parallel_for sched (row b func) 0
        (Heap (replicate (Z.to_nat (size_t (nthread * num_col b)))
                 (missing (-1))) (out_pred h));
  row_rule_law b func base g nthread :
    wf_batch b = true → nthread * num_col b < 2 ^ 64 →
    (∀ rid e h, func rid e h = block_func base g rid e h) →
    row_rule (entries b) base g (Z.to_nat (nthread * num_col b)) (num_row b)
      nthread (row b func);
  seen_rule_law b nthread rid tid h :
    wf_batch b = true → nthread * num_col b < 2 ^ 64 →
    0 ≤ rid < num_row b → 0 ≤ tid < nthread →
    inst h = replicate (Z.to_nat (nthread * num_col b)) (missing (-1)) →
    (seen b rid tid h).1
    = match entries b rid with
      | Some es => Ok es
      | None => Fatal NaNInMatrix
      end
}.

Lemma PredLoop_Dense_range sched b nthread verbose func h :
  INT64_MAX < DenseBatch.num_row b →
  PredLoop_Dense sched b nthread verbose func h
  = (Fatal RowIndexRange,
     Heap (replicate (Z.to_nat (size_t (nthread * DenseBatch.num_col b)))
             (missing (-1))) (out_pred h)).
Proof.
  intros Hn. unfold PredLoop_Dense, bind; simpl.
  replace (sizeof_size_t <? sizeof_int64_t) with false by done.
  by replace (DenseBatch.num_row b <=? INT64_MAX) with false by lia.
Qed.

Lemma PredLoop_CSR_range sched b nthread verbose func h :
  INT64_MAX < CSRBatch.num_row b →
  PredLoop_CSR sched b nthread verbose func h
  = (Fatal RowIndexRange,
     Heap (replicate (Z.to_nat (size_t (nthread * CSRBatch.num_col b)))
             (missing (-1))) (out_pred h)).
Proof.
  intros Hn. unfold PredLoop_CSR, bind; simpl.
  replace (sizeof_size_t <? sizeof_int64_t) with false by done.
  by replace (CSRBatch.num_row b <=? INT64_MAX) with false by lia.
Qed.

Lemma never_row_index_check e n :
  RowIndexRange ≠ e ∨ n ≤ INT64_MAX →
  never (S:=heap) e
    (CHECK ((sizeof_size_t <? sizeof_int64_t) || (n <=? INT64_MAX))
       RowIndexRange).
Proof.
  intros [?|?]; [by apply never_CHECK|].
  replace (n <=? INT64_MAX) with true by lia.
  rewrite orb_true_r. apply never_CHECK_true.
Qed.

Lemma PredLoop_Dense_never e sched b nthread verbose func :
  Undefined ≠ e →
  RowIndexRange ≠ e ∨ DenseBatch.num_row b ≤ INT64_MAX →
  NaNInMatrix ≠ e ∨ CheckNAN (DenseBatch.missing_value b) = true →
  (∀ rid en, never e (func rid en)) →
  never e (PredLoop_Dense sched b nthread verbose func).
Proof.
  intros He Hr Hn Hf. unfold PredLoop_Dense.
  apply never_bind; [by apply never_alloc_inst|intros _].
  apply never_bind; [by apply never_row_index_check|intros _].
  apply never_parallel_for. intros. by apply never_row_Dense.
Qed.

Lemma PredLoop_CSR_never e sched b nthread verbose func :
  Undefined ≠ e →
  RowIndexRange ≠ e ∨ CSRBatch.num_row b ≤ INT64_MAX →
  (∀ rid en, never e (func rid en)) →
  never e (PredLoop_CSR sched b nthread verbose func).
Proof.
  intros He Hr Hf. unfold PredLoop_CSR.
  apply never_bind; [by apply never_alloc_inst|intros _].
  apply never_bind; [by apply never_row_index_check|intros _].
  apply never_parallel_for. intros. by apply never_row_CSR.
Qed.

Lemma stable_row_Dense b nan_missing func rid tid :
  (∀ rid en, stable same_inst_length (func rid en)) →
  stable same_inst_length (row_Dense b nan_missing func rid tid).
Proof.
  intros Hf. unfold row_Dense, fill_Dense, clear_Dense.
  repeat first
    [ apply (stable_bind same_inst_length); [|intros ?]
    | apply (stable_for_range same_inst_length); intros ?
    | apply (stable_read same_inst_length)
    | apply (stable_CHECK same_inst_length)
    | apply stable_set_fvalue_length
    | apply stable_set_missing_length
    | apply (stable_slice same_inst_length)
    | apply Hf
    | apply (stable_ret same_inst_length)
    | case_match ].
Qed.

Lemma stable_row_CSR b func rid tid :
  (∀ rid en, stable same_inst_length (func rid en)) →
  stable same_inst_length (row_CSR b func rid tid).
Proof.
  intros Hf. unfold row_CSR, fill_CSR, clear_CSR.
  repeat first
    [ apply (stable_bind same_inst_length); [|intros ?]
    | apply (stable_for_range same_inst_length); intros ?
    | apply (stable_read same_inst_length)
    | apply stable_set_fvalue_length
    | apply stable_set_missing_length
    | apply (stable_slice same_inst_length)
    | apply Hf
    | apply (stable_ret same_inst_length) ].
Qed.

(** The scratch vector keeps the size it is created with. *)
Lemma scratch_length n (m : M heap Z) h :
  stable same_inst_length m →
  length (inst (bind (alloc_inst n) (λ _, m) h).2) = Z.to_nat n.
Proof.
  intros Hm. unfold bind; simpl. rewrite Hm. simpl.
  by rewrite length_replicate.
Qed.

Lemma PredLoop_Dense_scratch sched b nthread verbose func h :
  (∀ rid en, stable same_inst_length (func rid en)) →
  length (inst (PredLoop_Dense sched b nthread verbose func h).2)
  = Z.to_nat (size_t (nthread * DenseBatch.num_col b)).
Proof.
  intros Hf. unfold PredLoop_Dense. apply scratch_length.
  apply (stable_bind same_inst_length);
    [apply (stable_CHECK same_inst_length)|intros _].
  apply (stable_parallel_for same_inst_length). intros.
  by apply stable_row_Dense.
Qed.

Lemma PredLoop_CSR_scratch sched b nthread verbose func h :
  (∀ rid en, stable same_inst_length (func rid en)) →
  length (inst (PredLoop_CSR sched b nthread verbose func h).2)
  = Z.to_nat (size_t (nthread * CSRBatch.num_col b)).
Proof.
  intros Hf. unfold PredLoop_CSR. apply scratch_length.
  apply (stable_bind same_inst_length);
    [apply (stable_CHECK same_inst_length)|intros _].
  apply (stable_parallel_for same_inst_length). intros.
  by apply stable_row_CSR.
Qed.

#[global, refine] Instance DenseBatch_rows : BatchRows DenseBatch.t := {|
  wf_batch := wf_Dense;
  entries := dense_entries;
  accepts_nan b := CheckNAN (DenseBatch.missing_value b);
  row b := row_Dense b (CheckNAN (DenseBatch.missing_value b));
  seen := seen_Dense
|}.
Proof.
  - intros b (? & ? & ? & ?)%wf_Dense_inv. done.
  - apply PredLoop_Dense_spec.
  - apply PredLoop_Dense_range.
  - apply PredLoop_Dense_never.
  - apply PredLoop_Dense_scratch.
  - intros sched b nthread verbose func h Hn.
    unfold PredLoop, DenseBatch_type, PredLoop_Dense, bind; simpl.
    replace (sizeof_size_t <? sizeof_int64_t) with false by done.
    by replace (DenseBatch.num_row b <=? INT64_MAX) with true by (simpl in Hn; lia).
  - intros. by apply row_Dense_rule.
  - apply seen_Dense_rule.
Defined.

#[global, refine] Instance CSRBatch_rows : BatchRows CSRBatch.t := {|
  wf_batch := wf_CSR;
  entries := csr_entries;
  accepts_nan b := true;
  row := row_CSR;
  seen := seen_CSR
|}.
Proof.
  - intros b (? & ? & ?)%wf_CSR_inv. done.
  - apply PredLoop_CSR_spec.
  - apply PredLoop_CSR_range.
  - intros. by apply PredLoop_CSR_never.
  - apply PredLoop_CSR_scratch.
  - intros sched b nthread verbose func h Hn.
    unfold PredLoop, CSRBatch_type, PredLoop_CSR, bind; simpl.
    replace (sizeof_size_t <? sizeof_int64_t) with false by done.
    by replace (CSRBatch.num_row b <=? INT64_MAX) with true by (simpl in Hn; lia).
  - intros. by apply row_CSR_rule.
  - apply seen_CSR_rule.
Defined.

(** ** A whole prediction call *)

Section run.
Context `{BatchRows B}.
Variables (b : B) (G : Z) (pf : FuncPtr) (margin : bool).

(** The unit stores at most [num_output_group] floats for a row (one float
    when it is single-output). *)
Definition unit_bounded : Prop :=
  ∀ e, Z.of_nat (length (unit_result pf margin e).1) ≤ Z.max 1 G.

(** The conditions under which a call stays within its arrays: a
    well-formed batch, a unit of the right type that stays within its row of
    the output, a schedule on a team of [nt] threads, and an output buffer
    of [num_row * max(1, num_output_group)] floats or more. *)
Record run_ok (nt : Z) (sched : Schedule) (out : list float) : Prop := {
  ok_wf : wf_batch b = true;
  ok_nthread : 0 ≤ nt;
  ok_scratch : nt * num_col b < 2 ^ 64;
  ok_rows : num_row b ≤ INT64_MAX;
  ok_unit : unit_matches G pf = true;
  ok_bounded : unit_bounded;
  ok_sched : valid_schedule nt (num_row b) sched;
  ok_out : num_row b * Z.max 1 G ≤ Z.of_nat (length out);
  ok_wrap : num_row b * Z.max 1 G < 2 ^ 64
}.

Lemma unit_base_small rid :
  unit_matches G pf = true → num_row b * Z.max 1 G < 2 ^ 64 →
  0 ≤ rid < num_row b →
  unit_base G rid = rid * Z.max 1 G.
Proof.
  intros Hm Hw Hrid. unfold unit_base. destruct (1 <? G) eqn:HG.
  - rewrite Z.max_r in * by lia. apply size_t_small. nia.
  - rewrite Z.max_l by lia. lia.
Qed.

Lemma fits_all out :
  unit_matches G pf = true → unit_bounded →
  num_row b * Z.max 1 G ≤ Z.of_nat (length out) →
  num_row b * Z.max 1 G < 2 ^ 64 →
  ∀ rid, 0 ≤ rid < num_row b →
    fits (entries b) (unit_base G) (unit_result pf margin) rid out.
Proof.
  intros Hm Hb Ho Hw rid Hrid es _. rewrite unit_base_small by done.
  specialize (Hb es). nia.
Qed.

(** The call without scratch memory and without threads: the row loop on
    the rows in the order of the schedule, then the re-shaping. *)
Definition PredictBatch_spec (expected : Z) (rows : list Z)
  (out : list float) : result Z * list float :=
  match loop_spec (entries b) (unit_base G) (unit_result pf margin) rows 0 out
  with
  | (Ok q, out1) => run (finish (num_row b) G expected q) out1
  | (Fatal e, out1) => (Fatal e, out1)
  end.

Lemma PredictBatch__run sched max_thread nthread verbose expected out :
  run_ok (clamp_nthread nthread max_thread) sched out →
  run (PredictBatch_ sched max_thread b nthread verbose margin G (Some pf)
         expected) out
  = PredictBatch_spec expected sched.*1 out.
Proof.
  intros [].
  rewrite PredictBatch__unfold, run_PredLoop_the_func.
  unfold run, PredictBatch_spec.
  destruct (PredLoop_spec sched b (clamp_nthread nthread max_thread) verbose
    (the_func pf G margin) (unit_base G) (unit_result pf margin)
    (Heap [] out)) as [H1 H2];
    [done..| |by apply valid_schedule_rows| |].
  { intros. by apply the_func_block. }
  { by apply fits_all. }
  simpl in *. unfold bind.
  destruct (PredLoop _ _ _ _ _ _) as [r h1]; simpl in *.
  destruct (loop_spec _ _ _ _ _ _) as [r' out1]; simpl in *. subst.
  destruct r' as [q|e]; [|done].
  destruct (out_only_finish (num_row b) G expected q h1 (Heap [] (out_pred h1))
    eq_refl) as [-> ->].
  done.
Qed.

End run.

(** ** The order of the rows does not matter *)

Lemma list_inserts_commute {A} (i1 i2 : nat) (k1 k2 l : list A) :
  (i1 + length k1 ≤ i2 ∨ i2 + length k2 ≤ i1)%nat →
  list_inserts i1 k1 (list_inserts i2 k2 l)
  = list_inserts i2 k2 (list_inserts i1 k1 l).
Proof.
  intros Hd. apply list_eq. intros j.
  destruct (decide (j < length l)%nat) as [Hj|Hj].
  - destruct (decide (i1 ≤ j < i1 + length k1)%nat).
    + rewrite list_lookup_inserts by (rewrite ?length_inserts; lia).
      destruct (decide (j < i2)%nat).
      * rewrite list_lookup_inserts_lt by lia.
        by rewrite list_lookup_inserts by lia.
      * rewrite list_lookup_inserts_ge by lia.
        by rewrite list_lookup_inserts by lia.
    + assert (list_inserts i1 k1 (list_inserts i2 k2 l) !! j
              = list_inserts i2 k2 l !! j) as ->.
      { destruct (decide (j < i1)%nat);
          [by rewrite list_lookup_inserts_lt by lia
          |by rewrite list_lookup_inserts_ge by lia]. }
      destruct (decide (i2 ≤ j < i2 + length k2)%nat).
      * rewrite !list_lookup_inserts by (rewrite ?length_inserts; lia). done.
      * destruct (decide (j < i2)%nat).
        -- rewrite !list_lookup_inserts_lt by lia.
           destruct (decide (j < i1)%nat);
             [by rewrite list_lookup_inserts_lt by lia
             |by rewrite list_lookup_inserts_ge by lia].
        -- rewrite !list_lookup_inserts_ge by lia.
           destruct (decide (j < i1)%nat);
             [by rewrite list_lookup_inserts_lt by lia
             |by rewrite list_lookup_inserts_ge by lia].
  - rewrite !(proj2 (lookup_ge_None _ _)); [done|..];
      rewrite !length_inserts; lia.
Qed.

(** Two outcomes agree: the same result, and the same output buffer when
    the result is not an error. *)
Definition agree (r1 r2 : result Z * list float) : Prop :=
  r1.1 = r2.1 ∧ (is_Ok r1.1 = true → r1.2 = r2.2).

Lemma agree_refl r : agree r r.
Proof. done. Qed.

Lemma agree_trans r1 r2 r3 : agree r1 r2 → agree r2 r3 → agree r1 r3.
Proof.
  intros [H1 H1'] [H2 H2']. split; [congruence|].
  intros Hok. rewrite H1'; [|done]. apply H2'. congruence.
Qed.

Section loop_perm.
Variables (entries : Z → option (list Entry)).
Variables (base : Z → Z) (g : list Entry → list float * Z).
Variable in_range : Z → Prop.

(** The stores of two different rows do not overlap. *)
Hypothesis Hdisjoint : ∀ rid rid' es es',
  in_range rid → in_range rid' → rid ≠ rid' →
  entries rid = Some es → entries rid' = Some es' →
  0 ≤ base rid ∧ 0 ≤ base rid' ∧
  (base rid + Z.of_nat (length (g es).1) ≤ base rid' ∨
   base rid' + Z.of_nat (length (g es').1) ≤ base rid).

Lemma loop_spec_perm rows1 rows2 :
  rows1 ≡ₚ rows2 → NoDup rows1 → Forall in_range rows1 →
  ∀ total out,
    agree (loop_spec entries base g rows1 total out)
          (loop_spec entries base g rows2 total out).
Proof.
  induction 1 as [|x l1 l2 Hp IH|x y l|l1 l2 l3 Hp1 IH1 Hp2 IH2];
    intros Hnd Hin total out.
  - apply agree_refl.
  - simpl. apply NoDup_cons in Hnd as [_ Hnd].
    apply Forall_cons in Hin as [_ Hin].
    destruct (entries x); [by apply IH|apply agree_refl].
  - simpl. apply NoDup_cons in Hnd as [Hy Hnd].
    apply not_elem_of_cons in Hy as [Hxy _].
    apply Forall_cons in Hin as [Hiny Hin].
    apply Forall_cons in Hin as [Hinx Hin].
    destruct (entries y) as [ey|] eqn:Hey, (entries x) as [ex|] eqn:Hex;
      try apply agree_refl.
    + destruct (Hdisjoint y x ey ex) as (? & ? & ?); [done..|].
      rewrite size_t_add_comm.
      rewrite list_inserts_commute by lia. apply agree_refl.
    + by split.
    + by split.
  - eapply agree_trans; [by apply IH1|].
    apply IH2; [by rewrite <-Hp1|by rewrite <-Hp1].
Qed.

End loop_perm.

(** ** Facts about schedules and [loop_spec] *)

Lemma sequential_rows n : (sequential n).*1 = seqZ 0 n.
Proof.
  unfold sequential. rewrite <-list_fmap_compose.
  rewrite <-(list_fmap_id (seqZ 0 n)) at 2. by apply list_fmap_ext.
Qed.

Lemma sequential_valid nthread n :
  0 < nthread → valid_schedule nthread n (sequential n).
Proof.
  intros. split; [by rewrite sequential_rows|].
  unfold sequential. apply Forall_fmap, Forall_forall. intros rid _. simpl. lia.
Qed.

Section loop_spec_facts.
Variables (entries : Z → option (list Entry)).
Variables (base : Z → Z) (g : list Entry → list float * Z).

(** A rejected row among the rows makes the loop fail. *)
Lemma loop_spec_None rows rid : ∀ total out,
  rid ∈ rows → entries rid = None →
  (loop_spec entries base g rows total out).1 = Fatal NaNInMatrix.
Proof.
  induction rows as [|r rows IH]; intros total out Hin Hrid; simpl.
  - by apply elem_of_nil in Hin.
  - destruct (entries r) as [es|] eqn:Hr; [|done].
    apply IH; [|done]. apply elem_of_cons in Hin as [->|]; [congruence|done].
Qed.

(** The loop stops at the first rejected row, with the stores of the rows
    before it made. *)
Lemma loop_spec_app_None rows1 rid rows2 : ∀ total out,
  Forall (λ rid, is_Some (entries rid)) rows1 → entries rid = None →
  loop_spec entries base g (rows1 ++ rid :: rows2) total out
  = (Fatal NaNInMatrix, (loop_spec entries base g rows1 total out).2).
Proof.
  induction rows1 as [|r rows1 IH]; intros total out Hall Hrid; simpl.
  - by rewrite Hrid.
  - apply Forall_cons in Hall as [[es ->] Hall]. by apply IH.
Qed.

(** With one value per row the total is the number of rows. *)
Lemma loop_spec_count rows : ∀ total out,
  Forall (λ rid, is_Some (entries rid)) rows →
  (∀ e, (g e).2 = 1) →
  0 ≤ total → total + Z.of_nat (length rows) < 2 ^ 64 →
  (loop_spec entries base g rows total out).1
  = Ok (total + Z.of_nat (length rows)).
Proof.
  induction rows as [|r rows IH]; intros total out Hall Hg Ht Hlen; simpl in *.
  - f_equal. lia.
  - apply Forall_cons in Hall as [[es ->] Hall]. rewrite Hg.
    rewrite size_t_small by lia. rewrite IH by (done || lia). f_equal. lia.
Qed.

End loop_spec_facts.

Lemma stable_the_func pf G margin rid en :
  stable same_inst_length (the_func pf G margin rid en).
Proof.
  unfold the_func. case_match.
  - apply stable_multiclass_func; [apply _|]. apply stable_set_out_length.
  - apply stable_single_func; [apply _|]. apply stable_set_out_length.
Qed.

Lemma stable_finish n G expected q :
  stable same_inst_length (finish n G expected q).
Proof.
  unfold finish. apply (stable_bind same_inst_length);
    [|intros; apply (stable_ret same_inst_length)].
  case_match; [|apply (stable_ret same_inst_length)].
  apply stable_reshape_checked; [apply _|]. apply stable_set_out_length.
Qed.

(** ** Sample inputs *)

Module Sample.

Definition fl (n : positive) : float := S754_finite false n 0.

(** Three rows of one column, NaN for missing. *)
Definition dense3 : DenseBatch.t :=
  DenseBatch.Build [fl 1; fl 2; fl 3] S754_nan 3 1.

(** Two rows of one column with the sentinel 5; the second row is NaN. *)
Definition dense_nan : DenseBatch.t :=
  DenseBatch.Build [fl 1; S754_nan] (fl 5) 2 1.

(** Two rows of two columns with the sentinel 5: the first row holds the
    sentinel, the second a NaN. *)
Definition dense_policy : DenseBatch.t :=
  DenseBatch.Build [fl 1; fl 5; S754_nan; fl 2] (fl 5) 2 2.

(** Two rows of three columns: columns 0 and 2, then column 1. *)
Definition csr2 : CSRBatch.t :=
  CSRBatch.Build [fl 1; fl 2; fl 3] [0; 2; 1] [0; 2; 3] 2 3.

(** A multi-class unit that stores two floats and returns 2. *)
Definition two_values : predict_multiclass_t :=
  λ e _, (match e with
          | fvalue v :: _ => [v; fl 7]
          | _ => [fl 8; fl 9]
          end, 2).

(** A multi-class unit that stores two floats and returns 5. *)
Definition over_count : predict_multiclass_t :=
  λ e _, ([fl 1; fl 2], 5).

(** A single-output unit: the first feature, or 9 when it is missing. *)
Definition first_feature : predict_t :=
  λ e _, match e with
         | fvalue v :: _ => v
         | _ => fl 9
         end.

(** An image with four output groups and [two_values]. *)
Definition lib4 : Library :=
  λ name, if String.eqb name "get_num_output_group"
          then Some (get_num_output_group_fn 4)
          else if String.eqb name "predict_multiclass"
          then Some (predict_multiclass_fn two_values)
          else None.

(** An image with one output group and [first_feature]. *)
Definition lib1 : Library :=
  λ name, if String.eqb name "get_num_output_group"
          then Some (get_num_output_group_fn 1)
          else if String.eqb name "predict"
          then Some (predict_fn first_feature)
          else None.

Definition dlopen : string → option Library :=
  λ name, if String.eqb name "lib4.so" then Some lib4
          else if String.eqb name "lib1.so" then Some lib1
          else None.

(** A predictor with [lib4] loaded, and one with [lib1]. *)
Definition loaded4 : Predictor := (Load dlopen "lib4.so" (Predictor_new 0)).2.
Definition loaded1 : Predictor := (Load dlopen "lib1.so" (Predictor_new 0)).2.

End Sample.

(** ** Facts for the claims *)

(** Closed comparisons of integers, by evaluation. *)
Ltac by_compute :=
  vm_compute; repeat split; first [reflexivity | discriminate].

Section csr_fill_facts.
Variables (n : Z) (pairs : list (Z * float)).
Hypothesis Hcols : Forall (λ cv : Z * float, 0 ≤ cv.1 < n) pairs.

Lemma csr_col_to_nat col :
  0 ≤ col →
  Z.to_nat col ∈ (λ cv : Z * float, Z.to_nat cv.1) <$> pairs → col ∈ pairs.*1.
Proof.
  intros Hc ([c v] & Heq & Hin)%list_elem_of_fmap. simpl in *.
  rewrite Forall_forall in Hcols. specialize (Hcols _ Hin). simpl in *.
  replace col with c by lia. by apply (list_elem_of_fmap_2 fst _ (c, v)).
Qed.

(** A column that is not listed keeps the missing marker. *)
Lemma csr_fill_unlisted col :
  0 ≤ col < n → col ∉ pairs.*1 →
  csr_fill n pairs !! Z.to_nat col = Some (missing (-1)).
Proof.
  intros Hc Hnot. unfold csr_fill. rewrite lookup_foldl_insert_notin.
  - apply lookup_replicate_2. lia.
  - intros Hin. apply Hnot, csr_col_to_nat; [lia|done].
Qed.

End csr_fill_facts.

(** A listed column holds the value listed last for it. *)
Lemma csr_fill_listed n l1 col v l2 :
  Forall (λ cv : Z * float, 0 ≤ cv.1 < n) (l1 ++ (col, v) :: l2) →
  col ∉ l2.*1 →
  csr_fill n (l1 ++ (col, v) :: l2) !! Z.to_nat col = Some (fvalue v).
Proof.
  intros Hall Hnot.
  apply Forall_app in Hall as [_ Hall].
  apply Forall_cons in Hall as [Hc Hall]. simpl in Hc.
  unfold csr_fill. rewrite foldl_app. simpl.
  rewrite lookup_foldl_insert_notin.
  - apply list_lookup_insert_eq.
    rewrite length_foldl_insert, length_replicate. lia.
  - intros Hin. apply Hnot. eapply csr_col_to_nat; [done|lia|done].
Qed.

(** Every listed column is present, with a value listed for it. *)
Lemma csr_fill_present n pairs col :
  Forall (λ cv : Z * float, 0 ≤ cv.1 < n) pairs →
  col ∈ pairs.*1 →
  ∃ v, (col, v) ∈ pairs ∧
       csr_fill n pairs !! Z.to_nat col = Some (fvalue v).
Proof.
  intros Hall (k1 & k2 & Heq & Hnot)%list_elem_of_split_r.
  apply fmap_app_inv in Heq as (l1 & l2' & -> & Hl2 & ->).
  symmetry in Hl2. apply fmap_cons_inv in Hl2 as ([c v] & l2 & Hc & -> & ->).
  simpl in Hc. subst c. exists v. split.
  - apply elem_of_app. right. by left.
  - by apply csr_fill_listed.
Qed.

Section csr_pairs_facts.
Variables (c : CSRBatch.t) (rid ibegin iend : Z).
Hypothesis Hib : index (CSRBatch.row_ptr c) rid = Some ibegin.
Hypothesis Hie : index (CSRBatch.row_ptr c) (rid + 1) = Some iend.
Hypothesis Hrow : csr_row_ok c rid = true.

Lemma csr_row_ok_ibegin : 0 ≤ ibegin.
Proof.
  destruct (csr_row_ok_inv c rid Hrow) as (ib & ie & ? & ? & ? & _).
  by simplify_eq.
Qed.

Lemma csr_row_ok_col i col :
  ibegin ≤ i < iend → index (CSRBatch.col_ind c) i = Some col →
  0 ≤ col < CSRBatch.num_col c ∧ is_Some (index (CSRBatch.data c) i).
Proof.
  intros Hi Hcol.
  destruct (csr_row_ok_inv c rid Hrow) as (ib & ie & ? & ? & ? & Hall).
  simplify_eq. destruct (Hall i Hi) as (col' & v & ? & ? & ?).
  simplify_eq. eauto.
Qed.

Lemma csr_pairs_lookup (k : nat) col v :
  csr_pairs c rid !! k = Some (col, v) ↔
  Z.of_nat k < iend - ibegin ∧
  index (CSRBatch.col_ind c) (ibegin + Z.of_nat k) = Some col ∧
  index (CSRBatch.data c) (ibegin + Z.of_nat k) = Some v.
Proof.
  pose proof csr_row_ok_ibegin.
  unfold csr_pairs. rewrite Hib, Hie.
  rewrite lookup_take_Some, lookup_drop, lookup_zip_Some.
  rewrite !index_nat by lia.
  replace (Z.to_nat (ibegin + Z.of_nat k)) with (Z.to_nat ibegin + k)%nat
    by lia.
  split; [intros [[? ?] ?]|intros (? & ? & ?)]; repeat split; (done || lia).
Qed.

Lemma csr_pairs_cols :
  Forall (λ cv : Z * float, 0 ≤ cv.1 < CSRBatch.num_col c) (csr_pairs c rid).
Proof.
  apply Forall_lookup. intros k [col v] (Hk & Hcol & _)%csr_pairs_lookup.
  simpl. by apply (csr_row_ok_col (ibegin + Z.of_nat k)); [lia|].
Qed.

Lemma csr_pairs_listed col :
  col ∈ (csr_pairs c rid).*1 ↔
  ∃ i, ibegin ≤ i < iend ∧ index (CSRBatch.col_ind c) i = Some col.
Proof.
  split.
  - intros ([col' v] & -> & [k Hk]%list_elem_of_lookup)%list_elem_of_fmap.
    apply csr_pairs_lookup in Hk as (Hk & Hcol & _).
    exists (ibegin + Z.of_nat k). split; [lia|done].
  - intros (i & Hi & Hcol).
    destruct (csr_row_ok_col i col Hi Hcol) as [_ [v Hv]].
    apply (list_elem_of_fmap_2 fst _ (col, v)).
    apply list_elem_of_lookup. exists (Z.to_nat (i - ibegin)).
    apply csr_pairs_lookup.
    replace (ibegin + Z.of_nat (Z.to_nat (i - ibegin))) with i by lia.
    repeat split; (done || lia).
Qed.

End csr_pairs_facts.

Lemma dense_elem_row d rid j x :
  wf_Dense d = true → 0 ≤ rid < DenseBatch.num_row d →
  0 ≤ j < DenseBatch.num_col d →
  index (DenseBatch.data d) (rid * DenseBatch.num_col d + j) = Some x ↔
  dense_row d rid !! Z.to_nat j = Some x.
Proof.
  intros Hwf Hrid Hj.
  destruct (dense_row_lookup d rid (Z.to_nat j) Hwf Hrid ltac:(lia)) as [-> _].
  rewrite Z2Nat.id by lia. rewrite index_nat; [done|].
  destruct (wf_Dense_inv d Hwf) as (? & ? & _). nia.
Qed.

Lemma dense_row_has_NaN d rid j x :
  wf_Dense d = true → 0 ≤ rid < DenseBatch.num_row d →
  0 ≤ j < DenseBatch.num_col d →
  index (DenseBatch.data d) (rid * DenseBatch.num_col d + j) = Some x →
  CheckNAN x = true →
  existsb CheckNAN (dense_row d rid) = true.
Proof.
  intros Hwf Hrid Hj Hx Hnan. apply existsb_exists. exists x. split; [|done].
  apply list_elem_of_In, list_elem_of_lookup. exists (Z.to_nat j).
  by apply dense_elem_row.
Qed.

Lemma dense_row_no_NaN d rid :
  wf_Dense d = true → 0 ≤ rid < DenseBatch.num_row d →
  (∀ j x, 0 ≤ j < DenseBatch.num_col d →
     index (DenseBatch.data d) (rid * DenseBatch.num_col d + j) = Some x →
     CheckNAN x = false) →
  existsb CheckNAN (dense_row d rid) = false.
Proof.
  intros Hwf Hrid Hall.
  destruct (existsb CheckNAN (dense_row d rid)) eqn:Hex; [|done].
  apply existsb_exists in Hex
    as (x & [j Hj]%list_elem_of_In%list_elem_of_lookup & Hx).
  pose proof (lookup_lt_Some _ _ _ Hj) as Hlt.
  rewrite dense_row_length in Hlt by done.
  rewrite (Hall (Z.of_nat j) x) in Hx; [done|lia|].
  apply dense_elem_row; [done|done|lia|]. by rewrite Nat2Z.id.
Qed.

(** A dense batch of [n] empty rows and a single-output unit: the call
    returns [n], for every [n] a signed 64-bit row index can hold. *)
Lemma empty_rows_accepted (n : Z) (f : predict_t) (z : float) :
  0 ≤ n ≤ INT64_MAX →
  (run (PredictBatch_ (sequential n) 1 (DenseBatch.Build [] S754_nan n 0)
          1 0 false 1 (Some (predict_fn f)) n)
     (replicate (Z.to_nat n) z)).1 = Ok n.
Proof.
  intros Hn. unfold INT64_MAX in Hn.
  rewrite (PredictBatch__run (DenseBatch.Build [] S754_nan n 0) 1
    (predict_fn f) false).
  - unfold PredictBatch_spec. rewrite sequential_rows.
    pose proof (loop_spec_count
      (entries (DenseBatch.Build [] S754_nan n 0)) (unit_base 1)
      (unit_result (predict_fn f) false) (seqZ 0 n) 0
      (replicate (Z.to_nat n) z)) as Hcount.
    rewrite length_seqZ in Hcount.
    destruct (loop_spec _ _ _ _ _ _) as [r out1]; simpl in Hcount.
    rewrite Hcount; [|by apply Forall_forall|done|done|lia].
    replace (0 + Z.of_nat (Z.to_nat n)) with n by lia.
    unfold run, finish, bind; simpl.
    by replace (n <? n) with false by lia.
  - split;
      change (num_row (DenseBatch.Build [] S754_nan n 0)) with n;
      change (num_col (DenseBatch.Build [] S754_nan n 0)) with 0.
    + change (wf_Dense (DenseBatch.Build [] S754_nan n 0) = true).
      unfold wf_Dense.
      cbn [DenseBatch.num_row DenseBatch.num_col DenseBatch.data length].
      rewrite !andb_true_iff, !Z.leb_le, Z.ltb_lt. lia.
    + done.
    + done.
    + unfold INT64_MAX. lia.
    + done.
    + intros e. cbn [unit_result fst length]. lia.
    + by apply sequential_valid.
    + rewrite length_replicate. lia.
    + lia.
Qed.

(** With a [num_row] that fits the signed row index, a call on a loaded
    predictor does not stop with the row index error, whatever the memory
    it runs on. *)
Lemma PredictBatch__never_range `{BatchRows B} (b : B) sched max_thread
    nthread verbose margin G pf expected :
  num_row b ≤ INT64_MAX →
  never RowIndexRange
    (PredictBatch_ sched max_thread b nthread verbose margin G (Some pf)
       expected).
Proof.
  intros Hn. rewrite PredictBatch__unfold.
  apply never_bind; [|intros q; by apply never_finish].
  rewrite run_PredLoop_the_func.
  apply PredLoop_never; [done|by right|by left|].
  intros. by apply never_the_func.
Qed.

(** A call on a predictor without a prediction handle stops with the
    not-loaded error and changes nothing. *)
Lemma PredictBatch__not_loaded `{BatchType B} (b : B) sched max_thread
    nthread verbose margin G expected h :
  PredictBatch_ sched max_thread b nthread verbose margin G None expected h
  = (Fatal NotLoaded, h).
Proof. done. Qed.

(** A thread outside the team the scratch vector was sized for: its slice
    lies past the end of the vector, and its iteration does not return. *)
Lemma slice_outside_team nt nc tid h :
  0 ≤ nt → 0 < nc → nt ≤ tid → nc * tid + nc ≤ 2 ^ 64 →
  length (inst h) = Z.to_nat (nt * nc) →
  slice (size_t (nc * tid)) nc h = (Fatal Undefined, h).
Proof.
  intros Hnt Hnc Htid Hw Hlen. unfold slice.
  rewrite size_t_small by nia. rewrite Hlen, Z2Nat.id by nia.
  replace (nc * tid + nc <=? nt * nc) with false by nia.
  by rewrite andb_false_r.
Qed.

Lemma row_Dense_outside_team (d : DenseBatch.t) nan_missing func nt rid tid h :
  0 ≤ nt → 0 < DenseBatch.num_col d → nt ≤ tid →
  DenseBatch.num_col d * tid + DenseBatch.num_col d ≤ 2 ^ 64 →
  length (inst h) = Z.to_nat (nt * DenseBatch.num_col d) →
  is_Ok (row_Dense d nan_missing func rid tid h).1 = false.
Proof.
  intros Hnt Hnc Htid Hw Hlen. unfold row_Dense, bind.
  assert (stable same_inst_length
    (fill_Dense d nan_missing (size_t (DenseBatch.num_col d * tid))
       (size_t (rid * DenseBatch.num_col d)))) as Hfill.
  { unfold fill_Dense.
    apply (stable_for_range same_inst_length). intros j.
    apply (stable_bind same_inst_length);
      [apply (stable_read same_inst_length)|intros x].
    repeat case_match;
      first [apply (stable_CHECK same_inst_length)
            |apply stable_set_fvalue_length
            |apply (stable_ret same_inst_length)]. }
  specialize (Hfill h). unfold same_inst_length in Hfill.
  destruct (fill_Dense _ _ _ _ h) as [[[]|e] h1]; [|done]. simpl in Hfill.
  by rewrite (slice_outside_team nt) by (done || congruence).
Qed.

Lemma row_CSR_outside_team (c : CSRBatch.t) func nt rid tid h :
  0 ≤ nt → 0 < CSRBatch.num_col c → nt ≤ tid →
  CSRBatch.num_col c * tid + CSRBatch.num_col c ≤ 2 ^ 64 →
  length (inst h) = Z.to_nat (nt * CSRBatch.num_col c) →
  is_Ok (row_CSR c func rid tid h).1 = false.
Proof.
  intros Hnt Hnc Htid Hw Hlen. unfold row_CSR, bind, read.
  destruct (index (CSRBatch.row_ptr c) rid) as [ibegin|]; [|done].
  destruct (index (CSRBatch.row_ptr c) (rid + 1)) as [iend|]; [|done].
  simpl.
  assert (stable same_inst_length
    (fill_CSR c (size_t (CSRBatch.num_col c * tid)) ibegin iend)) as Hfill.
  { unfold fill_CSR.
    apply (stable_for_range same_inst_length). intros i.
    apply (stable_bind same_inst_length);
      [apply (stable_read same_inst_length)|intros col].
    apply (stable_bind same_inst_length);
      [apply (stable_read same_inst_length)|intros v].
    apply stable_set_fvalue_length. }
  specialize (Hfill h). unfold same_inst_length in Hfill.
  destruct (fill_CSR _ _ _ _ h) as [[[]|e] h1]; [|done]. simpl in Hfill.
  by rewrite (slice_outside_team nt) by (done || congruence).
Qed.

(** ** Notions for the further properties *)

(** The name of the prediction entry point [Load] resolves for a group
    count. *)
Definition predict_symbol (num_output_group : Z) : string :=
  if 1 <? num_output_group then "predict_multiclass" else "predict".

(** The sum of a list of integers. *)
Definition sumZ (l : list Z) : Z := foldr Z.add 0 l.

(** What the unit [g] stores and returns for row [rid]; nothing for a
    rejected row. *)
Definition row_result (entries : Z → option (list Entry))
  (g : list Entry → list float * Z) (rid : Z) : list float * Z :=
  match entries rid with
  | Some es => g es
  | None => ([], 0)
  end.

(** The blocks of the output that the rows [rows] store to, each from
    [base rid] on, do not overlap. *)
Definition blocks_disjoint (entries : Z → option (list Entry))
  (base : Z → Z) (g : list Entry → list float * Z) (rows : list Z) : Prop :=
  ∀ rid rid', rid ∈ rows → rid' ∈ rows → rid ≠ rid' →
    0 ≤ base rid ∧
    (base rid + Z.of_nat (length (row_result entries g rid).1) ≤ base rid' ∨
     base rid' + Z.of_nat (length (row_result entries g rid').1) ≤ base rid).

(** [keeps_outside lo hi h h']: the scratch vector of [h'] has the length
    of that of [h] and the same entries outside the slots [lo .. hi - 1]. *)
Definition keeps_outside (lo hi : Z) : relation heap :=
  λ h h', length (inst h') = length (inst h) ∧
    ∀ p : nat, ¬ (lo ≤ Z.of_nat p < hi) → inst h' !! p = inst h !! p.

(** [same_within lo hi h1 h2]: the same output buffer, scratch vectors of
    the same length, and the same entries in the slots [lo .. hi - 1]. *)
Definition same_within (lo hi : Z) : relation heap :=
  λ h1 h2, out_pred h1 = out_pred h2 ∧
    length (inst h1) = length (inst h2) ∧
    ∀ p : nat, lo ≤ Z.of_nat p < hi → inst h1 !! p = inst h2 !! p.

(** [respects Q m]: from two memories related by [Q], [m] has the same
    outcome and leaves memories related by [Q]. *)
Definition respects {A} (Q : relation heap) (m : M heap A) : Prop :=
  ∀ h1 h2, Q h1 h2 → (m h1).1 = (m h2).1 ∧ Q (m h1).2 (m h2).2.

(** The requests for a scratch vector that [alloc_inst] answers as the
    constructor of [std::vector] does.  The constructor throws
    [std::length_error] for more entries than a vector can hold, which a
    negative thread count converted to [size_t] asks for, and
    [std::bad_alloc] when the platform does not have the memory;
    [alloc_inst] has no outcome for either.  What is said about the ways a
    call can stop is said for a thread count that is not negative and a
    number of entries counted without wrap-around, on a platform that has
    the memory. *)
Definition scratch_created (nthread num_col : Z) : Prop :=
  0 ≤ nthread ∧ 0 ≤ num_col ∧ nthread * num_col < 2 ^ 64.

(** * The claims *)

(** C1.  When the total [q] returned by the row loop is below the expected
    size, [PredictBatch_] checks, in this order, that there is more than
    one output group, that [q] is a multiple of [num_row], and that the
    width [k = q / num_row] is above 0 and below the number of output
    groups; each violation is a fatal error.  Then it copies, for every row
    [rid] and every [j < k], the float at [rid * num_output_group + j] to
    [rid * k + j]: afterwards the first [num_row * k] floats are the first
    [k] floats of every row as the row loop left them, in row order, and
    the rest of the buffer is as it was. *)
Theorem reshape_compacts_rows `{BatchType B} (b : B) sched max_thread
    nthread verbose margin G pf expected h q h1 :
  run_PredLoop sched b (clamp_nthread nthread max_thread) verbose margin G pf h
  = (Ok q, h1) →
  0 < num_row b → q < expected →
  let n := num_row b in
  let k := q / n in
  let r := PredictBatch_ sched max_thread b nthread verbose margin G (Some pf)
             expected h in
  (G ≤ 1 → r = (Fatal ReshapeGroup, h1)) ∧
  (1 < G → q mod n ≠ 0 → r = (Fatal ReshapeDivisible, h1)) ∧
  (1 < G → q mod n = 0 → k ≤ 0 → r = (Fatal ReshapePositive, h1)) ∧
  (1 < G → q mod n = 0 → 0 < k → G ≤ k → r = (Fatal ReshapeWidth, h1)) ∧
  (1 < G → q mod n = 0 → 0 < k < G →
   n * G ≤ Z.of_nat (length (out_pred h1)) → n * G < 2 ^ 64 →
   ∃ out2, r = (Ok q, Heap (inst h1) out2) ∧
     length out2 = length (out_pred h1) ∧
     (∀ rid j, 0 ≤ rid < n → 0 ≤ j < k →
        out2 !! Z.to_nat (rid * k + j)
        = out_pred h1 !! Z.to_nat (rid * G + j)) ∧
     (∀ i, n * k ≤ i → out2 !! Z.to_nat i = out_pred h1 !! Z.to_nat i)).
Proof.
  intros Hloop Hn Hq n k r. subst r.
  rewrite PredictBatch__unfold. erewrite bind_Ok by done.
  unfold finish, reshape_checked. replace (q <? expected) with true by lia.
  fold n. replace (n =? 0) with false by lia. fold k.
  repeat split.
  - intros. by replace (1 <? G) with false by lia.
  - intros. replace (1 <? G) with true by lia.
    by replace (q mod n =? 0) with false by lia.
  - intros. replace (1 <? G) with true by lia.
    replace (q mod n =? 0) with true by lia.
    by replace (0 <? k) with false by lia.
  - intros. replace (1 <? G) with true by lia.
    replace (q mod n =? 0) with true by lia.
    replace (0 <? k) with true by lia.
    by replace (k <? G) with false by lia.
  - intros ? ? ? Hlen Hwrap. replace (1 <? G) with true by lia.
    replace (q mod n =? 0) with true by lia.
    replace (0 <? k) with true by lia.
    replace (k <? G) with true by lia.
    destruct (reshape_rule n G k (out_pred h1) (inst h1)
      ltac:(lia) ltac:(lia) Hlen Hwrap h1 eq_refl eq_refl)
      as (out2 & Hrun & Hl & Hrows & Hrest).
    exists out2. repeat split; [|done..].
    cbv beta iota delta [bind CHECK ret]. by rewrite Hrun.
Qed.

(** Four output groups, three rows and a unit that stores two floats per
    row: the call returns 6, and the first six floats of the buffer are
    the two floats of row 0, of row 1 and of row 2. *)
Lemma reshape_compacts_rows_witness :
  let h := Heap [] (replicate 12 (Sample.fl 4)) in
  let pf := predict_multiclass_fn Sample.two_values in
  let h1 := (run_PredLoop (sequential 3) Sample.dense3 1 0 false 4 pf h).2 in
  (run_PredLoop (sequential 3) Sample.dense3 (clamp_nthread 1 4) 0 false 4 pf h
   = (Ok 6, h1) ∧
   0 < num_row Sample.dense3 ∧ 6 < 12) ∧
  out_pred h1
  = [Sample.fl 1; Sample.fl 7; Sample.fl 4; Sample.fl 4;
     Sample.fl 2; Sample.fl 7; Sample.fl 4; Sample.fl 4;
     Sample.fl 3; Sample.fl 7; Sample.fl 4; Sample.fl 4] ∧
  (∃ out2,
     PredictBatch_ (sequential 3) 4 Sample.dense3 1 0 false 4 (Some pf) 12 h
     = (Ok 6, Heap (inst h1) out2) ∧
     take 6 out2 = [Sample.fl 1; Sample.fl 7; Sample.fl 2; Sample.fl 7;
                    Sample.fl 3; Sample.fl 7]) ∧
  run (PredictBatch Sample.loaded4 (sequential 3) 4 Sample.dense3 1 0 false)
    (replicate 12 (Sample.fl 4))
  = (Ok 6,
     [Sample.fl 1; Sample.fl 7; Sample.fl 2; Sample.fl 7;
      Sample.fl 3; Sample.fl 7; Sample.fl 4; Sample.fl 4;
      Sample.fl 3; Sample.fl 7; Sample.fl 4; Sample.fl 4]).
Proof.
  intros h pf h1.
  assert (run_PredLoop (sequential 3) Sample.dense3 (clamp_nthread 1 4) 0
            false 4 pf h = (Ok 6, h1)) as Hloop by (vm_compute; reflexivity).
  assert (0 < num_row Sample.dense3) as Hn by by_compute.
  assert (6 < 12) as Hq by by_compute.
  split; [done|]. split; [vm_compute; reflexivity|].
  split; [|vm_compute; reflexivity].
  destruct (reshape_compacts_rows Sample.dense3 (sequential 3) 4 1 0 false 4
    pf 12 h 6 h1 Hloop Hn Hq) as (_ & _ & _ & _ & Hreshape).
  destruct Hreshape as (out2 & Hrun & Hlen & Hrows & _); [by_compute..|].
  exists out2. split; [exact Hrun|].
  apply list_eq. intros i.
  destruct (decide (i < 6)%nat) as [Hi|Hi].
  - rewrite lookup_take_lt by done.
    destruct i as [|[|[|[|[|[|i]]]]]]; [| | | | | |lia].
    + exact (Hrows 0 0 ltac:(by_compute) ltac:(by_compute)).
    + exact (Hrows 0 1 ltac:(by_compute) ltac:(by_compute)).
    + exact (Hrows 1 0 ltac:(by_compute) ltac:(by_compute)).
    + exact (Hrows 1 1 ltac:(by_compute) ltac:(by_compute)).
    + exact (Hrows 2 0 ltac:(by_compute) ltac:(by_compute)).
    + exact (Hrows 2 1 ltac:(by_compute) ltac:(by_compute)).
  - rewrite lookup_take_ge by lia. symmetry. apply lookup_ge_None. simpl. lia.
Defined.

(** C2.  Materialising row [rid] of a dense batch on a clean scratch
    vector follows the missing-value policy.  With a NaN sentinel the row
    is never rejected, its NaN elements are left missing and the other
    elements are present with their value; the call does not stop with the
    input error.  With a sentinel that is not NaN, a NaN in the row stops
    the materialisation with the input error, and so does a NaN anywhere in
    the batch the call; in a row without NaN the elements equal to the
    sentinel are left missing and the others are present with their
    value. *)
Theorem dense_missing_value_policy (d : DenseBatch.t) nthread rid tid h :
  wf_Dense d = true → nthread * DenseBatch.num_col d < 2 ^ 64 →
  0 ≤ rid < DenseBatch.num_row d → 0 ≤ tid < nthread →
  inst h = replicate (Z.to_nat (nthread * DenseBatch.num_col d)) (missing (-1)) →
  let mv := DenseBatch.missing_value d in
  let nc := DenseBatch.num_col d in
  let elem j x := 0 ≤ j < nc ∧ index (DenseBatch.data d) (rid * nc + j) = Some x in
  (CheckNAN mv = true →
   (∃ es, (seen_Dense d rid tid h).1 = Ok es ∧
      ∀ j x, elem j x →
        index es j = Some (if CheckNAN x then missing (-1) else fvalue x)) ∧
   ∀ sched max_thread nthread' verbose margin G pf expected,
     never NaNInMatrix
       (PredictBatch_ sched max_thread d nthread' verbose margin G (Some pf)
          expected)) ∧
  (CheckNAN mv = false →
   ((∃ j x, elem j x ∧ CheckNAN x = true) →
    (seen_Dense d rid tid h).1 = Fatal NaNInMatrix ∧
    ∀ sched max_thread nthread' verbose margin G pf expected out,
      run_ok d G pf margin (clamp_nthread nthread' max_thread) sched out →
      (run (PredictBatch_ sched max_thread d nthread' verbose margin G
              (Some pf) expected) out).1 = Fatal NaNInMatrix) ∧
   ((∀ j x, elem j x → CheckNAN x = false) →
    ∃ es, (seen_Dense d rid tid h).1 = Ok es ∧
      ∀ j x, elem j x →
        index es j = Some (if SFeqb x mv then missing (-1) else fvalue x))).
Proof.
  intros Hwf Hwrap Hrid Htid Hinst mv nc elem. subst mv nc elem. cbn beta.
  pose proof (seen_Dense_rule d nthread rid tid h Hwf Hwrap Hrid Htid Hinst)
    as Hseen.
  assert (∀ j x,
    0 ≤ j < DenseBatch.num_col d ∧
    index (DenseBatch.data d) (rid * DenseBatch.num_col d + j) = Some x →
    index (dense_entry (DenseBatch.missing_value d) <$> dense_row d rid) j
    = Some (dense_entry (DenseBatch.missing_value d) x)) as Hes.
  { intros j x [Hj Hx]. rewrite index_nat by lia.
    rewrite list_lookup_fmap.
    apply dense_elem_row in Hx; [|done..]. by rewrite Hx. }
  split.
  - intros Hmv. split.
    + rewrite dense_entries_Some in Hseen by by left.
      eexists. split; [done|]. intros j x Hjx. rewrite (Hes j x Hjx).
      unfold dense_entry. by rewrite Hmv.
    + intros. rewrite PredictBatch__unfold.
      apply never_bind; [|intros q; by apply never_finish].
      rewrite run_PredLoop_the_func.
      apply PredLoop_never; [done|by left|by right|].
      intros. by apply never_the_func.
  - intros Hmv. split.
    + intros (j & x & [Hj Hx] & Hnan).
      assert (dense_entries d rid = None) as Hnone.
      { apply dense_entries_None; [done|].
        by apply (dense_row_has_NaN d rid j x). }
      split; [by rewrite Hnone in Hseen|].
      intros sched max_thread nthread' verbose margin G pf expected out Hok.
      rewrite (PredictBatch__run d G pf margin) by done.
      unfold PredictBatch_spec.
      pose proof (loop_spec_None (entries d) (unit_base G)
        (unit_result pf margin) sched.*1 rid 0 out) as Hfail.
      destruct (loop_spec _ _ _ _ _ _) as [r out1]. simpl in Hfail.
      rewrite Hfail; [done| |done].
      destruct Hok as [_ _ _ _ _ _ [-> _] _ _]. apply elem_of_seqZ.
      change (num_row d) with (DenseBatch.num_row d). lia.
    + intros Hall.
      rewrite dense_entries_Some in Hseen.
      * eexists. split; [done|]. intros j x Hjx. rewrite (Hes j x Hjx).
        unfold dense_entry. rewrite Hmv, (Hall j x Hjx). done.
      * right. apply dense_row_no_NaN; [done..|].
        intros j x ? ?. by apply (Hall j x).
Qed.

(** Row 1 of [Sample.dense_policy] holds a NaN and the sentinel is 5: its
    materialisation stops with the input error. *)
Lemma dense_missing_value_policy_witness :
  let d := Sample.dense_policy in
  let h := Heap (replicate 2 (missing (-1))) [] in
  (wf_Dense d = true ∧ 1 * DenseBatch.num_col d < 2 ^ 64 ∧
   0 ≤ 1 < DenseBatch.num_row d ∧ 0 ≤ 0 < 1 ∧
   inst h = replicate (Z.to_nat (1 * DenseBatch.num_col d)) (missing (-1))) ∧
  (seen_Dense d 1 0 h).1 = Fatal NaNInMatrix.
Proof.
  intros d h.
  assert (wf_Dense d = true) as H1 by reflexivity.
  assert (1 * DenseBatch.num_col d < 2 ^ 64) as H2 by by_compute.
  assert (0 ≤ 1 < DenseBatch.num_row d) as H3 by by_compute.
  assert (0 ≤ 0 < 1) as H4 by by_compute.
  assert (inst h
          = replicate (Z.to_nat (1 * DenseBatch.num_col d)) (missing (-1)))
    as H5 by reflexivity.
  split; [done|].
  destruct (dense_missing_value_policy d 1 1 0 h H1 H2 H3 H4 H5)
    as [_ Hfinite].
  destruct (Hfinite eq_refl) as [Hnan _].
  destruct Hnan as [Hseen _]; [|exact Hseen].
  exists 0, S754_nan. repeat split; by_compute.
Defined.

(** C3.  Materialising row [rid] of a CSR batch on a clean scratch vector
    hands the unit [num_col] slots in which the slots marked present are
    exactly the columns listed in [col_ind] between [row_ptr[rid]] and
    [row_ptr[rid + 1]]; a listed column carries the value listed for it
    (the one listed last, when the column is listed more than once), and a
    column that is not listed is missing. *)
Theorem csr_present_columns (c : CSRBatch.t) nthread rid tid h ibegin iend :
  wf_CSR c = true → nthread * CSRBatch.num_col c < 2 ^ 64 →
  0 ≤ rid < CSRBatch.num_row c → 0 ≤ tid < nthread →
  inst h = replicate (Z.to_nat (nthread * CSRBatch.num_col c)) (missing (-1)) →
  index (CSRBatch.row_ptr c) rid = Some ibegin →
  index (CSRBatch.row_ptr c) (rid + 1) = Some iend →
  let listed col :=
    ∃ i, ibegin ≤ i < iend ∧ index (CSRBatch.col_ind c) i = Some col in
  ∃ es, (seen_CSR c rid tid h).1 = Ok es ∧
    length es = Z.to_nat (CSRBatch.num_col c) ∧
    ∀ col, 0 ≤ col < CSRBatch.num_col c →
      (listed col ↔ ∃ e, index es col = Some e ∧ is_present e = true) ∧
      (¬ listed col → index es col = Some (missing (-1))) ∧
      (∀ i v, ibegin ≤ i < iend →
         index (CSRBatch.col_ind c) i = Some col →
         index (CSRBatch.data c) i = Some v →
         (∀ i', i < i' < iend → index (CSRBatch.col_ind c) i' ≠ Some col) →
         index es col = Some (fvalue v)).
Proof.
  intros Hwf Hwrap Hrid Htid Hinst Hib Hie listed. subst listed. cbn beta.
  destruct (wf_CSR_inv c Hwf) as (_ & _ & Hrows).
  specialize (Hrows rid Hrid) as Hrow.
  pose proof (csr_row_ok_ibegin c rid ibegin iend Hib Hie Hrow) as Hib0.
  pose proof (csr_pairs_cols c rid ibegin iend Hib Hie Hrow) as Hcols.
  exists (csr_fill (CSRBatch.num_col c) (csr_pairs c rid)).
  split; [by apply (seen_CSR_rule c nthread)|].
  split; [apply length_csr_fill|].
  intros col Hcol. rewrite !index_nat by lia.
  rewrite <-(csr_pairs_listed c rid ibegin iend Hib Hie Hrow).
  repeat split.
  - intros Hin. destruct (csr_fill_present _ _ col Hcols Hin) as (v & _ & ->).
    eauto.
  - intros (e & He & Hp).
    destruct (decide (col ∈ (csr_pairs c rid).*1)) as [|Hnot]; [done|].
    rewrite (csr_fill_unlisted _ _ Hcols col Hcol Hnot) in He. by simplify_eq.
  - intros Hnot. by apply csr_fill_unlisted.
  - intros i v Hi Hci Hvi Hlast.
    assert (csr_pairs c rid !! Z.to_nat (i - ibegin) = Some (col, v)) as Hk.
    { apply (csr_pairs_lookup c rid ibegin iend Hib Hie Hrow).
      replace (ibegin + Z.of_nat (Z.to_nat (i - ibegin))) with i by lia.
      repeat split; (done || lia). }
    rewrite <-(take_drop_middle _ _ _ Hk).
    apply csr_fill_listed; [by rewrite take_drop_middle|].
    intros ([col' v'] & -> & [j Hj]%list_elem_of_lookup)%list_elem_of_fmap.
    rewrite lookup_drop in Hj.
    apply (csr_pairs_lookup c rid ibegin iend Hib Hie Hrow) in Hj
      as (Hj & Hcj & _).
    apply (Hlast (ibegin + Z.of_nat (S (Z.to_nat (i - ibegin)) + j)));
      [lia|done].
Qed.

(** Row 0 of [Sample.csr2] lists the columns 0 and 2 with the values 1 and
    2: the unit is handed these two present and column 1 missing. *)
Lemma csr_present_columns_witness :
  let c := Sample.csr2 in
  let h := Heap (replicate 3 (missing (-1))) [] in
  (wf_CSR c = true ∧ 1 * CSRBatch.num_col c < 2 ^ 64 ∧
   0 ≤ 0 < CSRBatch.num_row c ∧ 0 ≤ 0 < 1 ∧
   inst h = replicate (Z.to_nat (1 * CSRBatch.num_col c)) (missing (-1)) ∧
   index (CSRBatch.row_ptr c) 0 = Some 0 ∧
   index (CSRBatch.row_ptr c) (0 + 1) = Some 2) ∧
  ∃ es, (seen_CSR c 0 0 h).1 = Ok es ∧
    es = [fvalue (Sample.fl 1); missing (-1); fvalue (Sample.fl 2)].
Proof.
  intros c h.
  assert (wf_CSR c = true) as H1 by reflexivity.
  assert (1 * CSRBatch.num_col c < 2 ^ 64) as H2 by by_compute.
  assert (0 ≤ 0 < CSRBatch.num_row c) as H3 by by_compute.
  assert (0 ≤ 0 < 1) as H4 by by_compute.
  assert (inst h
          = replicate (Z.to_nat (1 * CSRBatch.num_col c)) (missing (-1)))
    as H5 by reflexivity.
  assert (index (CSRBatch.row_ptr c) 0 = Some 0) as H6 by reflexivity.
  assert (index (CSRBatch.row_ptr c) (0 + 1) = Some 2) as H7 by reflexivity.
  split; [done|].
  destruct (csr_present_columns c 1 0 0 h 0 2 H1 H2 H3 H4 H5 H6 H7)
    as (es & Hseen & Hlen & Hcols).
  exists es. split; [exact Hseen|].
  assert ((seen_CSR c 0 0 h).1
          = Ok [fvalue (Sample.fl 1); missing (-1); fvalue (Sample.fl 2)])
    as Hrun by (vm_compute; reflexivity).
  rewrite Hseen in Hrun. by injection Hrun.
Defined.

(** A failed [Load] on a predictor without a prediction handle leaves it
    without one. *)
Lemma Load_failed_not_loaded dlopen name p e p' :
  pred_func_handle_ p = None → Load dlopen name p = (Fatal e, p') →
  pred_func_handle_ p' = None.
Proof.
  destruct p as [l q f n]. simpl. intros ->.
  unfold Load, OpenLibrary, LoadFunction, bind; simpl.
  destruct (dlopen name) as [lib|]; simpl; [|by intros [= <- <-]].
  destruct (lib "get_num_output_group") as [qf|]; simpl; [|by intros [= <- <-]].
  destruct qf as [k|?|?]; simpl; try by intros [= <- <-].
  destruct (0 <? size_t k); simpl; [|by intros [= <- <-]].
  destruct (1 <? size_t k); simpl.
  - destruct (lib "predict_multiclass"); simpl; [done|by intros [= <- <-]].
  - destruct (lib "predict"); simpl; [done|by intros [= <- <-]].
Qed.

(** C4.  Before any successful [Load] the prediction handle is null, and a
    prediction call stops with the not-loaded error and changes nothing.
    But [Free] assigns no member of the predictor: after a successful
    [Load] followed by [Free] the prediction handle is still set, and
    [PredictBatch] passes the not-loaded check and calls the unit of the
    closed image. *)
Theorem Free_keeps_handles :
  (∀ `{BatchType B} garbage sched max_thread (b : B) nthread verbose margin h,
     PredictBatch (Predictor_new garbage) sched max_thread b nthread verbose
       margin h = (Fatal NotLoaded, h)) ∧
  (∀ p, Free p = (Ok tt, p)) ∧
  Load Sample.dlopen "lib1.so" (Predictor_new 0) = (Ok tt, Sample.loaded1) ∧
  is_Some (pred_func_handle_ (Free Sample.loaded1).2) ∧
  run (PredictBatch (Free Sample.loaded1).2 (sequential 3) 1 Sample.dense3
         1 0 false) (replicate 3 (Sample.fl 4))
  = (Ok 3, [Sample.fl 1; Sample.fl 2; Sample.fl 3]).
Proof.
  split; [intros; apply PredictBatch__not_loaded|].
  split; [done|]. split; [by vm_compute|]. split; [by vm_compute; eauto|].
  by vm_compute.
Qed.

(** C5.  An iteration of the row loop that starts on a clean scratch vector
    and is not rejected returns and leaves the scratch vector clean: every
    slot it touched holds the missing marker again, and the slots it did
    not touch still hold it.  So the row run next on the same thread is
    materialised as on a freshly created vector: the unit is handed the
    entries of that row alone. *)
Theorem scratch_reset_between_rows `{BatchRows B} (b : B) func base g
    nthread rid tid h es :
  wf_batch b = true → nthread * num_col b < 2 ^ 64 →
  (∀ rid e h, func rid e h = block_func base g rid e h) →
  0 ≤ rid → rid + 1 < num_row b → 0 ≤ tid < nthread →
  inst h = replicate (Z.to_nat (nthread * num_col b)) (missing (-1)) →
  fits (entries b) base g rid (out_pred h) →
  entries b rid = Some es →
  ∃ n h',
    row b func rid tid h = (Ok n, h') ∧
    inst h' = replicate (Z.to_nat (nthread * num_col b)) (missing (-1)) ∧
    (seen b (rid + 1) tid h').1
    = (seen b (rid + 1) tid
         (Heap (replicate (Z.to_nat (nthread * num_col b)) (missing (-1)))
            [])).1 ∧
    (seen b (rid + 1) tid h').1
    = match entries b (rid + 1) with
      | Some es' => Ok es'
      | None => Fatal NaNInMatrix
      end.
Proof.
  intros Hwf Hwrap Hfunc Hrid Hrid' Htid Hinst Hfits Hes.
  pose proof (row_rule_law b func base g nthread Hwf Hwrap Hfunc rid tid h
    ltac:(lia) Htid Hinst Hfits) as Hrow.
  rewrite Hes in Hrow. eexists _, _. split; [exact Hrow|].
  split; [done|]. simpl.
  rewrite !(seen_rule_law b nthread) by (done || lia). done.
Qed.

(** The two rows of [Sample.csr2] on one thread: after row 0, which
    sets columns 0 and 2, the unit is handed column 1 alone for row 1. *)
Lemma scratch_reset_between_rows_witness :
  let c := Sample.csr2 in
  let func := the_func (predict_fn Sample.first_feature) 1 false in
  let base := unit_base 1 in
  let g := unit_result (predict_fn Sample.first_feature) false in
  let h := Heap (replicate 3 (missing (-1))) [Sample.fl 4; Sample.fl 4] in
  let es := [fvalue (Sample.fl 1); missing (-1); fvalue (Sample.fl 2)] in
  (wf_batch c = true ∧ 1 * num_col c < 2 ^ 64 ∧
   (∀ rid e h, func rid e h = block_func base g rid e h) ∧
   0 ≤ 0 ∧ 0 + 1 < num_row c ∧ 0 ≤ 0 < 1 ∧
   inst h = replicate (Z.to_nat (1 * num_col c)) (missing (-1)) ∧
   fits (entries c) base g 0 (out_pred h) ∧
   entries c 0 = Some es) ∧
  ∃ n h',
    row c func 0 0 h = (Ok n, h') ∧
    inst h' = replicate 3 (missing (-1)) ∧
    (seen c (0 + 1) 0 h').1
    = Ok [missing (-1); fvalue (Sample.fl 3); missing (-1)].
Proof.
  intros c func base g h es.
  assert (wf_batch c = true) as H1 by reflexivity.
  assert (1 * num_col c < 2 ^ 64) as H2 by by_compute.
  assert (∀ rid e h, func rid e h = block_func base g rid e h) as H3
    by (intros; by apply the_func_block).
  assert (0 ≤ 0) as H4 by by_compute.
  assert (0 + 1 < num_row c) as H5 by by_compute.
  assert (0 ≤ 0 < 1) as H6 by by_compute.
  assert (inst h = replicate (Z.to_nat (1 * num_col c)) (missing (-1)))
    as H7 by reflexivity.
  assert (fits (entries c) base g 0 (out_pred h)) as H8.
  { intros es' _. by_compute. }
  assert (entries c 0 = Some es) as H9 by reflexivity.
  split; [done|].
  destruct (scratch_reset_between_rows c func base g 1 0 0 h es
    H1 H2 H3 H4 H5 H6 H7 H8 H9) as (n & h' & Hrow & Hinst & _ & Hseen).
  exists n, h'. split; [exact Hrow|]. split; [exact Hinst|exact Hseen].
Defined.

(** C6, as the code has it.  A call without a loaded unit and a [num_row]
    beyond the signed row index are detected before the row loop, with the
    output buffer untouched.  A NaN in a dense batch whose sentinel is not
    NaN is detected inside the row loop, when its row is materialised: the
    call stops there with the input error, and the output buffer holds what
    the rows run before it have written. *)
Theorem failures_where_detected `{BatchRows B} (b : B) (d : DenseBatch.t)
    sched max_thread nthread verbose margin G pf expected :
  (∀ h, PredictBatch_ sched max_thread b nthread verbose margin G None
          expected h = (Fatal NotLoaded, h)) ∧
  (INT64_MAX < num_row b →
   ∀ out, run (PredictBatch_ sched max_thread b nthread verbose margin G
                 (Some pf) expected) out
          = (Fatal RowIndexRange, out)) ∧
  (∀ s1 rid tid s2 out,
     run_ok d G pf margin (clamp_nthread nthread max_thread)
       (s1 ++ (rid, tid) :: s2) out →
     CheckNAN (DenseBatch.missing_value d) = false →
     existsb CheckNAN (dense_row d rid) = true →
     Forall (λ p, existsb CheckNAN (dense_row d p.1) = false) s1 →
     run (PredictBatch_ (s1 ++ (rid, tid) :: s2) max_thread d nthread verbose
            margin G (Some pf) expected) out
     = (Fatal NaNInMatrix,
        (loop_spec (dense_entries d) (unit_base G) (unit_result pf margin)
           s1.*1 0 out).2)).
Proof.
  split; [done|]. split.
  - intros Hn out. rewrite PredictBatch__unfold, run_PredLoop_the_func.
    unfold run, bind. by rewrite PredLoop_range.
  - intros s1 rid tid s2 out Hok Hmv Hnan Hs1.
    rewrite (PredictBatch__run d G pf margin) by done.
    unfold PredictBatch_spec. rewrite fmap_app, fmap_cons.
    change (entries d) with (dense_entries d).
    rewrite loop_spec_app_None; [done| |by apply dense_entries_None].
    apply Forall_fmap. eapply Forall_impl; [exact Hs1|].
    intros p Hp. simpl. rewrite dense_entries_Some by by right. eauto.
Qed.

(** C6, as stated, fails: on a dense batch with the sentinel 5 whose
    second row is NaN, the call stops with the input error after the
    prediction of the first row has been written. *)
Lemma nan_raised_after_row_written :
  run (PredictBatch Sample.loaded1 (sequential 2) 1 Sample.dense_nan 1 0 false)
    [Sample.fl 4; Sample.fl 4]
  = (Fatal NaNInMatrix, [Sample.fl 1; Sample.fl 4]) ∧
  [Sample.fl 1; Sample.fl 4] ≠ [Sample.fl 4; Sample.fl 4].
Proof. split; [by vm_compute|discriminate]. Qed.

Lemma failures_where_detected_witness :
  let b := DenseBatch.Build [] S754_nan (INT64_MAX + 1) 0 in
  let d := Sample.dense_nan in
  let pf := predict_fn Sample.first_feature in
  let out := [Sample.fl 4; Sample.fl 4] in
  (INT64_MAX < num_row b ∧
   run (PredictBatch_ (sequential 2) 1 b 1 0 false 1 (Some pf) 2) out
   = (Fatal RowIndexRange, out)) ∧
  (run_ok d 1 pf false (clamp_nthread 1 1) ([(0, 0)] ++ (1, 0) :: []) out ∧
   CheckNAN (DenseBatch.missing_value d) = false ∧
   existsb CheckNAN (dense_row d 1) = true ∧
   Forall (λ p, existsb CheckNAN (dense_row d p.1) = false) [(0, 0)] ∧
   run (PredictBatch_ ([(0, 0)] ++ (1, 0) :: []) 1 d 1 0 false 1 (Some pf) 2)
     out
   = (Fatal NaNInMatrix, [Sample.fl 1; Sample.fl 4])).
Proof.
  intros b d pf out.
  assert (INT64_MAX < num_row b) as Hb by by_compute.
  assert (run_ok d 1 pf false (clamp_nthread 1 1) ([(0, 0)] ++ (1, 0) :: [])
            out) as Hok.
  { split; try by_compute.
    split; [reflexivity|]. repeat constructor; by_compute. }
  assert (CheckNAN (DenseBatch.missing_value d) = false) as Hmv by reflexivity.
  assert (existsb CheckNAN (dense_row d 1) = true) as Hnan by reflexivity.
  assert (Forall (λ p, existsb CheckNAN (dense_row d p.1) = false) [(0, 0)])
    as Hs1 by (repeat constructor).
  destruct (failures_where_detected b d (sequential 2) 1 1 0 false 1 pf 2)
    as (_ & Hrange & Hloop).
  split; [split; [exact Hb|exact (Hrange Hb out)]|].
  repeat (split; [assumption|]).
  exact (Hloop [(0, 0)] 1 0 [] out Hok Hmv Hnan Hs1).
Defined.

(** C7, as the code has it.  The row index check passes for every
    [num_row] up to and including the largest signed 64-bit value, so for
    that value minus one and for that value itself: the call does not stop
    with the row index error.  Above it the call stops with that error
    before the row loop, the output buffer untouched. *)
Theorem row_index_check_boundary `{BatchRows B} (b : B) sched max_thread
    nthread verbose margin G pf expected :
  (num_row b ≤ INT64_MAX →
   never RowIndexRange
     (PredictBatch_ sched max_thread b nthread verbose margin G (Some pf)
        expected)) ∧
  (INT64_MAX < num_row b →
   ∀ out, run (PredictBatch_ sched max_thread b nthread verbose margin G
                 (Some pf) expected) out
          = (Fatal RowIndexRange, out)).
Proof.
  split.
  - apply PredictBatch__never_range.
  - intros Hn out. rewrite PredictBatch__unfold, run_PredLoop_the_func.
    unfold run, bind. by rewrite PredLoop_range.
Qed.

(** A dense batch of [INT64_MAX - 1] rows passes the check, and one of
    [INT64_MAX + 1] rows is stopped with the buffer untouched. *)
Lemma row_index_check_boundary_witness :
  let b1 := DenseBatch.Build [] S754_nan (INT64_MAX - 1) 0 in
  let b2 := DenseBatch.Build [] S754_nan (INT64_MAX + 1) 0 in
  let pf := predict_fn Sample.first_feature in
  (num_row b1 ≤ INT64_MAX ∧
   never RowIndexRange (PredictBatch_ [] 1 b1 1 0 false 1 (Some pf) 0)) ∧
  (INT64_MAX < num_row b2 ∧
   run (PredictBatch_ [] 1 b2 1 0 false 1 (Some pf) 0) []
   = (Fatal RowIndexRange, [])).
Proof.
  intros b1 b2 pf.
  assert (num_row b1 ≤ INT64_MAX) as H1 by by_compute.
  assert (INT64_MAX < num_row b2) as H2 by by_compute.
  split; split; [exact H1| |exact H2|].
  - exact (proj1 (row_index_check_boundary b1 [] 1 1 0 false 1 pf 0) H1).
  - exact (proj2 (row_index_check_boundary b2 [] 1 1 0 false 1 pf 0) H2 []).
Defined.

(** C7, as stated, fails: a batch of [INT64_MAX] rows exceeds
    [INT64_MAX - 1], and the call on it is not stopped with the row index
    error, whatever the memory it runs on; with an output buffer of
    [INT64_MAX] floats it returns its [INT64_MAX] predictions. *)
Lemma INT64_MAX_rows_accepted :
  INT64_MAX - 1 < num_row (DenseBatch.Build [] S754_nan INT64_MAX 0) ∧
  never RowIndexRange
    (PredictBatch_ (sequential INT64_MAX) 1
       (DenseBatch.Build [] S754_nan INT64_MAX 0) 1 0 false 1
       (Some (predict_fn Sample.first_feature)) INT64_MAX) ∧
  (run (PredictBatch_ (sequential INT64_MAX) 1
          (DenseBatch.Build [] S754_nan INT64_MAX 0) 1 0 false 1
          (Some (predict_fn Sample.first_feature)) INT64_MAX)
     (replicate (Z.to_nat INT64_MAX) (Sample.fl 4))).1 = Ok INT64_MAX.
Proof.
  split; [by_compute|]. split.
  - apply PredictBatch__never_range. by_compute.
  - apply empty_rows_accepted. split; by_compute.
Qed.



(** C9.  Two calls on the same batch, unit, margin flag and output buffer
    that differ in the thread count requested, and in how the rows are
    distributed over the threads and ordered in time, give the same result
    and, when they return, bit-identical output buffers. *)
Theorem output_independent_of_threads `{BatchRows B} (b : B) G pf margin
    max_thread sched1 sched2 nthread1 nthread2 verbose expected out :
  run_ok b G pf margin (clamp_nthread nthread1 max_thread) sched1 out →
  run_ok b G pf margin (clamp_nthread nthread2 max_thread) sched2 out →
  agree
    (run (PredictBatch_ sched1 max_thread b nthread1 verbose margin G (Some pf)
            expected) out)
    (run (PredictBatch_ sched2 max_thread b nthread2 verbose margin G (Some pf)
            expected) out).
Proof.
  intros Hok1 Hok2.
  rewrite !(PredictBatch__run b G pf margin) by done.
  destruct Hok1 as [Hwf _ _ _ Hm Hb [Hp1 _] _ Hw], Hok2 as [_ _ _ _ _ _ [Hp2 _] _ _].
  destruct (wf_batch_nonneg b Hwf) as [Hn _].
  pose proof (loop_spec_perm (entries b) (unit_base G) (unit_result pf margin)
    (λ rid, 0 ≤ rid < num_row b)) as Hperm.
  unfold PredictBatch_spec.
  destruct (Hperm) with (rows1 := sched1.*1) (rows2 := sched2.*1)
    (total := 0) (out := out) as [Hr Ho].
  - intros rid rid' es es' Hrid Hrid' Hne _ _.
    rewrite !(unit_base_small b G pf) by done.
    pose proof (Hb es). pose proof (Hb es').
    repeat split; [nia|nia|].
    destruct (decide (rid < rid')); [left|right]; nia.
  - by rewrite Hp1, Hp2.
  - rewrite Hp1. apply NoDup_seqZ.
  - rewrite Hp1. apply Forall_seqZ. lia.
  - destruct (loop_spec _ _ _ sched1.*1 _ _) as [r1 out1],
      (loop_spec _ _ _ sched2.*1 _ _) as [r2 out2]; simpl in *. subst r2.
    destruct r1 as [q|e]; [|by split].
    rewrite Ho by done. apply agree_refl.
Qed.

(** A request for 1 thread and one for 8 threads with 4 available: the
    second call runs the rows on three threads in another order. *)
Lemma output_independent_of_threads_witness :
  let pf := predict_multiclass_fn Sample.two_values in
  let out := replicate 12 (Sample.fl 4) in
  let sched1 := sequential 3 in
  let sched2 := [(2, 3); (0, 0); (1, 2)] in
  run_ok Sample.dense3 4 pf false (clamp_nthread 1 4) sched1 out ∧
  run_ok Sample.dense3 4 pf false (clamp_nthread 8 4) sched2 out ∧
  agree
    (run (PredictBatch_ sched1 4 Sample.dense3 1 0 false 4 (Some pf) 12) out)
    (run (PredictBatch_ sched2 4 Sample.dense3 8 0 false 4 (Some pf) 12) out).
Proof.
  intros pf out sched1 sched2.
  assert (run_ok Sample.dense3 4 pf false (clamp_nthread 1 4) sched1 out)
    as Hok1.
  { split; try by_compute.
    - intros e. unfold pf, unit_result, Sample.two_values.
      cbn [fst]. repeat case_match; cbn [length]; lia.
    - split; [reflexivity|]. repeat constructor; by_compute. }
  assert (run_ok Sample.dense3 4 pf false (clamp_nthread 8 4) sched2 out)
    as Hok2.
  { split; try by_compute.
    - intros e. unfold pf, unit_result, Sample.two_values.
      cbn [fst]. repeat case_match; cbn [length]; lia.
    - split; [|repeat constructor; by_compute].
      change (sched2.*1) with [2; 0; 1].
      change (num_row Sample.dense3) with 3.
      change (seqZ 0 3) with [0; 1; 2].
      etrans; [apply perm_swap|]. apply perm_skip, perm_swap. }
  split; [exact Hok1|]. split; [exact Hok2|].
  exact (output_independent_of_threads Sample.dense3 4 pf false 4 sched1
           sched2 1 8 0 12 out Hok1 Hok2).
Defined.

(** C10.  When the total returned by the row loop is not below the expected
    size, [PredictBatch_] makes no check at all: whatever the number of
    output groups and whatever the total, even one above the expected size,
    the total is returned as it is and the memory is left as the row loop
    left it. *)
Theorem total_not_below_expected_unchecked `{BatchType B} (b : B) sched
    max_thread nthread verbose margin G pf expected h q h1 :
  run_PredLoop sched b (clamp_nthread nthread max_thread) verbose margin G pf h
  = (Ok q, h1) →
  expected ≤ q →
  PredictBatch_ sched max_thread b nthread verbose margin G (Some pf) expected h
  = (Ok q, h1).
Proof.
  intros Hloop Hq. rewrite PredictBatch__unfold.
  erewrite bind_Ok by done. unfold finish.
  replace (q <? expected) with false by lia. done.
Qed.

(** A unit that returns 5 for each of the 3 rows of a call that expects 6
    values: the total 15 is returned. *)
Lemma total_not_below_expected_unchecked_witness :
  let h := Heap [] (replicate 6 (Sample.fl 4)) in
  let pf := predict_multiclass_fn Sample.over_count in
  let h1 := (run_PredLoop (sequential 3) Sample.dense3 1 0 false 2 pf h).2 in
  run_PredLoop (sequential 3) Sample.dense3 (clamp_nthread 1 4) 0 false 2 pf h
  = (Ok 15, h1) ∧
  6 ≤ 15 ∧
  PredictBatch_ (sequential 3) 4 Sample.dense3 1 0 false 2 (Some pf) 6 h
  = (Ok 15, h1).
Proof.
  assert (run_PredLoop (sequential 3) Sample.dense3 (clamp_nthread 1 4) 0
            false 2 (predict_multiclass_fn Sample.over_count)
            (Heap [] (replicate 6 (Sample.fl 4)))
          = (Ok 15,
             (run_PredLoop (sequential 3) Sample.dense3 1 0 false 2
                (predict_multiclass_fn Sample.over_count)
                (Heap [] (replicate 6 (Sample.fl 4)))).2)) as Hloop
    by (vm_compute; reflexivity).
  split; [exact Hloop|]. split; [lia|].
  exact (total_not_below_expected_unchecked Sample.dense3 (sequential 3) 4 1 0
           false 2 (predict_multiclass_fn Sample.over_count) 6 _ 15 _
           Hloop ltac:(lia)).
Defined.

(** * Further properties of the code *)

(** ** Load *)

(** X1.  [Load] succeeds exactly when the image opens, its
    [get_num_output_group] is present and returns a positive count, and
    the prediction entry point for that count is present
    ([predict_multiclass] above one group, [predict] otherwise); it then
    leaves the image, both entry points and the count in the predictor,
    whatever the predictor held before. *)
Theorem Load_succeeds_iff dlopen name p p' :
  Load dlopen name p = (Ok tt, p') ↔
  ∃ lib n pf,
    dlopen name = Some lib ∧
    lib "get_num_output_group" = Some (get_num_output_group_fn n) ∧
    0 < size_t n ∧
    lib (predict_symbol (size_t n)) = Some pf ∧
    p' = Build_Predictor (Some lib) (Some (get_num_output_group_fn n))
           (Some pf) (size_t n).
Proof.
  destruct p as [l q f g].
  unfold Load, OpenLibrary, LoadFunction, predict_symbol, bind; simpl. split.
  - destruct (dlopen name) as [lib|]; simpl; [|done].
    destruct (lib "get_num_output_group") as [qf|] eqn:Hq; simpl; [|done].
    destruct qf as [k|?|?]; simpl; try done.
    destruct (0 <? size_t k) eqn:Hpos; simpl; [|done].
    destruct (1 <? size_t k) eqn:Hm; simpl.
    + destruct (lib "predict_multiclass") as [pf|] eqn:Hp; simpl; [|done].
      intros [= <-]. exists lib, k, pf. rewrite Hm. repeat split; (done || lia).
    + destruct (lib "predict") as [pf|] eqn:Hp; simpl; [|done].
      intros [= <-]. exists lib, k, pf. rewrite Hm. repeat split; (done || lia).
  - intros (lib & n & pf & -> & Hq & Hpos & Hp & ->). simpl. rewrite Hq. simpl.
    replace (0 <? size_t n) with true by lia. simpl.
    destruct (1 <? size_t n); simpl; by rewrite Hp.
Qed.

Lemma Load_succeeds_iff_witness :
  Load Sample.dlopen "lib4.so" (Predictor_new 7)
  = (Ok tt,
     Build_Predictor (Some Sample.lib4) (Some (get_num_output_group_fn 4))
       (Some (predict_multiclass_fn Sample.two_values)) 4).
Proof.
  apply (proj2 (Load_succeeds_iff Sample.dlopen "lib4.so" (Predictor_new 7) _)).
  exists Sample.lib4, 4, (predict_multiclass_fn Sample.two_values).
  repeat split; by_compute.
Defined.

(** X2.  A failing [Load] says what is missing, and leaves the predictor
    half updated: the image handle is always overwritten, and the
    prediction handle is the one the predictor held before, unless the
    failure is the missing prediction entry point, which nulls it.  In
    particular a predictor that was loaded keeps its old prediction handle
    when a later [Load] cannot open its image, finds no
    [get_num_output_group], or gets a count of zero, in which case the
    count it keeps is zero. *)
Theorem Load_failure_state dlopen name p e p' :
  Load dlopen name p = (Fatal e, p') →
  (dlopen name = None ∧ e = LoadLibraryFailed ∧
   p' = Build_Predictor None (query_func_handle_ p) (pred_func_handle_ p)
          (num_output_group_ p)) ∨
  ∃ lib, dlopen name = Some lib ∧
    ((lib "get_num_output_group" = None ∧ e = NoQueryFunction ∧
      p' = Build_Predictor (Some lib) None (pred_func_handle_ p)
             (num_output_group_ p)) ∨
     (∃ n, lib "get_num_output_group" = Some (get_num_output_group_fn n) ∧
       ((size_t n = 0 ∧ e = ZeroOutputGroup ∧
         p' = Build_Predictor (Some lib) (Some (get_num_output_group_fn n))
                (pred_func_handle_ p) 0) ∨
        (0 < size_t n ∧ lib (predict_symbol (size_t n)) = None ∧
         e = (if 1 <? size_t n then NoPredictMulticlass else NoPredict) ∧
         p' = Build_Predictor (Some lib) (Some (get_num_output_group_fn n))
                None (size_t n)))) ∨
     ∃ qf, lib "get_num_output_group" = Some qf ∧
       (∀ n, qf ≠ get_num_output_group_fn n) ∧ e = Undefined ∧
       p' = Build_Predictor (Some lib) (Some qf) (pred_func_handle_ p)
              (num_output_group_ p)).
Proof.
  destruct p as [l q f g].
  unfold Load, OpenLibrary, LoadFunction, predict_symbol, bind; simpl.
  destruct (dlopen name) as [lib|]; simpl; [|intros [= <- <-]; by left].
  intros Hrun. right. exists lib. split; [done|].
  destruct (lib "get_num_output_group") as [qf|] eqn:Hq; simpl in Hrun;
    [|injection Hrun as <- <-; by left].
  destruct qf as [k|u|u]; simpl in Hrun;
    [|injection Hrun as <- <-; right; right; eexists; by repeat split..].
  right. left. exists k. split; [done|].
  pose proof (Z.mod_pos_bound k (2 ^ 64) ltac:(lia)) as Hk. fold (size_t k) in Hk.
  destruct (0 <? size_t k) eqn:Hpos; simpl in Hrun.
  - right. destruct (1 <? size_t k) eqn:Hm; simpl in Hrun.
    + destruct (lib "predict_multiclass") eqn:Hp; simpl in Hrun; [done|].
      injection Hrun as <- <-. repeat split; (done || lia).
    + destruct (lib "predict") eqn:Hp; simpl in Hrun; [done|].
      injection Hrun as <- <-. repeat split; (done || lia).
  - left. injection Hrun as <- <-.
    replace (size_t k) with 0 by lia. done.
Qed.

(** The image [none.so] does not exist: a loaded predictor keeps its
    prediction handle and loses its image handle. *)
Lemma Load_failure_state_witness :
  Load Sample.dlopen "none.so" Sample.loaded1
  = (Fatal LoadLibraryFailed,
     Build_Predictor None (query_func_handle_ Sample.loaded1)
       (pred_func_handle_ Sample.loaded1)
       (num_output_group_ Sample.loaded1)) ∧
  pred_func_handle_ (Load Sample.dlopen "none.so" Sample.loaded1).2
  = Some (predict_fn Sample.first_feature).
Proof.
  assert (Load Sample.dlopen "none.so" Sample.loaded1
          = (Fatal LoadLibraryFailed,
             (Load Sample.dlopen "none.so" Sample.loaded1).2)) as Hrun
    by (vm_compute; reflexivity).
  destruct (Load_failure_state _ _ _ _ _ Hrun) as [(_ & _ & Hp)|(lib & Hl & _)].
  - split; [by rewrite Hrun, Hp|]. rewrite Hp. vm_compute. reflexivity.
  - exfalso. vm_compute in Hl. discriminate.
Defined.

(** ** What a call can fail with *)

Lemma PredLoop_error_cause `{BatchRows B} (b : B) sched nthread verbose pf G
    margin h e h' :
  PredLoop sched b nthread verbose (the_func pf G margin) h = (Fatal e, h') →
  match e with
  | RowIndexRange => INT64_MAX < num_row b
  | NaNInMatrix => accepts_nan b = false
  | Undefined => True
  | _ => False
  end.
Proof.
  intros Hrun.
  assert (∀ e0, Undefined ≠ e0 →
    RowIndexRange ≠ e0 ∨ num_row b ≤ INT64_MAX →
    NaNInMatrix ≠ e0 ∨ accepts_nan b = true → e ≠ e0) as Hnever.
  { intros e0 H1 H2 H3 ->.
    apply (PredLoop_never e0 sched b nthread verbose (the_func pf G margin)
             H1 H2 H3 (never_the_func e0 H1 pf G margin) h).
    by rewrite Hrun. }
  destruct e; try done;
    try (eapply Hnever; [| | |reflexivity]; [done|by left|by left]).
  - destruct (decide (num_row b ≤ INT64_MAX)); [|lia].
    exfalso. eapply Hnever; [| | |reflexivity]; [done|by right|by left].
  - destruct (accepts_nan b) eqn:Hn; [|done].
    exfalso. eapply Hnever; [| | |reflexivity]; [done|by left|by right].
Qed.

Lemma finish_error_cause n G expected q h e h' :
  finish n G expected q h = (Fatal e, h') →
  q < expected ∧
  match e with
  | ReshapeGroup => G ≤ 1
  | ReshapeDivisible => 1 < G ∧ n ≠ 0 ∧ q mod n ≠ 0
  | ReshapePositive => 1 < G ∧ n ≠ 0 ∧ q mod n = 0 ∧ q / n ≤ 0
  | ReshapeWidth => 1 < G ∧ n ≠ 0 ∧ q mod n = 0 ∧ G ≤ q / n
  | Undefined => 1 < G
  | _ => False
  end.
Proof.
  unfold finish, reshape_checked, bind.
  destruct (q <? expected) eqn:Hq; [|done]. intros Hrun. split; [lia|].
  destruct (1 <? G) eqn:HG; simpl in Hrun; [|injection Hrun as <- <-; lia].
  destruct (n =? 0) eqn:Hn; simpl in Hrun; [injection Hrun as <- <-; lia|].
  destruct (q mod n =? 0) eqn:Hm; simpl in Hrun; [|injection Hrun as <- <-; lia].
  destruct (0 <? q / n) eqn:Hp; simpl in Hrun; [|injection Hrun as <- <-; lia].
  destruct (q / n <? G) eqn:Hw; simpl in Hrun; [|injection Hrun as <- <-; lia].
  destruct (reshape n G (q / n) h) as [[[]|e1] h1] eqn:Hr; [done|].
  injection Hrun as <- <-.
  assert (∀ e0, Undefined ≠ e0 → e1 ≠ e0) as Hnever.
  { intros e0 He ->. revert Hr. unfold reshape. intros Hr.
    eapply (never_for_range e0); [|by rewrite Hr]. intros rid.
    apply never_for_range. intros k.
    apply never_bind; [by apply never_get_out|intros v].
    by apply never_set_out. }
  destruct e1; try lia; exfalso; (eapply Hnever; [|reflexivity]; done).
Qed.

(** X4.  A call on a loaded predictor whose scratch vector is created
    stops with one of seven errors, and each one has its cause: the
    row-count error needs more than [INT64_MAX] rows, the NaN error a batch
    whose rows can be rejected (a dense batch with a sentinel that is not
    NaN), the group error of the re-shaping at most one output group, its
    three other errors more than one; it never reports the missing handle
    or an error of [Load].  A request the constructor of the vector
    refuses is outside this list: see [scratch_created]. *)
Theorem PredictBatch__error_causes `{BatchRows B} (b : B) sched max_thread
    nthread verbose margin G pf expected h e h' :
  scratch_created (clamp_nthread nthread max_thread) (num_col b) →
  PredictBatch_ sched max_thread b nthread verbose margin G (Some pf)
    expected h = (Fatal e, h') →
  match e with
  | RowIndexRange => INT64_MAX < num_row b
  | NaNInMatrix => accepts_nan b = false
  | ReshapeGroup => G ≤ 1
  | ReshapeDivisible | ReshapePositive | ReshapeWidth =>
    1 < G ∧ num_row b ≠ 0
  | Undefined => True
  | _ => False
  end.
Proof.
  intros _.
  rewrite PredictBatch__unfold, run_PredLoop_the_func. unfold bind.
  destruct (PredLoop _ _ _ _ _ h) as [[q|e1] h1] eqn:Hloop.
  - intros [_ Hf]%finish_error_cause. destruct e; try done; lia.
  - intros [= <- <-]. apply PredLoop_error_cause in Hloop.
    by destruct e1.
Qed.

(** The second row of [dense_nan] holds a NaN and the sentinel is 5. *)
Lemma PredictBatch__error_causes_witness :
  accepts_nan Sample.dense_nan = false.
Proof.
  pose (r := PredictBatch_ (sequential 2) 1 Sample.dense_nan 1 0 false 1
               (Some (predict_fn Sample.first_feature)) 2
               (Heap [] [Sample.fl 4; Sample.fl 4])).
  assert (r = (Fatal NaNInMatrix, r.2)) as Hrun by (vm_compute; reflexivity).
  assert (scratch_created (clamp_nthread 1 1) (num_col Sample.dense_nan))
    as Hcreated by by_compute.
  exact (PredictBatch__error_causes Sample.dense_nan (sequential 2) 1 1 0
           false 1 (predict_fn Sample.first_feature) 2 _ NaNInMatrix _
           Hcreated Hrun).
Defined.

(** ** The output of the row loop, slot by slot *)

Lemma sumZ_perm l1 l2 : l1 ≡ₚ l2 → sumZ l1 = sumZ l2.
Proof. induction 1; simpl in *; lia. Qed.

Section loop_spec_stores.
Variables (entries : Z → option (list Entry)).
Variables (base : Z → Z) (g : list Entry → list float * Z).

Local Abbreviation res := (row_result entries g).

Lemma loop_spec_total rows : ∀ total out,
  Forall (λ rid, is_Some (entries rid)) rows →
  0 ≤ total < 2 ^ 64 →
  (loop_spec entries base g rows total out).1
  = Ok (size_t (total + sumZ ((λ rid, (res rid).2) <$> rows))).
Proof.
  induction rows as [|r rows IH]; intros total out Hall Ht; simpl.
  - rewrite Z.add_0_r. by rewrite size_t_small.
  - apply Forall_cons in Hall as [[es Hes] Hall].
    assert (res r = g es) as -> by (unfold row_result; by rewrite Hes).
    rewrite Hes.
    rewrite IH; [|done|apply Z.mod_pos_bound; lia].
    f_equal. unfold size_t. rewrite Zplus_mod_idemp_l. f_equal.
    symmetry. apply Z.add_assoc.
Qed.

Lemma loop_spec_length rows : ∀ total out,
  length (loop_spec entries base g rows total out).2 = length out.
Proof.
  induction rows as [|r rows IH]; intros total out; simpl; [done|].
  destruct (entries r); [|done]. by rewrite IH, length_inserts.
Qed.

(** A slot outside the blocks of the rows is not written. *)
Lemma loop_spec_lookup_other rows (i : nat) : ∀ total out,
  (∀ rid, rid ∈ rows →
     ¬ (base rid ≤ Z.of_nat i
        < base rid + Z.of_nat (length (res rid).1))) →
  (∀ rid, rid ∈ rows → 0 ≤ base rid) →
  (loop_spec entries base g rows total out).2 !! i = out !! i.
Proof.
  induction rows as [|r rows IH]; intros total out Hout Hbase; simpl; [done|].
  pose proof (Hout r ltac:(left)) as Hr.
  pose proof (Hbase r ltac:(left)) as Hb.
  unfold row_result in Hr.
  destruct (entries r) as [es|]; [|done].
  rewrite IH; [| |]; try (intros; apply Hout || apply Hbase; by right).
  destruct (decide (i < Z.to_nat (base r))%nat).
  - by rewrite list_lookup_inserts_lt.
  - rewrite list_lookup_inserts_ge; [done|lia].
Qed.

(** The floats of a row are in its block, whatever the place of the row in
    the order. *)
Lemma loop_spec_lookup_row rows rid (j : nat) x : ∀ total out,
  NoDup rows → rid ∈ rows → blocks_disjoint entries base g rows →
  0 ≤ base rid →
  base rid + Z.of_nat (length (res rid).1) ≤ Z.of_nat (length out) →
  (res rid).1 !! j = Some x →
  is_Ok (loop_spec entries base g rows total out).1 = true →
  (loop_spec entries base g rows total out).2 !! (Z.to_nat (base rid) + j)%nat
  = Some x.
Proof.
  induction rows as [|r rows IH];
    intros total out Hnd Hin Hdis Hb Hfit Hx Hok; simpl in *.
  - by apply elem_of_nil in Hin.
  - apply NoDup_cons in Hnd as [Hr Hnd].
    pose proof (lookup_lt_Some _ _ _ Hx) as Hj.
    destruct (entries r) as [es|] eqn:Hes; [|done].
    destruct (decide (rid = r)) as [->|Hne].
    + rewrite loop_spec_lookup_other.
      * unfold row_result in Hx, Hj, Hfit. rewrite Hes in Hx, Hj, Hfit.
        rewrite list_lookup_inserts by lia.
        by replace (Z.to_nat (base r) + j - Z.to_nat (base r))%nat with j
          by lia.
      * intros rid' Hin'.
        destruct (Hdis r rid') as [_ Hd];
          [by left|by right|by intros ->|].
        destruct (Hdis rid' r) as [? _];
          [by right|by left|by intros ->|]. lia.
      * intros rid' Hin'.
        destruct (Hdis rid' r) as [? _];
          [by right|by left|by intros ->|]. done.
    + apply elem_of_cons in Hin as [?|Hin]; [done|].
      apply IH; try done.
      * intros r1 r2 ? ? ?. apply Hdis; by (done || right).
      * by rewrite length_inserts.
Qed.

End loop_spec_stores.

Section stores.
Context `{BatchRows B}.
Variables (b : B) (G : Z) (pf : FuncPtr) (margin : bool).

Local Abbreviation res := (row_result (entries b) (unit_result pf margin)).

Lemma row_result_bounded rid :
  unit_bounded G pf margin →
  Z.of_nat (length (res rid).1) ≤ Z.max 1 G.
Proof.
  intros Hb. unfold row_result. destruct (entries b rid); [apply Hb|].
  simpl. lia.
Qed.

(** The row loop of a call in which every row is accepted: the total is
    the sum of the counts, every float of every row is in the block of its
    row, and the other slots are as they were. *)
Lemma loop_spec_stores nt sched out :
  run_ok b G pf margin nt sched out →
  (∀ rid, 0 ≤ rid < num_row b → is_Some (entries b rid)) →
  ∃ out1,
    loop_spec (entries b) (unit_base G) (unit_result pf margin) sched.*1 0 out
    = (Ok (size_t (sumZ ((λ rid, (res rid).2) <$> seqZ 0 (num_row b)))), out1) ∧
    length out1 = length out ∧
    (∀ rid (j : nat) x, 0 ≤ rid < num_row b → (res rid).1 !! j = Some x →
       out1 !! (Z.to_nat (rid * Z.max 1 G) + j)%nat = Some x) ∧
    (∀ i : nat,
       (∀ rid, 0 ≤ rid < num_row b →
          ¬ (rid * Z.max 1 G ≤ Z.of_nat i
             < rid * Z.max 1 G + Z.of_nat (length (res rid).1))) →
       out1 !! i = out !! i).
Proof.
  intros [Hwf _ _ _ Hm Hb [Hperm _] Hout Hw] Hall.
  destruct (wf_batch_nonneg b Hwf) as [Hn _].
  assert (∀ rid, rid ∈ sched.*1 ↔ 0 ≤ rid < num_row b) as Hmem.
  { intros rid. rewrite Hperm, elem_of_seqZ. lia. }
  assert (∀ rid, 0 ≤ rid < num_row b → unit_base G rid = rid * Z.max 1 G)
    as Hbase by (intros; by apply (unit_base_small b G pf)).
  pose proof (loop_spec_total (entries b) (unit_base G)
    (unit_result pf margin) sched.*1 0 out) as Htotal.
  pose proof (loop_spec_length (entries b) (unit_base G)
    (unit_result pf margin) sched.*1 0 out) as Hlen.
  pose proof (loop_spec_lookup_other (entries b) (unit_base G)
    (unit_result pf margin) sched.*1) as Hother.
  pose proof (loop_spec_lookup_row (entries b) (unit_base G)
    (unit_result pf margin) sched.*1) as Hrow.
  specialize (Hother) with (total := 0) (out := out).
  specialize (Hrow) with (total := 0) (out := out).
  destruct (loop_spec _ _ _ _ _ _) as [r out1]; simpl in *.
  rewrite Htotal; [|apply Forall_forall; intros; by apply Hall, Hmem|lia].
  exists out1. rewrite Z.add_0_l.
  rewrite (sumZ_perm _ ((λ rid, (res rid).2) <$> seqZ 0 (num_row b)))
    by (by rewrite Hperm).
  repeat split; [done| |].
  - intros rid j x Hrid Hx. pose proof (row_result_bounded rid Hb).
    rewrite <-Hbase by done. apply Hrow; try done.
    + rewrite Hperm. apply NoDup_seqZ.
    + by apply Hmem.
    + intros r1 r2 Hr1%Hmem Hr2%Hmem Hne. rewrite !Hbase by done.
      pose proof (row_result_bounded r1 Hb).
      pose proof (row_result_bounded r2 Hb).
      split; [nia|]. destruct (decide (r1 < r2)); [left|right]; nia.
    + rewrite Hbase by done. nia.
    + rewrite Hbase by done. nia.
    + by rewrite Htotal;
        [|apply Forall_forall; intros; by apply Hall, Hmem|lia].
  - intros i Hi. apply Hother.
    + intros rid Hrid%Hmem. rewrite Hbase by done. by apply Hi.
    + intros rid Hrid%Hmem. rewrite Hbase by done. nia.
Qed.

End stores.


(** ** A whole call, slot by slot *)

(** X5.  When every row is accepted and no re-shaping is due, a call
    returns the sum of the counts the unit returned for the rows (modulo
    [2^64]), whatever the schedule; the output buffer keeps its length,
    every float the unit stored for row [rid] is at its place in the block
    that starts at [rid * max(1, num_output_group)], and every slot outside
    these stores is as it was before the call. *)
Theorem PredictBatch__stores `{BatchRows B} (b : B) G pf margin sched
    max_thread nthread verbose expected out :
  run_ok b G pf margin (clamp_nthread nthread max_thread) sched out →
  (∀ rid, 0 ≤ rid < num_row b → is_Some (entries b rid)) →
  let res := row_result (entries b) (unit_result pf margin) in
  let q := size_t (sumZ ((λ rid, (res rid).2) <$> seqZ 0 (num_row b))) in
  expected ≤ q →
  ∃ out',
    run (PredictBatch_ sched max_thread b nthread verbose margin G (Some pf)
           expected) out = (Ok q, out') ∧
    length out' = length out ∧
    (∀ rid (j : nat) x, 0 ≤ rid < num_row b → (res rid).1 !! j = Some x →
       out' !! (Z.to_nat (rid * Z.max 1 G) + j)%nat = Some x) ∧
    (∀ i : nat,
       (∀ rid, 0 ≤ rid < num_row b →
          ¬ (rid * Z.max 1 G ≤ Z.of_nat i
             < rid * Z.max 1 G + Z.of_nat (length (res rid).1))) →
       out' !! i = out !! i).
Proof.
  intros Hok Hall res q Hq.
  rewrite (PredictBatch__run b G pf margin) by done.
  unfold PredictBatch_spec.
  destruct (loop_spec_stores b G pf margin _ sched out Hok Hall)
    as (out1 & -> & Hlen & Hrows & Hrest).
  exists out1. fold res. fold q. split; [|done].
  unfold run, finish, bind.
  by replace (q <? expected) with false by lia.
Qed.

Lemma dense3_two_values_ok :
  run_ok Sample.dense3 4 (predict_multiclass_fn Sample.two_values) false
    (clamp_nthread 8 4) [(2, 3); (0, 0); (1, 2)]
    (replicate 12 (Sample.fl 4)).
Proof.
  split; try by_compute.
  - intros e. unfold unit_result, Sample.two_values.
    cbn [fst]. repeat case_match; cbn [length]; lia.
  - split; [|repeat constructor; by_compute].
    change ([(2, 3); (0, 0); (1, 2)].*1) with [2; 0; 1].
    change (num_row Sample.dense3) with 3.
    change (seqZ 0 3) with [0; 1; 2].
    etrans; [apply perm_swap|]. apply perm_skip, perm_swap.
Qed.

Lemma dense3_accepted rid :
  0 ≤ rid < num_row Sample.dense3 → is_Some (entries Sample.dense3 rid).
Proof.
  change (num_row Sample.dense3) with 3. intros Hrid.
  assert (rid = 0 ∨ rid = 1 ∨ rid = 2) as [->|[->| ->]] by lia;
    vm_compute; eauto.
Qed.

(** Three rows, four output groups, a unit that stores two floats per row
    and returns 2, and an expected size of 6: the call returns 6, and row 2
    has its feature at slot 8. *)
Lemma PredictBatch__stores_witness :
  ∃ out',
    run (PredictBatch_ [(2, 3); (0, 0); (1, 2)] 4 Sample.dense3 8 0 false 4
           (Some (predict_multiclass_fn Sample.two_values)) 6)
      (replicate 12 (Sample.fl 4)) = (Ok 6, out') ∧
    out' !! 8%nat = Some (Sample.fl 3).
Proof.
  destruct (PredictBatch__stores Sample.dense3 4
    (predict_multiclass_fn Sample.two_values) false [(2, 3); (0, 0); (1, 2)]
    4 8 0 6 (replicate 12 (Sample.fl 4)) dense3_two_values_ok
    dense3_accepted) as (out' & Hrun & _ & Hrows & _); [by_compute|].
  exists out'. split; [exact Hrun|].
  apply (Hrows 2 0%nat); by_compute.
Defined.


Lemma sumZ_const {A} (f : A → Z) k (l : list A) :
  (∀ x, x ∈ l → f x = k) → sumZ (f <$> l) = Z.of_nat (length l) * k.
Proof.
  induction l as [|x l IH]; intros Hf; [done|].
  unfold sumZ in *. rewrite fmap_cons. cbn [foldr length].
  rewrite IH by (intros; apply Hf; by right).
  rewrite (Hf x) by (by left). lia.
Qed.

Lemma reshape_checked_Ok n G q h :
  1 < G → 0 < n → q mod n = 0 → 0 < q / n < G →
  reshape_checked n G q h = reshape n G (q / n) h.
Proof.
  intros HG Hn Hm Hk. unfold reshape_checked, bind, CHECK.
  replace (1 <? G) with true by lia.
  replace (n =? 0) with false by lia.
  replace (q mod n =? 0) with true by lia.
  replace (0 <? q / n) with true by lia.
  replace (q / n <? G) with true by lia.
  done.
Qed.

(** X6.  When every row is accepted and the unit returns the same count
    [k] for every row, with [0 < k < num_output_group], and the expected
    size is above [num_row * k], a call returns [num_row * k] and leaves
    the rows packed at width [k]: the [j]-th float the unit stored for row
    [rid], for [j < k], is at [rid * k + j].  A slot from [num_row * k] on
    that is in no block the unit stored to is as it was before the call;
    the blocks themselves keep, from [num_row * k] on, what the unit
    stored. *)
Theorem PredictBatch__packs_rows `{BatchRows B} (b : B) G pf margin sched
    max_thread nthread verbose expected out k :
  run_ok b G pf margin (clamp_nthread nthread max_thread) sched out →
  (∀ rid, 0 ≤ rid < num_row b → is_Some (entries b rid)) →
  let res := row_result (entries b) (unit_result pf margin) in
  (∀ rid, 0 ≤ rid < num_row b → (res rid).2 = k) →
  0 < num_row b → 0 < k < G → num_row b * k < expected →
  ∃ out',
    run (PredictBatch_ sched max_thread b nthread verbose margin G (Some pf)
           expected) out = (Ok (num_row b * k), out') ∧
    length out' = length out ∧
    (∀ rid (j : nat) x, 0 ≤ rid < num_row b → Z.of_nat j < k →
       (res rid).1 !! j = Some x →
       out' !! (Z.to_nat (rid * k) + j)%nat = Some x) ∧
    (∀ rid (j : nat) x, 0 ≤ rid < num_row b →
       num_row b * k ≤ rid * G + Z.of_nat j →
       (res rid).1 !! j = Some x →
       out' !! (Z.to_nat (rid * G) + j)%nat = Some x) ∧
    (∀ i : nat, num_row b * k ≤ Z.of_nat i →
       (∀ rid, 0 ≤ rid < num_row b →
          ¬ (rid * G ≤ Z.of_nat i
             < rid * G + Z.of_nat (length (res rid).1))) →
       out' !! i = out !! i).
Proof.
  intros Hok Hall res Hk Hn HkG Hexp.
  rewrite (PredictBatch__run b G pf margin) by done.
  unfold PredictBatch_spec.
  destruct (loop_spec_stores b G pf margin _ sched out Hok Hall)
    as (out1 & -> & Hlen & Hrows & Hrest).
  destruct Hok as [_ _ _ _ _ _ _ Hout Hw].
  rewrite Z.max_r in * by lia.
  rewrite (sumZ_const _ k).
  2:{ intros rid Hin%elem_of_seqZ. apply Hk. lia. }
  rewrite length_seqZ, Z2Nat.id by lia.
  rewrite size_t_small by nia.
  assert ((num_row b * k) mod num_row b = 0) as Hmod
    by (rewrite Z.mul_comm; apply Z_mod_mult).
  assert (num_row b * k / num_row b = k) as Hdiv
    by (rewrite Z.mul_comm; apply Z_div_mult; lia).
  unfold run, finish, bind.
  replace (num_row b * k <? expected) with true by lia.
  rewrite reshape_checked_Ok by (rewrite ?Hdiv; done || lia).
  rewrite Hdiv.
  assert (0 ≤ num_row b) as Hn0 by lia.
  assert (num_row b * G ≤ Z.of_nat (length out1)) as Hout1
    by (by rewrite Hlen).
  destruct (reshape_rule (num_row b) G k out1 [] Hn0 HkG Hout1 Hw
    (Heap [] out1) eq_refl eq_refl)
    as (out2 & -> & Hlen2 & Hpacked & Hkept).
  exists out2. simpl. repeat split; [congruence| | |].
  - intros rid j x Hrid Hj Hx.
    replace (Z.to_nat (rid * k) + j)%nat with (Z.to_nat (rid * k + Z.of_nat j))
      by nia.
    rewrite Hpacked by lia.
    replace (Z.to_nat (rid * G + Z.of_nat j))
      with (Z.to_nat (rid * G) + j)%nat by nia.
    by apply Hrows.
  - intros rid j x Hrid Hj Hx.
    replace (Z.to_nat (rid * G) + j)%nat with (Z.to_nat (rid * G + Z.of_nat j))
      by nia.
    rewrite Hkept by lia.
    replace (Z.to_nat (rid * G + Z.of_nat j))
      with (Z.to_nat (rid * G) + j)%nat by nia.
    by apply Hrows.
  - intros i Hi Hfree. rewrite <-(Nat2Z.id i). rewrite Hkept by lia.
    rewrite Nat2Z.id. by apply Hrest.
Qed.

(** Three rows, four output groups and a unit that stores two floats per
    row and returns 2: the call returns 6 and the feature of row 2 is at
    slot 4. *)
Lemma PredictBatch__packs_rows_witness :
  ∃ out',
    run (PredictBatch_ [(2, 3); (0, 0); (1, 2)] 4 Sample.dense3 8 0 false 4
           (Some (predict_multiclass_fn Sample.two_values)) 12)
      (replicate 12 (Sample.fl 4)) = (Ok (3 * 2), out') ∧
    out' !! 4%nat = Some (Sample.fl 3).
Proof.
  destruct (PredictBatch__packs_rows Sample.dense3 4
    (predict_multiclass_fn Sample.two_values) false [(2, 3); (0, 0); (1, 2)]
    4 8 0 12 (replicate 12 (Sample.fl 4)) 2 dense3_two_values_ok
    dense3_accepted) as (out' & Hrun & _ & Hrows & _); try by_compute.
  exists out'. split; [exact Hrun|].
  apply (Hrows 2 0%nat); by_compute.
Defined.


(** ** The scratch slice of a thread *)

#[global] Instance keeps_outside_preorder lo hi : PreOrder (keeps_outside lo hi).
Proof.
  split; [by intros h|].
  intros h1 h2 h3 [Hl1 Hp1] [Hl2 Hp2]. split; [congruence|].
  intros p Hp. by rewrite Hp2, Hp1.
Qed.

Lemma stable_for_count_in (R : relation heap) `{!PreOrder R} n :
  ∀ i body,
    (∀ j, i ≤ j < i + Z.of_nat n → stable R (body j)) →
    stable R (for_count n i body).
Proof.
  induction n as [|n IH]; intros i body Hb; simpl.
  - by apply stable_ret.
  - apply (stable_bind R); [apply Hb; lia|]. intros _.
    apply IH. intros j Hj. apply Hb. lia.
Qed.

Lemma stable_for_range_in (R : relation heap) `{!PreOrder R} lo hi body :
  (∀ j, lo ≤ j < hi → stable R (body j)) → stable R (for_range lo hi body).
Proof.
  intros Hb. apply (stable_for_count_in R). intros j Hj. apply Hb. lia.
Qed.

Lemma stable_bind_read (R : relation heap) `{!PreOrder R} {A B} (l : list A) i
    (f : A → M heap B) :
  (∀ x, index l i = Some x → stable R (f x)) → stable R (bind (read l i) f).
Proof.
  intros Hf h. unfold bind, read.
  destruct (index l i) as [x|] eqn:Hx; simpl; [by apply Hf|reflexivity].
Qed.

Section keeps_outside.
Variables lo hi : Z.

Lemma keeps_outside_update l i (e : Entry) o h :
  lo ≤ i < hi → update (inst h) i e = Some l →
  keeps_outside lo hi h (Heap l o).
Proof.
  intros Hi [Hr ->]%update_inv. split; simpl; [by rewrite length_insert|].
  intros p Hp. apply list_lookup_insert_ne. lia.
Qed.

Lemma stable_set_fvalue_within i v :
  lo ≤ i < hi → stable (keeps_outside lo hi) (set_fvalue i v).
Proof.
  intros Hi h. unfold set_fvalue.
  destruct (update _ _ _) eqn:E; simpl; [|reflexivity].
  by eapply keeps_outside_update.
Qed.

Lemma stable_set_missing_within i m :
  lo ≤ i < hi → stable (keeps_outside lo hi) (set_missing i m).
Proof.
  intros Hi h. unfold set_missing.
  destruct (update _ _ _) eqn:E; simpl; [|reflexivity].
  by eapply keeps_outside_update.
Qed.

Lemma stable_set_out_outside i x : stable (keeps_outside lo hi) (set_out i x).
Proof.
  intros h. unfold set_out. destruct (update _ _ _); simpl; [|reflexivity].
  by split.
Qed.

Lemma stable_the_func_outside pf G margin rid en :
  stable (keeps_outside lo hi) (the_func pf G margin rid en).
Proof.
  unfold the_func. case_match.
  - apply stable_multiclass_func; [apply _|apply stable_set_out_outside].
  - apply stable_single_func; [apply _|apply stable_set_out_outside].
Qed.

End keeps_outside.

Section own_slice.
Variables (nc nthread tid : Z).
Hypothesis Hnc : 0 ≤ nc.
Hypothesis Hwrap : nthread * nc < 2 ^ 64.
Hypothesis Htid : 0 ≤ tid < nthread.

Local Abbreviation R := (keeps_outside (nc * tid) (nc * tid + nc)).

Lemma own_slice_off : size_t (nc * tid) = nc * tid.
Proof. apply size_t_small. nia. Qed.

Lemma own_slice_slot j :
  0 ≤ j < nc → nc * tid ≤ size_t (nc * tid + j) < nc * tid + nc.
Proof. intros Hj. rewrite size_t_small by nia. lia. Qed.

Lemma stable_clear_own j m :
  0 ≤ j < nc → stable R (set_missing (size_t (nc * tid + j)) m).
Proof. intros. by apply stable_set_missing_within, own_slice_slot. Qed.

Lemma stable_fill_own j v :
  0 ≤ j < nc → stable R (set_fvalue (size_t (nc * tid + j)) v).
Proof. intros. by apply stable_set_fvalue_within, own_slice_slot. Qed.

End own_slice.

(** X7.  An iteration of the dense row loop on thread [tid] writes to the
    scratch vector only inside the slice of its thread, the slots
    [num_col * tid .. num_col * tid + num_col - 1]: whatever the scratch
    vector holds when it starts and whether it returns or fails, every
    entry outside that slice, and the length of the vector, are as
    before. *)
Theorem row_Dense_keeps_other_slices (d : DenseBatch.t) nan_missing pf G
    margin nthread rid tid :
  0 ≤ DenseBatch.num_col d → nthread * DenseBatch.num_col d < 2 ^ 64 →
  0 ≤ tid < nthread →
  let nc := DenseBatch.num_col d in
  stable (keeps_outside (nc * tid) (nc * tid + nc))
    (row_Dense d nan_missing (the_func pf G margin) rid tid).
Proof.
  intros Hnc Hw Htid nc. unfold row_Dense, fill_Dense, clear_Dense. fold nc.
  rewrite (own_slice_off nc nthread tid) by done.
  set (R := keeps_outside (nc * tid) (nc * tid + nc)).
  apply (stable_bind R).
  - apply (stable_for_range_in R). intros j Hj.
    apply (stable_bind R); [apply (stable_read R)|intros x].
    case_match; [apply (stable_CHECK R)|].
    case_match; [|apply (stable_ret R)].
    by apply (stable_fill_own nc nthread).
  - intros _. apply (stable_bind R); [apply (stable_slice R)|intros e].
    apply (stable_bind R); [apply stable_the_func_outside|intros n].
    apply (stable_bind R); [|intros; apply (stable_ret R)].
    apply (stable_for_range_in R). intros j Hj.
    by apply (stable_clear_own nc nthread).
Qed.

(** X8.  An iteration of the CSR row loop on thread [tid], for a row whose
    column indices are below [num_col], writes to the scratch vector only
    inside the slice of its thread. *)
Theorem row_CSR_keeps_other_slices (c : CSRBatch.t) pf G margin nthread rid
    tid :
  wf_CSR c = true → 0 ≤ rid < CSRBatch.num_row c →
  nthread * CSRBatch.num_col c < 2 ^ 64 → 0 ≤ tid < nthread →
  let nc := CSRBatch.num_col c in
  stable (keeps_outside (nc * tid) (nc * tid + nc))
    (row_CSR c (the_func pf G margin) rid tid).
Proof.
  intros (_ & Hnc & Hrows)%wf_CSR_inv Hrid Hw Htid nc.
  specialize (Hrows rid Hrid) as Hrow.
  unfold row_CSR, fill_CSR, clear_CSR. fold nc.
  rewrite (own_slice_off nc nthread tid) by done.
  set (R := keeps_outside (nc * tid) (nc * tid + nc)).
  apply (stable_bind_read R). intros ibegin Hib.
  apply (stable_bind_read R). intros iend Hie.
  assert (∀ i col, ibegin ≤ i < iend →
    index (CSRBatch.col_ind c) i = Some col → 0 ≤ col < nc) as Hcol.
  { intros i col Hi Hc.
    by destruct (csr_row_ok_col c rid ibegin iend Hib Hie Hrow i col Hi Hc). }
  apply (stable_bind R).
  - apply (stable_for_range_in R). intros i Hi.
    apply (stable_bind_read R). intros col Hc.
    apply (stable_bind R); [apply (stable_read R)|intros v].
    apply (stable_fill_own nc nthread); [done..|]. by apply (Hcol i).
  - intros _. apply (stable_bind R); [apply (stable_slice R)|intros e].
    apply (stable_bind R); [apply stable_the_func_outside|intros n].
    apply (stable_bind R); [|intros; apply (stable_ret R)].
    apply (stable_for_range_in R). intros i Hi.
    apply (stable_bind_read R). intros col Hc.
    apply (stable_clear_own nc nthread); [done..|]. by apply (Hcol i).
Qed.

(** The scratch slot 0 belongs to thread 0: row 1 on thread 1 leaves it. *)
Lemma row_Dense_keeps_other_slices_witness :
  let h := Heap [fvalue (Sample.fl 7); missing (-1); fvalue (Sample.fl 8)]
             [Sample.fl 4; Sample.fl 4; Sample.fl 4] in
  inst (row_Dense Sample.dense3 true
          (the_func (predict_fn Sample.first_feature) 1 false) 1 1 h).2
    !! 0%nat
  = Some (fvalue (Sample.fl 7)).
Proof.
  intros h.
  assert (0 ≤ DenseBatch.num_col Sample.dense3) as H1 by by_compute.
  assert (3 * DenseBatch.num_col Sample.dense3 < 2 ^ 64) as H2 by by_compute.
  assert (0 ≤ 1 < 3) as H3 by by_compute.
  destruct (row_Dense_keeps_other_slices Sample.dense3 true
    (predict_fn Sample.first_feature) 1 false 3 1 1 H1 H2 H3 h) as [_ Hp].
  rewrite Hp; [reflexivity|]. vm_compute. intros [Hlo _]. by apply Hlo.
Defined.

(** Row 1 of [csr2] lists column 1; on thread 1 it leaves the slots 0 to 2
    of thread 0. *)
Lemma row_CSR_keeps_other_slices_witness :
  let h := Heap (replicate 3 (fvalue (Sample.fl 7))
                 ++ replicate 3 (missing (-1)))
             [Sample.fl 4; Sample.fl 4] in
  inst (row_CSR Sample.csr2
          (the_func (predict_fn Sample.first_feature) 1 false) 1 1 h).2
    !! 2%nat
  = Some (fvalue (Sample.fl 7)).
Proof.
  intros h.
  assert (wf_CSR Sample.csr2 = true) as H1 by by_compute.
  assert (0 ≤ 1 < CSRBatch.num_row Sample.csr2) as H2 by by_compute.
  assert (2 * CSRBatch.num_col Sample.csr2 < 2 ^ 64) as H3 by by_compute.
  assert (0 ≤ 1 < 2) as H4 by by_compute.
  destruct (row_CSR_keeps_other_slices Sample.csr2
    (predict_fn Sample.first_feature) 1 false 2 1 1 H1 H2 H3 H4 h) as [_ Hp].
  rewrite Hp; [reflexivity|]. vm_compute. intros [Hlo _]. by apply Hlo.
Defined.

(** ** What an iteration reads of the scratch vector *)

Section respects.
Variable Q : relation heap.

Lemma respects_ret {A} (a : A) : respects Q (ret a).
Proof. by intros h1 h2 HQ. Qed.

Lemma respects_fatal {A} e : respects Q (fatal (A:=A) e).
Proof. by intros h1 h2 HQ. Qed.

Lemma respects_bind {A B} (m : M heap A) (f : A → M heap B) :
  respects Q m → (∀ a, respects Q (f a)) → respects Q (bind m f).
Proof.
  intros Hm Hf h1 h2 HQ. unfold bind. specialize (Hm h1 h2 HQ).
  destruct (m h1) as [[a|e] s1], (m h2) as [[a'|e'] s2]; simpl in *;
    destruct Hm as [Heq Hs]; try done.
  - injection Heq as <-. by apply Hf.
  - by injection Heq as <-.
Qed.

Lemma respects_CHECK b e : respects Q (CHECK b e).
Proof. destruct b; [apply respects_ret|apply respects_fatal]. Qed.

Lemma respects_read {A} (l : list A) i : respects Q (read l i).
Proof.
  unfold read. destruct (index l i); [apply respects_ret|apply respects_fatal].
Qed.

Lemma respects_for_count n : ∀ i body,
  (∀ j, respects Q (body j)) → respects Q (for_count n i body).
Proof.
  induction n as [|n IH]; intros i body Hb; simpl.
  - apply respects_ret.
  - apply respects_bind; [done|]. intros _. by apply IH.
Qed.

Lemma respects_for_range lo hi body :
  (∀ j, respects Q (body j)) → respects Q (for_range lo hi body).
Proof. apply respects_for_count. Qed.

End respects.

Section same_within.
Variables lo hi : Z.

Local Abbreviation Q := (same_within lo hi).

Lemma same_within_update h1 h2 i (e : Entry) :
  Q h1 h2 →
  match update (inst h1) i e, update (inst h2) i e with
  | Some l1, Some l2 =>
    Q (Heap l1 (out_pred h1)) (Heap l2 (out_pred h2))
  | None, None => True
  | _, _ => False
  end.
Proof.
  intros (Ho & Hl & Hp). unfold update. rewrite Hl.
  destruct ((0 <=? i) && (i <? Z.of_nat (length (inst h2)))) eqn:Hi; [|done].
  repeat split; simpl; [done|by rewrite !length_insert|].
  intros p Hin. destruct (decide (p = Z.to_nat i)) as [->|].
  - rewrite !list_lookup_insert_eq by lia. done.
  - rewrite !list_lookup_insert_ne by done. by apply Hp.
Qed.

Lemma respects_set_fvalue i v : respects Q (set_fvalue i v).
Proof.
  intros h1 h2 HQ. unfold set_fvalue.
  pose proof (same_within_update h1 h2 i (fvalue v) HQ) as Hu.
  by destruct (update (inst h1) _ _), (update (inst h2) _ _).
Qed.

Lemma respects_set_missing i m : respects Q (set_missing i m).
Proof.
  intros h1 h2 HQ. unfold set_missing.
  pose proof (same_within_update h1 h2 i (missing m) HQ) as Hu.
  by destruct (update (inst h1) _ _), (update (inst h2) _ _).
Qed.

Lemma respects_set_out i x : respects Q (set_out i x).
Proof.
  intros h1 h2 (Ho & Hl & Hp). unfold set_out. rewrite Ho.
  destruct (update _ _ _); simpl; [|by repeat split].
  by repeat split.
Qed.

Lemma respects_slice off n :
  lo ≤ off → off + n ≤ hi → respects Q (slice off n).
Proof.
  intros Hlo Hhi h1 h2 (Ho & Hl & Hp). unfold slice. rewrite Hl.
  case_match eqn:Hin; simpl; [|by repeat split].
  split; [|by repeat split]. f_equal. apply list_eq. intros k.
  destruct (decide (k < Z.to_nat n)%nat).
  - rewrite !lookup_take_lt, !lookup_drop by done. apply Hp. lia.
  - by rewrite !lookup_take_ge by lia.
Qed.

Lemma respects_write_floats ws : ∀ i, respects Q (write_floats i ws).
Proof.
  induction ws as [|w ws IH]; intros i; simpl; [apply respects_ret|].
  apply respects_bind; [apply respects_set_out|]. intros _. apply IH.
Qed.

Lemma respects_the_func pf G margin rid en :
  respects Q (the_func pf G margin rid en).
Proof.
  unfold the_func, multiclass_func, single_func.
  case_match; (apply respects_bind; [destruct pf; simpl;
    first [apply respects_ret|apply respects_fatal]|intros r]).
  - apply respects_bind; [apply respects_write_floats|].
    intros _. apply respects_ret.
  - apply respects_bind; [apply respects_set_out|].
    intros _. apply respects_ret.
Qed.

End same_within.

(** X9.  An iteration of the dense row loop on thread [tid] reads of the
    scratch vector only the slice of its thread: from two memories with
    the same output buffer and scratch vectors of the same length that
    agree on the slots [off .. off + num_col - 1], [off] being
    [num_col * tid] as the code computes it, it has the same outcome and
    leaves the same output buffer and the same entries in these slots,
    whatever the other slots hold. *)
Theorem row_Dense_reads_own_slice (d : DenseBatch.t) nan_missing pf G margin
    rid tid :
  let nc := DenseBatch.num_col d in
  let off := size_t (nc * tid) in
  respects (same_within off (off + nc))
    (row_Dense d nan_missing (the_func pf G margin) rid tid).
Proof.
  intros nc off. unfold row_Dense, fill_Dense, clear_Dense. fold nc. fold off.
  apply respects_bind.
  - apply respects_for_range. intros j.
    apply respects_bind; [apply respects_read|intros x].
    case_match; [apply respects_CHECK|].
    case_match; [apply respects_set_fvalue|apply respects_ret].
  - intros _. apply respects_bind; [by apply respects_slice|intros e].
    apply respects_bind; [apply respects_the_func|intros n].
    apply respects_bind; [|intros; apply respects_ret].
    apply respects_for_range. intros j. apply respects_set_missing.
Qed.

(** X10.  An iteration of the CSR row loop on thread [tid] reads of the
    scratch vector only the slice of its thread. *)
Theorem row_CSR_reads_own_slice (c : CSRBatch.t) pf G margin rid tid :
  let nc := CSRBatch.num_col c in
  let off := size_t (nc * tid) in
  respects (same_within off (off + nc))
    (row_CSR c (the_func pf G margin) rid tid).
Proof.
  intros nc off. unfold row_CSR, fill_CSR, clear_CSR. fold nc. fold off.
  apply respects_bind; [apply respects_read|intros ibegin].
  apply respects_bind; [apply respects_read|intros iend].
  apply respects_bind.
  - apply respects_for_range. intros i.
    apply respects_bind; [apply respects_read|intros col].
    apply respects_bind; [apply respects_read|intros v].
    apply respects_set_fvalue.
  - intros _. apply respects_bind; [by apply respects_slice|intros e].
    apply respects_bind; [apply respects_the_func|intros n].
    apply respects_bind; [|intros; apply respects_ret].
    apply respects_for_range. intros i.
    apply respects_bind; [apply respects_read|intros col].
    apply respects_set_missing.
Qed.


(** ** A batch without rows *)

(** X11.  A call on a batch without rows leaves the output buffer as it
    is, whatever the unit.  It returns 0 when the expected size is 0.
    When the expected size is positive the re-shaping block is entered
    with [num_row = 0]: the call stops at the group check with one output
    group or less, and above that it evaluates a remainder by zero, which
    is undefined. *)
Theorem PredictBatch__no_rows `{BatchRows B} (b : B) sched max_thread nthread
    verbose margin G pf expected h :
  num_row b = 0 → sched.*1 ≡ₚ seqZ 0 (num_row b) →
  PredictBatch_ sched max_thread b nthread verbose margin G (Some pf)
    expected h
  = (if expected <=? 0 then Ok 0
     else if 1 <? G then Fatal Undefined else Fatal ReshapeGroup,
     Heap (replicate
             (Z.to_nat (size_t (clamp_nthread nthread max_thread * num_col b)))
             (missing (-1)))
       (out_pred h)).
Proof.
  intros Hn Hperm. rewrite Hn in Hperm.
  apply Permutation_nil_r, fmap_nil_inv in Hperm as ->.
  rewrite PredictBatch__unfold, run_PredLoop_the_func. unfold bind.
  rewrite PredLoop_rows by (rewrite Hn; done). simpl.
  unfold finish, reshape_checked, bind, CHECK. rewrite Hn.
  destruct (Z.leb_spec expected 0).
  - by replace (0 <? expected) with false by lia.
  - replace (0 <? expected) with true by lia. by destruct (1 <? G).
Qed.

Lemma PredictBatch__no_rows_witness :
  PredictBatch_ [] 2 (DenseBatch.Build [] S754_nan 0 3) 0 0 false 4
    (Some (predict_multiclass_fn Sample.two_values)) 0
    (Heap [] [Sample.fl 4])
  = (Ok 0, Heap (replicate 6 (missing (-1))) [Sample.fl 4]).
Proof.
  assert (num_row (DenseBatch.Build [] S754_nan 0 3) = 0) as H1 by by_compute.
  assert (([] : Schedule).*1
          ≡ₚ seqZ 0 (num_row (DenseBatch.Build [] S754_nan 0 3))) as H2
    by reflexivity.
  exact (PredictBatch__no_rows (DenseBatch.Build [] S754_nan 0 3) [] 2 0 0
           false 4 (predict_multiclass_fn Sample.two_values) 0
           (Heap [] [Sample.fl 4]) H1 H2).
Defined.

(** ** A prediction call after a failed Load *)

(** X12.  A [Load] that fails does not always leave the predictor
    unloaded.  When the image cannot be opened or has no
    [get_num_output_group], the prediction handle and the group count are
    the ones held before, and a prediction call behaves as before the
    failed [Load]; only when the prediction entry point is missing is the
    handle null, and a prediction call stops with the not-loaded error. *)
Theorem PredictBatch_after_failed_Load `{BatchType B} dlopen name p e p'
    sched max_thread (b : B) nthread verbose margin :
  Load dlopen name p = (Fatal e, p') →
  match e with
  | LoadLibraryFailed | NoQueryFunction =>
    PredictBatch p' sched max_thread b nthread verbose margin
    = PredictBatch p sched max_thread b nthread verbose margin
  | NoPredictMulticlass | NoPredict =>
    ∀ h, PredictBatch p' sched max_thread b nthread verbose margin h
         = (Fatal NotLoaded, h)
  | _ => True
  end.
Proof.
  destruct p as [l q f g].
  unfold Load, OpenLibrary, LoadFunction, bind; simpl.
  destruct (dlopen name) as [lib|]; simpl; [|by intros [= <- <-]].
  destruct (lib "get_num_output_group") as [qf|]; simpl;
    [|by intros [= <- <-]].
  destruct qf as [k|u|u]; simpl; [|by intros [= <- <-]..].
  destruct (0 <? size_t k); simpl; [|by intros [= <- <-]].
  destruct (1 <? size_t k); simpl.
  - destruct (lib "predict_multiclass"); simpl; [done|].
    by intros [= <- <-].
  - destruct (lib "predict"); simpl; [done|]. by intros [= <- <-].
Qed.

(** The image [none.so] does not exist: after the failed [Load] the
    predictor with [lib1] loaded predicts as before. *)
Lemma PredictBatch_after_failed_Load_witness :
  run (PredictBatch (Load Sample.dlopen "none.so" Sample.loaded1).2
         (sequential 3) 1 Sample.dense3 1 0 false) (replicate 3 (Sample.fl 4))
  = (Ok 3, [Sample.fl 1; Sample.fl 2; Sample.fl 3]).
Proof.
  pose (r := Load Sample.dlopen "none.so" Sample.loaded1).
  assert (r = (Fatal LoadLibraryFailed, r.2)) as Hrun
    by (vm_compute; reflexivity).
  assert (PredictBatch r.2 (sequential 3) 1 Sample.dense3 1 0 false
          = PredictBatch Sample.loaded1 (sequential 3) 1 Sample.dense3 1 0
              false) as Heq
    by exact (PredictBatch_after_failed_Load Sample.dlopen "none.so"
                Sample.loaded1 LoadLibraryFailed r.2 (sequential 3) 1
                Sample.dense3 1 0 false Hrun).
  fold r. rewrite Heq. vm_compute. reflexivity.
Defined.
